(** * HashMap: open addressing with Robin Hood displacement

    A shallow embedding of [src/hash_map.h] (class [HashMap<KeyType,
    ValueType, Hash>]) and the verification of its lookup, insertion,
    deletion, resize and iteration behaviour.

    Conventions of the embedding.
    - The vectors of the class are lists, read with [!!!] and written with
      [<[i:=x]>].  An access out of range is undefined behaviour in C++
      (here: a default value is read, nothing is written); the invariant
      [lens_ok] says that the four vectors indexed by slots have [size_]
      elements, and the functions are specified on tables that satisfy it.
    - [std::size_t] values are natural numbers.  Increments are bounded by
      the length of an allocated vector and decrements are applied to
      positive values on well-formed tables.  The arithmetic that is not so
      bounded, the products of [IsCoolLoad] and [Rebuild], is reduced modulo
      [size_range], the number of values of [std::size_t] (2^w on a w-bit
      platform).  The argument of [reserve] in [Init] changes no value and
      is left out.
    - A member function that modifies the object maps a [HashMap] to a
      [result] carrying the new [HashMap]; a [const] member function only
      returns its value.
    - [while] loops take a fuel argument; a loop that uses up its fuel
      yields [Timeout].  The exception of [at] is [Throw out_of_range].
    - Names that Rocq reserves are changed: [at] is [at_], [begin] and [end]
      are [begin_] and [end_], [operator[]] is [index], [operator*] of an
      iterator is [deref].  An assignment through the reference returned by
      [operator[]] is [assign], one through [operator->] of an iterator is
      [set_second]. *)

From Stdlib Require Import Lia PeanoNat.
From stdpp Require Import base decidable option numbers list.

(** ** Outcome of a call *)

Inductive exn : Set :=
| out_of_range (* std::out_of_range("can't find element") *).

Inductive result (A : Type) : Type :=
| Ret (a : A)
| Throw (e : exn)
| Timeout.
Arguments Ret {A} a.
Arguments Throw {A} e.
Arguments Timeout {A}.

Definition bind {A B : Type} (m : result A) (f : A → result B) : result B :=
  match m with
  | Ret a => f a
  | Throw e => Throw e
  | Timeout => Timeout
  end.

Notation "'let*' x ':=' m 'in' k" := (bind m (fun x => k))
  (at level 10, x pattern, m at level 100, k at level 200).

(** ** Sample data for the instances at the end *)

(** Keys [1..n], each with twice the key as its value. *)
Definition doubled (n : nat) : list (nat * nat) :=
  (λ k, (k, 2 * k)) <$> seq 1 n.

(** Three elements, used with a hash function under which all keys
    collide. *)
Definition three : list (nat * nat) := [(1, 10); (2, 20); (3, 30)].
Definition hash_collide (k : nat) : nat := 7.
Definition hash_id (k : nat) : nat := k.

(** The number of values of a 16-bit [std::size_t]. *)
Definition range16 : nat := 2 ^ 16.

(** The number of values of a 17-bit one, with which the load tests of a
    table of capacity 256 do not wrap around. *)
Definition range17 : nat := 2 ^ 17.

(** ** The class *)

Section HashMapModel.

Context {K V : Type} `{EqDecision K}.

(** The hash object given to the constructor, and the values of
    [KeyType()] and [ValueType()]. *)
Variable hash_ : K → nat.
Variable KeyType0 : K.
Variable ValueType0 : V.

(** Number of values of [std::size_t]. *)
Variable size_range : nat.

#[local] Instance ElementType_inhabited : Inhabited (K * V) :=
  populate (KeyType0, ValueType0).

Definition DEFAULT_SIZE : nat := 64.
Definition MAX_LOAD_FACTOR : nat := 80.
Definition MAX_LOAD_FACTOR_ON_REBUILD : nat := 50.
Definition SIZE_INCREASING_ON_REBUILD : nat := 4.

Record HashMap : Type := mkHashMap {
  size_ : nat;
  element_count_ : nat;
  data_ : list (K * V);
  psl_ : list nat;
  free_places_ : list bool;
  index_in_element_positions_ : list nat;
  element_positions_ : list nat
}.

Definition size (s : HashMap) : nat := element_count_ s.
Definition empty (s : HashMap) : bool := element_count_ s =? 0.

Definition Init (size : nat) : HashMap :=
  {| size_ := size;
     element_count_ := 0;
     data_ := replicate size (KeyType0, ValueType0);
     psl_ := replicate size 0;
     free_places_ := replicate size true;
     index_in_element_positions_ := replicate size 0;
     element_positions_ := [] |}.

(** [++i; if (i == size_) i = 0;] *)
Definition next (s : HashMap) (i : nat) : nat :=
  if decide (S i = size_ s) then 0 else S i.

Fixpoint GetKeyIndex_loop (fuel : nat) (key : K) (s : HashMap) (i : nat)
  : result nat :=
  match fuel with
  | 0 => Timeout
  | S fuel' =>
      if (free_places_ s !!! i : bool) then Ret i
      else if decide ((data_ s !!! i).1 = key) then Ret i
      else GetKeyIndex_loop fuel' key s (next s i)
  end.

(** The loop reads the table without changing it, so it either leaves
    within [size_] iterations or never ([GetKeyIndex_Timeout]). *)
Definition GetKeyIndex (key : K) (s : HashMap) : result nat :=
  GetKeyIndex_loop (size_ s) key s (hash_ key mod size_ s).

Definition InsertByIndex (i : nat) (key : K) (value : V) (psl : nat)
  (s : HashMap) : HashMap :=
  if (free_places_ s !!! i : bool) then
    {| size_ := size_ s;
       element_count_ := S (element_count_ s);
       data_ := <[i := (key, value)]> (data_ s);
       psl_ := <[i := psl]> (psl_ s);
       free_places_ := <[i := false]> (free_places_ s);
       index_in_element_positions_ :=
         <[i := length (element_positions_ s)]> (index_in_element_positions_ s);
       element_positions_ := element_positions_ s ++ [i] |}
  else
    {| size_ := size_ s;
       element_count_ := element_count_ s;
       data_ := <[i := ((data_ s !!! i).1, value)]> (data_ s);
       psl_ := psl_ s;
       free_places_ := free_places_ s;
       index_in_element_positions_ := index_in_element_positions_ s;
       element_positions_ := element_positions_ s |}.

Definition IsCoolLoad (size load_factor : nat) (s : HashMap) : bool :=
  (element_count_ s * 100) mod size_range <? (load_factor * size) mod size_range.

(** [std::swap(data_[i], to_insert); std::swap(psl_[i], current_psl);] on
    the table side. *)
Definition swap_slot (i : nat) (to_insert : K * V) (current_psl : nat)
  (s : HashMap) : HashMap :=
  {| size_ := size_ s;
     element_count_ := element_count_ s;
     data_ := <[i := to_insert]> (data_ s);
     psl_ := <[i := current_psl]> (psl_ s);
     free_places_ := free_places_ s;
     index_in_element_positions_ := index_in_element_positions_ s;
     element_positions_ := element_positions_ s |}.

(** Local variables of [RobinHoodGetKeyIndex]; [answer_i = -1] is [None]. *)
Record probe : Type := mkProbe {
  to_insert : K * V;
  current_psl : nat;
  answer_i : option nat;
  probe_i : nat
}.

(** One iteration of the [while] loop of [RobinHoodGetKeyIndex]. *)
Definition RobinHood_body (s : HashMap) (p : probe) : HashMap * probe :=
  let i := probe_i p in
  let '(s1, to_insert1, current_psl1, answer_i1) :=
    if psl_ s !!! i <? current_psl p then
      (swap_slot i (to_insert p) (current_psl p) s,
       data_ s !!! i, psl_ s !!! i,
       match answer_i p with None => Some i | Some a => Some a end)
    else (s, to_insert p, current_psl p, answer_i p) in
  (s1, {| to_insert := to_insert1;
          current_psl := S current_psl1;
          answer_i := answer_i1;
          probe_i := next s i |}).

Fixpoint RobinHood_loop (fuel : nat) (s : HashMap) (p : probe)
  : result (HashMap * probe) :=
  match fuel with
  | 0 => Timeout
  | S fuel' =>
      if (free_places_ s !!! probe_i p : bool) then Ret (s, p)
      else let '(s1, p1) := RobinHood_body s p in RobinHood_loop fuel' s1 p1
  end.

(** The loop leaves [free_places_] alone, so [size_] iterations decide
    whether it ever reaches a free slot ([RobinHoodGetKeyIndex_Timeout]). *)
Definition RobinHoodGetKeyIndex (key : K) (value : V) (s : HashMap)
  : result (nat * HashMap) :=
  let* (s1, p) := RobinHood_loop (size_ s) s
      {| to_insert := (key, value); current_psl := 1; answer_i := None;
         probe_i := hash_ key mod size_ s |} in
  let i := probe_i p in
  let answer := match answer_i p with None => i | Some a => a end in
  Ret (answer, InsertByIndex i (to_insert p).1 (to_insert p).2 (current_psl p) s1).

(** [do { new_size *= 4; } while (!IsCoolLoad(new_size, 50));] *)
Fixpoint Rebuild_size (fuel : nat) (new_size : nat) (s : HashMap) : result nat :=
  match fuel with
  | 0 => Timeout
  | S fuel' =>
      let new_size := (new_size * SIZE_INCREASING_ON_REBUILD) mod size_range in
      if IsCoolLoad new_size MAX_LOAD_FACTOR_ON_REBUILD s then Ret new_size
      else Rebuild_size fuel' new_size s
  end.

(** [while (!elements.empty()) { e = front; pop; InsertElement(e) }], the
    tail of both [Rebuild] and [FixPosition]. *)
Fixpoint drain (InsertElement : K → V → HashMap → result (nat * HashMap))
  (elements : list (K * V)) (s : HashMap) : result HashMap :=
  match elements with
  | [] => Ret s
  | e :: elements' =>
      let* (_, s1) := InsertElement e.1 e.2 s in
      drain InsertElement elements' s1
  end.

(** The values of [new_size] repeat after at most [size_range] steps. *)
Definition Rebuild_with (InsertElement : K → V → HashMap → result (nat * HashMap))
  (s : HashMap) : result HashMap :=
  let* new_size := Rebuild_size size_range (size_ s) s in
  let elements := (λ i, data_ s !!! i) <$> element_positions_ s in
  drain InsertElement elements (Init new_size).

(** [InsertElement] and [Rebuild] call each other; [depth] bounds the
    nesting of these calls ([InsertElement_depth]: on a well-formed table a
    larger bound than [call_depth] changes nothing). *)
Fixpoint InsertElement (depth : nat) (key : K) (value : V) (s : HashMap)
  : result (nat * HashMap) :=
  match depth with
  | 0 => Timeout
  | S depth' =>
      let* s1 :=
        (if IsCoolLoad (size_ s) MAX_LOAD_FACTOR s then Ret s
         else Rebuild_with (InsertElement depth') s) in
      RobinHoodGetKeyIndex key value s1
  end.

Definition Rebuild (depth : nat) (s : HashMap) : result HashMap :=
  Rebuild_with (InsertElement depth) s.

(** [std::swap(l[a], l[b])] *)
Definition swap_at (l : list nat) (a b : nat) : list nat :=
  <[b := l !!! a]> (<[a := l !!! b]> l).

Definition SwapInElementPositions (i j : nat) (s : HashMap) : HashMap :=
  {| size_ := size_ s;
     element_count_ := element_count_ s;
     data_ := data_ s;
     psl_ := psl_ s;
     free_places_ := free_places_ s;
     index_in_element_positions_ :=
       swap_at (index_in_element_positions_ s)
         (element_positions_ s !!! i) (element_positions_ s !!! j);
     element_positions_ := swap_at (element_positions_ s) i j |}.

(** The statements of [DeleteElementByPosition] before [if (need_fix)];
    [back] and [element_count_] are positive when [position] is occupied. *)
Definition unlink (position : nat) (s : HashMap) : HashMap :=
  let i := index_in_element_positions_ s !!! position in
  let back := length (element_positions_ s) - 1 in
  let s1 :=
    SwapInElementPositions i back
      {| size_ := size_ s;
         element_count_ := element_count_ s;
         data_ := data_ s;
         psl_ := psl_ s;
         free_places_ := <[position := true]> (free_places_ s);
         index_in_element_positions_ := index_in_element_positions_ s;
         element_positions_ := element_positions_ s |} in
  {| size_ := size_ s1;
     element_count_ := element_count_ s1 - 1;
     data_ := data_ s1;
     psl_ := psl_ s1;
     free_places_ := free_places_ s1;
     index_in_element_positions_ := index_in_element_positions_ s1;
     element_positions_ := take back (element_positions_ s1) |}.

(** First loop of [FixPosition]; a moved-from [data_[i]] keeps its value. *)
Fixpoint FixPosition_evict (fuel : nat) (i : nat) (elements : list (K * V))
  (s : HashMap) : result (list (K * V) * HashMap) :=
  match fuel with
  | 0 => Timeout
  | S fuel' =>
      if (free_places_ s !!! i : bool) then Ret (elements, s)
      else FixPosition_evict fuel' (next s i) (elements ++ [data_ s !!! i])
             (unlink i s)
  end.

(** Every iteration of the first loop frees a slot, so [size_] bounds it. *)
Definition FixPosition (depth : nat) (position : nat) (s : HashMap)
  : result HashMap :=
  let* (elements, s1) := FixPosition_evict (size_ s) (next s position) [] s in
  drain (InsertElement depth) elements s1.

Definition DeleteElementByPosition (depth : nat) (position : nat)
  (need_fix : bool) (s : HashMap) : result HashMap :=
  let s1 := unlink position s in
  if need_fix then FixPosition depth position s1 else Ret s1.

Definition DeleteElementByIndex (depth : nat) (i : nat) (s : HashMap)
  : result HashMap :=
  DeleteElementByPosition depth (element_positions_ s !!! i) true s.

(** *** Public member functions *)

(** Nesting of [InsertElement] and [Rebuild] granted to a public call. *)
Definition call_depth : nat := 2.

Definition HashMap_new : HashMap := Init DEFAULT_SIZE.

(** Both the iterator-range and the initializer-list constructor. *)
Fixpoint HashMap_fill (elements : list (K * V)) (s : HashMap) : result HashMap :=
  match elements with
  | [] => Ret s
  | e :: elements' =>
      let* (_, s1) := InsertElement call_depth e.1 e.2 s in
      HashMap_fill elements' s1
  end.

Definition HashMap_of_list (elements : list (K * V)) : result HashMap :=
  HashMap_fill elements (Init DEFAULT_SIZE).

Definition insert (element : K * V) (s : HashMap) : result HashMap :=
  let* i := GetKeyIndex element.1 s in
  if (free_places_ s !!! i : bool) then
    let* (_, s1) := InsertElement call_depth element.1 element.2 s in Ret s1
  else Ret s.

Definition erase (key : K) (s : HashMap) : result HashMap :=
  let* i := GetKeyIndex key s in
  if (free_places_ s !!! i : bool) then Ret s
  else DeleteElementByPosition call_depth i true s.

(** A [MapIterator] is its [index_]. *)
Definition begin_ (s : HashMap) : nat := 0.
Definition end_ (s : HashMap) : nat := length (element_positions_ s).
Definition deref (s : HashMap) (it : nat) : K * V :=
  data_ s !!! (element_positions_ s !!! it).

Definition find (key : K) (s : HashMap) : result nat :=
  let* i := GetKeyIndex key s in
  if (free_places_ s !!! i : bool) then Ret (end_ s)
  else Ret (index_in_element_positions_ s !!! i).

(** [operator[]]: the slot whose [second] is referred to, and the table. *)
Definition index (key : K) (s : HashMap) : result (nat * HashMap) :=
  let* i := GetKeyIndex key s in
  if (free_places_ s !!! i : bool) then InsertElement call_depth key ValueType0 s
  else Ret (i, s).

(** Assignment through the reference returned by [operator[]] or through
    [it->second]. *)
Definition assign (i : nat) (value : V) (s : HashMap) : HashMap :=
  {| size_ := size_ s;
     element_count_ := element_count_ s;
     data_ := <[i := ((data_ s !!! i).1, value)]> (data_ s);
     psl_ := psl_ s;
     free_places_ := free_places_ s;
     index_in_element_positions_ := index_in_element_positions_ s;
     element_positions_ := element_positions_ s |}.

Definition at_ (key : K) (s : HashMap) : result V :=
  let* i := GetKeyIndex key s in
  if (free_places_ s !!! i : bool) then Throw out_of_range
  else Ret (data_ s !!! i).2.

Fixpoint clear_loop (fuel : nat) (s : HashMap) : result HashMap :=
  match fuel with
  | 0 => Timeout
  | S fuel' =>
      match element_positions_ s with
      | [] => Ret s
      | _ :: _ =>
          let* s1 := DeleteElementByIndex call_depth 0 s in
          clear_loop fuel' s1
      end
  end.

(** Every iteration removes one element. *)
Definition clear (s : HashMap) : result HashMap :=
  clear_loop (S (length (element_positions_ s))) s.

(** [for (it = begin(); it != end(); ++it) yield *it] *)
Fixpoint iterate_from (fuel : nat) (it : nat) (s : HashMap) : list (K * V) :=
  match fuel with
  | 0 => []
  | S fuel' =>
      if decide (it = end_ s) then []
      else deref s it :: iterate_from fuel' (S it) s
  end.

Definition iterate (s : HashMap) : list (K * V) :=
  iterate_from (S (end_ s)) (begin_ s) s.

(** ** Specification vocabulary *)

Definition occupied (s : HashMap) (p : nat) : Prop :=
  free_places_ s !!! p = false.

Definition keyAt (s : HashMap) (p : nat) : K := (data_ s !!! p).1.

(** The slot [d] steps after the home slot of hash value [h]. *)
Definition slot (s : HashMap) (h d : nat) : nat := (h + d) mod size_ s.

(** Element [e] is held by an occupied slot. *)
Definition stored (s : HashMap) (e : K * V) : Prop :=
  ∃ p, p < size_ s ∧ occupied s p ∧ data_ s !!! p = e.

Definition has_key (s : HashMap) (k : K) : Prop :=
  ∃ p, p < size_ s ∧ occupied s p ∧ keyAt s p = k.

Definition has_free (s : HashMap) : Prop :=
  ∃ p, p < size_ s ∧ free_places_ s !!! p = true.

(** The four vectors indexed by slots have [size_] elements. *)
Definition lens_ok (s : HashMap) : Prop :=
  length (data_ s) = size_ s ∧ length (psl_ s) = size_ s ∧
  length (free_places_ s) = size_ s ∧
  length (index_in_element_positions_ s) = size_ s.

(** [element_positions_] lists the occupied slots, and
    [index_in_element_positions_] is its inverse on them. *)
Definition idx_ok (s : HashMap) : Prop :=
  element_count_ s = length (element_positions_ s) ∧
  (∀ j p, element_positions_ s !! j = Some p →
     p < size_ s ∧ occupied s p ∧ index_in_element_positions_ s !!! p = j) ∧
  (∀ p, p < size_ s → occupied s p →
     element_positions_ s !! (index_in_element_positions_ s !!! p) = Some p).

(** No free slot lies between the home slot of the key held by [p] and [p]. *)
Definition chain_at (s : HashMap) (p : nat) : Prop :=
  ∃ d, p = slot s (hash_ (keyAt s p)) d ∧
       ∀ m, m < d → occupied s (slot s (hash_ (keyAt s p)) m).

Definition chain_ok (s : HashMap) : Prop :=
  ∀ p, p < size_ s → occupied s p → chain_at s p.

(** No key is held by two slots. *)
Definition uniq (s : HashMap) : Prop :=
  ∀ p q, p < size_ s → q < size_ s → occupied s p → occupied s q →
         keyAt s p = keyAt s q → p = q.

Definition sound (s : HashMap) : Prop :=
  lens_ok s ∧ idx_ok s ∧ chain_ok s.

(** The load test of [InsertElement] was passed before the last element
    was placed. *)
Definition load_ok (s : HashMap) : Prop :=
  DEFAULT_SIZE ≤ size_ s ∧
  element_count_ s * 100 < MAX_LOAD_FACTOR * size_ s + 100.

(** Representation invariant kept by every public operation. *)
Definition wf0 (s : HashMap) : Prop := sound s ∧ load_ok s.

(** Invariant of the tables in which every key is stored once. *)
Definition wf (s : HashMap) : Prop := wf0 s ∧ uniq s.

(** A table of capacity [size] can be operated on without wrap-around: the
    products of the load tests stay below [size_range], also when the next
    operation rebuilds the table. *)
Definition fits_capacity (size : nat) : Prop :=
  MAX_LOAD_FACTOR * (SIZE_INCREASING_ON_REBUILD * size) < size_range.

Definition fits (s : HashMap) : Prop := fits_capacity (size_ s).

(** [find] does not return the end iterator. *)
Definition found (s : HashMap) (key : K) : Prop :=
  ∃ it, find key s = Ret it ∧ it ≠ end_ s.

Definition no_throw {A : Type} (r : result A) : Prop := ∀ x, r ≠ Throw x.

(** Tables under construction by the range constructors (and, with no
    element placed, the table of the default constructor). *)
Inductive constructing : HashMap → Prop :=
| constructing_Init : constructing (Init DEFAULT_SIZE)
| constructing_InsertElement s e i s' :
    constructing s → fits s →
    InsertElement call_depth e.1 e.2 s = Ret (i, s') →
    constructing s'.

(** Tables a client can obtain: a constructor followed by calls of the
    public member functions and assignments through references, each call
    made on a table that [fits]. *)
Inductive reachable : HashMap → Prop :=
| reachable_ctor s : constructing s → reachable s
| reachable_insert s e s' :
    reachable s → fits s → insert e s = Ret s' → reachable s'
| reachable_erase s k s' :
    reachable s → fits s → erase k s = Ret s' → reachable s'
| reachable_index s k i s' :
    reachable s → fits s → index k s = Ret (i, s') → reachable s'
| reachable_assign s i v :
    reachable s → i < size_ s → occupied s i → reachable (assign i v s)
| reachable_clear s s' :
    reachable s → fits s → clear s = Ret s' → reachable s'.

(** Tables obtained from the default constructor by member functions;
    these store every key once ([built_wf]). *)
Inductive built : HashMap → Prop :=
| built_new : built HashMap_new
| built_insert s e s' :
    built s → fits s → insert e s = Ret s' → built s'
| built_erase s k s' :
    built s → fits s → erase k s = Ret s' → built s'
| built_index s k i s' :
    built s → fits s → index k s = Ret (i, s') → built s'
| built_assign s i v :
    built s → i < size_ s → occupied s i → built (assign i v s)
| built_clear s s' :
    built s → fits s → clear s = Ret s' → built s'.

(** The elements in iteration order. *)
Definition entries (s : HashMap) : list (K * V) :=
  (λ i, data_ s !!! i) <$> element_positions_ s.

(** Capacity with which [InsertElement] places an element into a table of
    capacity [size] holding [count] elements. *)
Definition grown (size count : nat) : nat :=
  if count * 100 <? MAX_LOAD_FACTOR * size then size
  else SIZE_INCREASING_ON_REBUILD * size.

(** Capacity after [n] further elements were placed. *)
Fixpoint capacity_after (n size count : nat) : nat :=
  match n with
  | 0 => size
  | S n' => capacity_after n' (grown size count) (S count)
  end.

(** [insert] called on each element in turn. *)
Fixpoint insert_all (elements : list (K * V)) (s : HashMap) : result HashMap :=
  match elements with
  | [] => Ret s
  | e :: elements' => let* s1 := insert e s in insert_all elements' s1
  end.

(** Invariant of the probing loop started on table [s0] with element [e0]:
    the table keeps its shape, every resident and the carried element have
    unbroken chains, and the residents together with the carried element
    are the elements of [s0] together with [e0]. *)
Definition RH_inv (s0 : HashMap) (e0 : K * V) (s : HashMap) (p : probe) : Prop :=
  size_ s = size_ s0 ∧ element_count_ s = element_count_ s0 ∧
  free_places_ s = free_places_ s0 ∧
  index_in_element_positions_ s = index_in_element_positions_ s0 ∧
  element_positions_ s = element_positions_ s0 ∧
  length (data_ s) = size_ s ∧ length (psl_ s) = size_ s ∧
  chain_ok s ∧
  (∃ d, probe_i p = slot s (hash_ (to_insert p).1) d ∧
        ∀ m, m < d → occupied s (slot s (hash_ (to_insert p).1) m)) ∧
  (∀ e, stored s e ∨ to_insert p = e ↔ stored s0 e ∨ e0 = e) ∧
  (uniq s0 → ¬ has_key s0 e0.1 → uniq s ∧ ¬ has_key s (to_insert p).1).

(** [psl_] holds, for every resident, one more than the number of steps
    from the home slot of its key to its slot. *)
Definition psl_ok (s : HashMap) : Prop :=
  ∀ p, p < size_ s → occupied s p →
    ∃ d, d < size_ s ∧ psl_ s !!! p = S d ∧ p = slot s (hash_ (keyAt s p)) d.

(** The Robin Hood order: from an occupied slot to the next slot, if that
    is occupied too, the entry of [psl_] grows by at most one. *)
Definition rh_ok (s : HashMap) : Prop :=
  ∀ p, p < size_ s → occupied s p → occupied s (next s p) →
       psl_ s !!! next s p ≤ S (psl_ s !!! p).

Definition probe_ok (s : HashMap) : Prop := psl_ok s ∧ rh_ok s.

(** What the probing loop knows besides [RH_inv] after [n] iterations: if
    [psl_] was right at the start it is right, [current_psl] counts the
    steps of the carried element and is at most one more than the entry of
    the slot before; [answer_i] is unset while the new element is carried
    and is the slot holding it afterwards; the sequence of elements is kept
    up to order. *)
Definition RX_inv (s0 : HashMap) (e0 : K * V) (n : nat) (s : HashMap) (p : probe)
  : Prop :=
  (probe_ok s0 →
   probe_ok s ∧
   (∃ dc, current_psl p = S dc ∧
          probe_i p = slot s (hash_ (to_insert p).1) dc ∧
          ∀ m, m < dc → occupied s (slot s (hash_ (to_insert p).1) m)) ∧
   ∀ q, q < size_ s → occupied s q → next s q = probe_i p →
        current_psl p ≤ S (psl_ s !!! q)) ∧
  match answer_i p with
  | None => to_insert p = e0
  | Some a => (∃ m, m < n ∧ a = slot s0 (hash_ e0.1) m) ∧ occupied s0 a ∧
              data_ s !!! a = e0
  end ∧
  to_insert p :: entries s ≡ₚ e0 :: entries s0.

(** [it->second = value] through the iterator [it]. *)
Definition set_second (it : nat) (value : V) (s : HashMap) : HashMap :=
  assign (element_positions_ s !!! it) value s.

(** Capacities of the form [DEFAULT_SIZE * 4 ^ k]. *)
Definition capacity_shape (size : nat) : Prop :=
  ∃ k, size = DEFAULT_SIZE * SIZE_INCREASING_ON_REBUILD ^ k.

(** The table obtained from a fresh one by [insert] of each element. *)
Definition table_of (elements : list (K * V)) : HashMap :=
  match insert_all elements HashMap_new with
  | Ret s => s
  | _ => HashMap_new
  end.

(** ** Walking the slots *)

Lemma next_mod s i : i < size_ s → next s i = (i + 1) mod size_ s.
Proof.
  intros Hi. unfold next. case_decide as Hd.
  - rewrite <- Hd, Nat.add_1_r. symmetry. apply Nat.Div0.mod_same.
  - rewrite Nat.mod_small; lia.
Qed.

Lemma slot_lt s h d : 0 < size_ s → slot s h d < size_ s.
Proof. intros. apply Nat.mod_upper_bound. lia. Qed.

Lemma slot_next s h d : 0 < size_ s → next s (slot s h d) = slot s h (S d).
Proof.
  intros Hs. rewrite next_mod by (by apply slot_lt). unfold slot.
  rewrite Nat.Div0.add_mod_idemp_l. f_equal. lia.
Qed.

Lemma slot_shift s h d n : slot s (slot s h d) n = slot s h (d + n).
Proof.
  unfold slot. rewrite Nat.Div0.add_mod_idemp_l. f_equal. lia.
Qed.

Lemma slot_0 s p : p < size_ s → slot s p 0 = p.
Proof. intros. unfold slot. rewrite Nat.add_0_r. by apply Nat.mod_small. Qed.

Lemma slot_S s h d : slot s (S h) d = slot s h (S d).
Proof. unfold slot. f_equal. lia. Qed.

Lemma slot_inj s h a b :
  a < size_ s → b < size_ s → slot s h a = slot s h b → a = b.
Proof.
  unfold slot. intros Ha Hb Heq.
  assert (Hw: ∀ x y, x ≤ y → y < size_ s →
            (h + x) mod size_ s = (h + y) mod size_ s → x = y).
  { intros x y Hxy Hy E.
    assert (E2: (h + y) mod size_ s = ((h + x) mod size_ s + (y - x)) mod size_ s).
    { rewrite Nat.Div0.add_mod_idemp_l. f_equal. lia. }
    rewrite <- E in E2.
    destruct (decide (x = y)) as [|Hne]; [done|].
    exfalso.
    pose proof (Nat.mod_upper_bound (h + x) (size_ s) ltac:(lia)) as Hub.
    set (r := (h + x) mod size_ s) in *.
    destruct (decide (r + (y - x) < size_ s)).
    - rewrite (Nat.mod_small (r + (y - x))) in E2 by done. lia.
    - assert (E3: (r + (y - x)) mod size_ s = r + (y - x) - size_ s).
      { symmetry. apply (Nat.mod_unique _ _ 1); lia. }
      lia. }
  destruct (decide (a ≤ b)).
  - by apply Hw.
  - symmetry. apply Hw; [lia|done|done].
Qed.

(** Every slot lies on the walk from any home slot. *)
Lemma slot_reach s h p : p < size_ s → ∃ d, d < size_ s ∧ slot s h d = p.
Proof.
  intros Hp. exists ((p + size_ s - h mod size_ s) mod size_ s).
  split; [apply Nat.mod_upper_bound; lia|].
  unfold slot. rewrite Nat.Div0.add_mod_idemp_r.
  rewrite <- Nat.Div0.add_mod_idemp_l.
  pose proof (Nat.mod_upper_bound h (size_ s) ltac:(lia)).
  replace (h mod size_ s + (p + size_ s - h mod size_ s)) with (p + 1 * size_ s) by lia.
  rewrite Nat.Div0.mod_add. by apply Nat.mod_small.
Qed.

(** The first index at which a boolean test succeeds. *)
Lemma least_true_below (P : nat → bool) n :
  (∀ m, m < n → P m = false) ∨
  (∃ d, d < n ∧ P d = true ∧ ∀ m, m < d → P m = false).
Proof.
  induction n as [|n [IH|(d & Hd & HP & Hmin)]].
  - left. lia.
  - destruct (P n) eqn:E.
    + right. exists n. split; [lia|done].
    + left. intros m Hm. destruct (decide (m = n)) as [->|]; [done|].
      apply IH. lia.
  - right. exists d. split; [lia|done].
Qed.

Lemma least_true (P : nat → bool) n :
  P n = true → ∃ d, d ≤ n ∧ P d = true ∧ ∀ m, m < d → P m = false.
Proof.
  intros Hn. destruct (least_true_below P (S n)) as [Hno|(d & Hd & HP & Hmin)].
  - rewrite Hno in Hn by lia. done.
  - exists d. split; [lia|done].
Qed.

Lemma first_free s h :
  0 < size_ s → has_free s →
  ∃ d, d < size_ s ∧ free_places_ s !!! slot s h d = true ∧
       ∀ m, m < d → occupied s (slot s h m).
Proof.
  intros Hs (p & Hp & Hfree).
  destruct (slot_reach s h p Hp) as (d0 & Hd0 & Hslot).
  destruct (least_true (λ m, free_places_ s !!! slot s h m) d0) as (d & Hd & HP & Hmin).
  { simpl. by rewrite Hslot. }
  exists d. split; [lia|]. split; [done|]. intros m Hm. by apply Hmin.
Qed.

(** ** Lookup: [GetKeyIndex] *)

Lemma GetKeyIndex_loop_run key s :
  0 < size_ s →
  ∀ d fuel h,
    (∀ m, m < d → occupied s (slot s h m) ∧ keyAt s (slot s h m) ≠ key) →
    (free_places_ s !!! slot s h d = true ∨ keyAt s (slot s h d) = key) →
    d < fuel →
    GetKeyIndex_loop fuel key s (slot s h 0) = Ret (slot s h d).
Proof.
  intros Hs. induction d as [|d IH]; intros fuel h Hbefore Hstop Hfuel.
  - destruct fuel as [|fuel]; [lia|]. simpl.
    destruct (free_places_ s !!! slot s h 0) eqn:Hf; [done|].
    destruct Hstop as [Hstop|Hstop]; [congruence|].
    unfold keyAt in Hstop. by rewrite decide_True.
  - destruct fuel as [|fuel]; [lia|]. simpl.
    destruct (Hbefore 0 ltac:(lia)) as [Hocc Hkey].
    unfold occupied in Hocc. rewrite Hocc.
    unfold keyAt in Hkey. rewrite decide_False by done.
    rewrite slot_next by done. rewrite <- (slot_S s h 0).
    rewrite <- (slot_S s h d). apply IH; [|by rewrite slot_S|lia].
    intros m Hm. rewrite slot_S. apply Hbefore. lia.
Qed.

Lemma GetKeyIndex_spec key s :
  0 < size_ s → has_free s →
  ∃ d, d < size_ s ∧
       GetKeyIndex key s = Ret (slot s (hash_ key) d) ∧
       (free_places_ s !!! slot s (hash_ key) d = true ∨
        (occupied s (slot s (hash_ key) d) ∧ keyAt s (slot s (hash_ key) d) = key)) ∧
       ∀ m, m < d → occupied s (slot s (hash_ key) m) ∧
                    keyAt s (slot s (hash_ key) m) ≠ key.
Proof.
  intros Hs Hfree.
  destruct (first_free s (hash_ key) Hs Hfree) as (d0 & Hd0 & Hf0 & _).
  destruct (least_true
              (λ m, (free_places_ s !!! slot s (hash_ key) m : bool) ||
                    bool_decide (keyAt s (slot s (hash_ key) m) = key)) d0)
    as (d & Hd & HP & Hmin).
  { simpl. by rewrite Hf0. }
  simpl in HP.
  assert (Hbefore: ∀ m, m < d → occupied s (slot s (hash_ key) m) ∧
                                 keyAt s (slot s (hash_ key) m) ≠ key).
  { intros m Hm. specialize (Hmin m Hm). simpl in Hmin.
    apply orb_false_iff in Hmin as [Hf Hk].
    split; [done|]. by apply bool_decide_eq_false in Hk. }
  exists d. split; [lia|]. split.
  - unfold GetKeyIndex.
    replace (hash_ key mod size_ s) with (slot s (hash_ key) 0)
      by (unfold slot; by rewrite Nat.add_0_r).
    apply GetKeyIndex_loop_run; [done|done| |lia].
    apply orb_true_iff in HP as [Hf|Hk]; [by left|].
    right. by apply bool_decide_eq_true in Hk.
  - split; [|done].
    destruct (free_places_ s !!! slot s (hash_ key) d) eqn:Hf; [by left|].
    right. split; [done|]. simpl in HP. by apply bool_decide_eq_true in HP.
Qed.

(** An absent key is answered with a free slot. *)
Lemma GetKeyIndex_absent key s :
  0 < size_ s → has_free s → ¬ has_key s key →
  ∃ p, GetKeyIndex key s = Ret p ∧ p < size_ s ∧ free_places_ s !!! p = true.
Proof.
  intros Hs Hfree Habs.
  destruct (GetKeyIndex_spec key s Hs Hfree) as (d & Hd & Hres & Hstop & _).
  exists (slot s (hash_ key) d). split; [done|]. split; [by apply slot_lt|].
  destruct Hstop as [|[Hocc Hkey]]; [done|].
  exfalso. apply Habs. exists (slot s (hash_ key) d). by split; [apply slot_lt|].
Qed.

(** A key held by a slot with an unbroken chain is answered with an
    occupied slot holding it. *)
Lemma GetKeyIndex_present key s q :
  0 < size_ s → has_free s →
  q < size_ s → occupied s q → keyAt s q = key → chain_at s q →
  ∃ p, GetKeyIndex key s = Ret p ∧ p < size_ s ∧ occupied s p ∧ keyAt s p = key.
Proof.
  intros Hs Hfree Hq Hocc Hkey (dq & Hdq & Hchain). rewrite Hkey in *.
  destruct (GetKeyIndex_spec key s Hs Hfree) as (d & Hd & Hres & Hstop & Hbefore).
  exists (slot s (hash_ key) d). split; [done|]. split; [by apply slot_lt|].
  destruct Hstop as [Hf|]; [|done]. exfalso.
  destruct (decide (d < dq)) as [Hlt|Hge].
  - specialize (Hchain d Hlt). unfold occupied in Hchain. congruence.
  - destruct (decide (d = dq)) as [->|Hne].
    + rewrite <- Hdq in Hf. unfold occupied in Hocc. congruence.
    + destruct (Hbefore dq ltac:(lia)) as [_ Hk]. by rewrite <- Hdq in Hk.
Qed.

Lemma GetKeyIndex_found key s q :
  0 < size_ s → has_free s → chain_ok s → uniq s →
  q < size_ s → occupied s q → keyAt s q = key →
  GetKeyIndex key s = Ret q.
Proof.
  intros Hs Hfree Hchain Huniq Hq Hocc Hkey.
  destruct (GetKeyIndex_present key s q) as (p & Hres & Hp & Hpocc & Hpkey);
    [done..|by apply Hchain|].
  rewrite Hres. f_equal. apply Huniq; [done..|congruence].
Qed.

(** Whatever the table holds, a returned slot is in range and either free
    or holds the key. *)
Lemma GetKeyIndex_loop_sound key s fuel i p :
  0 < size_ s → i < size_ s →
  GetKeyIndex_loop fuel key s i = Ret p →
  p < size_ s ∧ (free_places_ s !!! p = true ∨ (occupied s p ∧ keyAt s p = key)).
Proof.
  intros Hs. revert i. induction fuel as [|fuel IH]; intros i Hi; simpl; [done|].
  destruct (free_places_ s !!! i) eqn:Hf.
  - intros [= <-]. auto.
  - case_decide as Hk.
    + intros [= <-]. split; [done|]. right. done.
    + apply IH. rewrite next_mod by done. apply Nat.mod_upper_bound. lia.
Qed.

Lemma GetKeyIndex_sound key s p :
  0 < size_ s → GetKeyIndex key s = Ret p →
  p < size_ s ∧ (free_places_ s !!! p = true ∨ (occupied s p ∧ keyAt s p = key)).
Proof.
  intros Hs. apply GetKeyIndex_loop_sound; [done|].
  apply Nat.mod_upper_bound. lia.
Qed.

(** The fuel of [GetKeyIndex] is exact: a loop that has not left after
    [size_] iterations has seen every slot occupied by another key, and never
    leaves. *)
Lemma GetKeyIndex_loop_Timeout_run key s :
  0 < size_ s →
  ∀ fuel h, GetKeyIndex_loop fuel key s (slot s h 0) = Timeout →
    ∀ m, m < fuel → occupied s (slot s h m) ∧ keyAt s (slot s h m) ≠ key.
Proof.
  intros Hs. induction fuel as [|fuel IH]; intros h Hto m Hm; [lia|].
  simpl in Hto. destruct (free_places_ s !!! slot s h 0) eqn:Hf; [done|].
  case_decide as Hk; [done|].
  rewrite slot_next, <- slot_S in Hto by done.
  destruct m as [|m]; [done|]. rewrite <- slot_S. apply IH; [done|lia].
Qed.

Lemma GetKeyIndex_loop_full key s :
  (∀ p, p < size_ s → occupied s p ∧ keyAt s p ≠ key) →
  ∀ fuel i, i < size_ s → GetKeyIndex_loop fuel key s i = Timeout.
Proof.
  intros Hfull. induction fuel as [|fuel IH]; intros i Hi; [done|]. simpl.
  destruct (Hfull i Hi) as [Hocc Hk]. unfold occupied in Hocc. rewrite Hocc.
  unfold keyAt in Hk. rewrite decide_False by done.
  apply IH. rewrite next_mod by done. apply Nat.mod_upper_bound. lia.
Qed.

Lemma GetKeyIndex_Timeout key s :
  0 < size_ s → GetKeyIndex key s = Timeout →
  ∀ fuel, GetKeyIndex_loop fuel key s (hash_ key mod size_ s) = Timeout.
Proof.
  intros Hs Hto fuel. unfold GetKeyIndex in Hto.
  replace (hash_ key mod size_ s) with (slot s (hash_ key) 0) in *
    by (unfold slot; by rewrite Nat.add_0_r).
  apply GetKeyIndex_loop_full; [|by apply slot_lt].
  intros p Hp. destruct (slot_reach s (hash_ key) p Hp) as (d & Hd & <-).
  by apply (GetKeyIndex_loop_Timeout_run key s Hs (size_ s)).
Qed.

(** ** Consequences of the index invariant *)

Lemma idx_inj s i j p :
  idx_ok s → element_positions_ s !! i = Some p →
  element_positions_ s !! j = Some p → i = j.
Proof.
  intros (_ & H2 & _) Hi Hj.
  destruct (H2 _ _ Hi) as (_ & _ & <-). by destruct (H2 _ _ Hj) as (_ & _ & <-).
Qed.

Lemma idx_NoDup s : idx_ok s → NoDup (element_positions_ s).
Proof. intros Hidx. apply NoDup_alt. intros i j p. by apply idx_inj. Qed.

Lemma idx_elem s p :
  idx_ok s → p ∈ element_positions_ s ↔ p < size_ s ∧ occupied s p.
Proof.
  intros (_ & H2 & H3). split.
  - intros [j Hj]%list_elem_of_lookup. destruct (H2 _ _ Hj) as (? & ? & _). done.
  - intros [Hp Hocc]. apply list_elem_of_lookup. eauto.
Qed.

(** Fewer elements than slots: some slot is free. *)
Lemma has_free_count s :
  idx_ok s → element_count_ s < size_ s → has_free s.
Proof.
  intros Hidx Hlt.
  destruct (least_true_below (λ p, free_places_ s !!! p) (size_ s))
    as [Hall|(p & Hp & Hf & _)]; [|by exists p].
  exfalso.
  assert (Hsub: seq 0 (size_ s) ⊆+ element_positions_ s).
  { apply NoDup_submseteq; [apply NoDup_seq|].
    intros p [_ Hp]%elem_of_seq. apply idx_elem; [done|].
    split; [lia|]. apply Hall. lia. }
  apply submseteq_length in Hsub. rewrite length_seq in Hsub.
  destruct Hidx as (Hc & _). lia.
Qed.

Lemma load_ok_room s : load_ok s → element_count_ s < size_ s.
Proof. unfold load_ok, DEFAULT_SIZE, MAX_LOAD_FACTOR. lia. Qed.

Lemma wf0_pos s : wf0 s → 0 < size_ s.
Proof. intros (_ & Hl & _). unfold DEFAULT_SIZE in Hl. lia. Qed.

Lemma wf0_has_free s : wf0 s → has_free s.
Proof.
  intros ((_ & Hidx & _) & Hload). apply has_free_count; [done|].
  by apply load_ok_room.
Qed.

(** ** Placement: [RobinHoodGetKeyIndex] *)

Lemma chain_at_ext s s' q :
  size_ s' = size_ s → free_places_ s' = free_places_ s →
  keyAt s' q = keyAt s q → chain_at s q → chain_at s' q.
Proof.
  intros Hsz Hfr Hk (d & Hd & Hc). exists d.
  unfold slot, occupied in *. rewrite Hsz, Hfr, Hk. done.
Qed.

Lemma RobinHood_body_inv s0 e0 s p :
  0 < size_ s → probe_i p < size_ s → occupied s (probe_i p) →
  RH_inv s0 e0 s p →
  RH_inv s0 e0 (RobinHood_body s p).1 (RobinHood_body s p).2 ∧
  probe_i (RobinHood_body s p).2 = next s (probe_i p).
Proof.
  intros Hs Hi Hocc (Hsz & Hcnt & Hfr & Hix & Hpos & Hld & Hlp & Hch & Hcar & Hsto & Huq).
  destruct Hcar as (dc & Hdc & Hcc).
  unfold RobinHood_body.
  destruct (psl_ s !!! probe_i p <? current_psl p); simpl; (split; [|done]).
  - (* the resident is displaced *)
    set (i := probe_i p) in *.
    assert (Hk: ∀ q, keyAt (swap_slot i (to_insert p) (current_psl p) s) q =
                     if decide (q = i) then (to_insert p).1 else keyAt s q).
    { intros q. unfold keyAt. simpl. case_decide as Hq.
      - subst q. rewrite list_lookup_total_insert_eq by lia. done.
      - rewrite list_lookup_total_insert_ne by done. done. }
    assert (Hd: ∀ q, data_ (swap_slot i (to_insert p) (current_psl p) s) !!! q =
                     if decide (q = i) then to_insert p else data_ s !!! q).
    { intros q. simpl. case_decide as Hq.
      - subst q. rewrite list_lookup_total_insert_eq by lia. done.
      - rewrite list_lookup_total_insert_ne by done. done. }
    repeat split; simpl; try done.
    + by rewrite length_insert.
    + by rewrite length_insert.
    + intros q Hq Hqocc. destruct (decide (q = i)) as [->|Hne].
      * exists dc. unfold slot, occupied, keyAt in *. simpl.
        rewrite list_lookup_total_insert_eq by lia. done.
      * eapply (chain_at_ext s); [done|done| |by apply Hch].
        rewrite Hk. by rewrite decide_False.
    + destruct (Hch i Hi Hocc) as (d & Hd1 & Hd2).
      exists (S d). fold (keyAt s i). split.
      * change (slot (swap_slot i (to_insert p) (current_psl p) s)) with (slot s).
        rewrite <- slot_next by done. by rewrite <- Hd1.
      * intros m Hm.
        change (occupied s (slot s (hash_ (keyAt s i)) m)).
        destruct (decide (m = d)) as [->|]; [by rewrite <- Hd1|].
        apply Hd2. lia.
    + intros [(q & Hq & Hqocc & Hqe)|Hcar].
      * rewrite Hd in Hqe. case_decide.
        -- apply Hsto. by right.
        -- apply Hsto. left. by exists q.
      * apply Hsto. left. by exists i.
    + intros He. apply Hsto in He as [(q & Hq & Hqocc & Hqe)|Hcar].
      * destruct (decide (q = i)) as [->|Hne]; [by right|].
        left. exists q. split; [done|]. split; [done|].
        rewrite Hd. by rewrite decide_False.
      * left. exists i. split; [done|]. split; [done|].
        rewrite Hd. by rewrite decide_True.
    + rename select (uniq s0) into Hu0. rename select (¬ has_key s0 _) into Hn0.
      destruct (Huq Hu0 Hn0) as [Hu Hnk].
      intros a b Ha Hb Haocc Hbocc. rewrite !Hk.
      repeat case_decide; subst; try done.
      * intros Heq. exfalso. apply Hnk. exists b. by split.
      * intros Heq. exfalso. apply Hnk. exists a. by split.
      * by apply Hu.
    + rename select (uniq s0) into Hu0. rename select (¬ has_key s0 _) into Hn0.
      destruct (Huq Hu0 Hn0) as [Hu Hnk].
      intros (q & Hq & Hqocc & Hqk). rewrite Hk in Hqk.
      fold (keyAt s i) in Hqk. case_decide as Hqi.
      * subst q. apply Hnk. exists i. by split.
      * apply Hqi. by apply Hu.
  - (* the resident stays *)
    repeat split; simpl; try done.
    + exists (S dc). split.
      * rewrite <- slot_next by done. by rewrite <- Hdc.
      * intros m Hm. destruct (decide (m = dc)) as [->|]; [by rewrite <- Hdc|].
        apply Hcc. lia.
    + apply Hsto.
    + apply Hsto.
    + by apply Huq.
    + by apply Huq.
Qed.

Lemma slot_size s s' h d : size_ s' = size_ s → slot s' h d = slot s h d.
Proof. unfold slot. by intros ->. Qed.

Lemma occupied_free s s' q :
  free_places_ s' = free_places_ s → occupied s' q ↔ occupied s q.
Proof. unfold occupied. by intros ->. Qed.

Lemma RobinHood_loop_run s0 e0 :
  ∀ d fuel s p,
    0 < size_ s → RH_inv s0 e0 s p → probe_i p < size_ s →
    (∀ m, m < d → occupied s (slot s (probe_i p) m)) →
    free_places_ s !!! slot s (probe_i p) d = true →
    d < fuel →
    ∃ s' p', RobinHood_loop fuel s p = Ret (s', p') ∧ RH_inv s0 e0 s' p' ∧
             probe_i p' = slot s (probe_i p) d.
Proof.
  induction d as [|d IH]; intros fuel s p Hs Hinv Hi Hrun Hfree Hfuel;
    (destruct fuel as [|fuel]; [lia|]); simpl.
  - rewrite slot_0 in Hfree by done. rewrite Hfree.
    exists s, p. by rewrite slot_0.
  - pose proof (Hrun 0 ltac:(lia)) as Hocc. rewrite slot_0 in Hocc by done.
    unfold occupied in Hocc. rewrite Hocc.
    destruct (RobinHood_body_inv s0 e0 s p Hs Hi Hocc Hinv) as [Hinv1 Hnext].
    destruct (RobinHood_body s p) as [s1 p1]. simpl in Hinv1, Hnext.
    assert (Hsz: size_ s1 = size_ s).
    { destruct Hinv as (-> & _). by destruct Hinv1 as (-> & _). }
    assert (Hfr: free_places_ s1 = free_places_ s).
    { destruct Hinv as (_ & _ & -> & _). by destruct Hinv1 as (_ & _ & -> & _). }
    assert (Hnx: probe_i p1 = slot s (probe_i p) 1).
    { rewrite Hnext. rewrite <- (slot_0 s (probe_i p)) at 1 by done.
      by rewrite slot_next. }
    destruct (IH fuel s1 p1) as (s' & p' & Hres & Hinv' & Hp');
      [lia|done| | | |lia|].
    + rewrite Hsz, Hnx. by apply slot_lt.
    + intros m Hm. apply (occupied_free s); [done|].
      rewrite (slot_size s s1), Hnx, slot_shift by done. apply Hrun. lia.
    + rewrite Hfr, (slot_size s s1), Hnx, slot_shift by done. done.
    + exists s', p'. split; [done|]. split; [done|].
      rewrite Hp', (slot_size s s1), Hnx, slot_shift by done. done.
Qed.

(** The fuel of [RobinHoodGetKeyIndex] is exact as well: the loop leaves
    [free_places_] alone. *)
Lemma RobinHood_body_frame s p :
  size_ (RobinHood_body s p).1 = size_ s ∧
  free_places_ (RobinHood_body s p).1 = free_places_ s ∧
  probe_i (RobinHood_body s p).2 = next s (probe_i p).
Proof. unfold RobinHood_body. by destruct (_ <? _). Qed.

Lemma RobinHood_loop_Timeout_run :
  ∀ fuel s p,
    0 < size_ s → probe_i p < size_ s →
    RobinHood_loop fuel s p = Timeout →
    ∀ m, m < fuel → occupied s (slot s (probe_i p) m).
Proof.
  induction fuel as [|fuel IH]; intros s p Hs Hi Hto m Hm; [lia|].
  simpl in Hto. destruct (free_places_ s !!! probe_i p) eqn:Hf; [done|].
  destruct (RobinHood_body_frame s p) as (Hsz & Hfr & Hnx).
  destruct (RobinHood_body s p) as [s1 p1]. simpl in *.
  destruct m as [|m]; [by rewrite slot_0|].
  assert (Hp1: probe_i p1 = slot s (probe_i p) 1).
  { rewrite Hnx. rewrite <- (slot_0 s (probe_i p)) at 1 by done.
    by rewrite slot_next. }
  specialize (IH s1 p1 ltac:(lia)
                ltac:(rewrite Hsz, Hp1; by apply slot_lt) Hto m ltac:(lia)).
  apply (occupied_free s s1) in IH; [|done].
  by rewrite (slot_size s s1), Hp1, slot_shift in IH.
Qed.

Lemma RobinHood_loop_full :
  ∀ fuel s p,
    (∀ q, q < size_ s → occupied s q) → probe_i p < size_ s →
    RobinHood_loop fuel s p = Timeout.
Proof.
  induction fuel as [|fuel IH]; intros s p Hfull Hi; [done|]. simpl.
  pose proof (Hfull _ Hi) as Hocc. unfold occupied in Hocc. rewrite Hocc.
  destruct (RobinHood_body_frame s p) as (Hsz & Hfr & Hnx).
  destruct (RobinHood_body s p) as [s1 p1]. simpl in *. apply IH.
  - intros q Hq. apply (occupied_free s s1); [done|]. apply Hfull. lia.
  - rewrite Hnx, Hsz, next_mod by done. apply Nat.mod_upper_bound. lia.
Qed.

Lemma RobinHoodGetKeyIndex_Timeout s p :
  0 < size_ s → probe_i p < size_ s →
  RobinHood_loop (size_ s) s p = Timeout →
  ∀ fuel, RobinHood_loop fuel s p = Timeout.
Proof.
  intros Hs Hi Hto fuel. apply RobinHood_loop_full; [|done].
  intros q Hq. destruct (slot_reach s (probe_i p) q Hq) as (d & Hd & <-).
  by apply (RobinHood_loop_Timeout_run (size_ s)).
Qed.

Lemma chain_at_mono s s' q :
  size_ s' = size_ s → keyAt s' q = keyAt s q →
  (∀ x, occupied s x → occupied s' x) →
  chain_at s q → chain_at s' q.
Proof.
  intros Hsz Hk Hmono (d & Hd & Hc). exists d. rewrite Hk.
  split; [by rewrite (slot_size s s')|].
  intros m Hm. rewrite (slot_size s s') by done. apply Hmono. by apply Hc.
Qed.

(** [InsertByIndex] on a free slot. *)
Lemma InsertByIndex_free s i k v ps :
  lens_ok s → idx_ok s → i < size_ s → free_places_ s !!! i = true →
  let s' := InsertByIndex i k v ps s in
  lens_ok s' ∧ idx_ok s' ∧ size_ s' = size_ s ∧
  element_count_ s' = S (element_count_ s) ∧
  element_positions_ s' = element_positions_ s ++ [i] ∧
  (∀ q, occupied s' q ↔ (occupied s q ∧ q ≠ i) ∨ q = i) ∧
  (∀ q, data_ s' !!! q = if decide (q = i) then (k, v) else data_ s !!! q).
Proof.
  intros (Hld & Hlp & Hlf & Hli) (Hc & H2 & H3) Hi Hfree.
  unfold InsertByIndex. rewrite Hfree. simpl.
  assert (Hocc: ∀ q, occupied
     {| size_ := size_ s; element_count_ := S (element_count_ s);
        data_ := <[i:=(k, v)]> (data_ s); psl_ := <[i:=ps]> (psl_ s);
        free_places_ := <[i:=false]> (free_places_ s);
        index_in_element_positions_ :=
          <[i:=length (element_positions_ s)]> (index_in_element_positions_ s);
        element_positions_ := element_positions_ s ++ [i] |} q
     ↔ (occupied s q ∧ q ≠ i) ∨ q = i).
  { intros q. unfold occupied. simpl. destruct (decide (q = i)) as [->|Hne].
    - rewrite list_lookup_total_insert_eq by lia. tauto.
    - rewrite list_lookup_total_insert_ne by done. tauto. }
  split; [|split; [|split; [done|split; [done|split; [done|split; [done|]]]]]].
  - unfold lens_ok. simpl. rewrite !length_insert. done.
  - split; [|split]; simpl.
    + rewrite length_app. simpl. lia.
    + intros j p Hj. apply lookup_snoc_Some in Hj as [[Hjl Hj]|[Hjl <-]].
      * destruct (H2 _ _ Hj) as (Hp & Hpocc & Hpj).
        assert (p ≠ i) by (intros ->; unfold occupied in Hpocc; congruence).
        split; [done|]. split; [apply Hocc; tauto|].
        by rewrite list_lookup_total_insert_ne.
      * split; [done|]. split; [apply Hocc; tauto|].
        rewrite list_lookup_total_insert_eq by lia. done.
    + intros p Hp [[Hpocc Hne]| ->]%Hocc.
      * rewrite list_lookup_total_insert_ne by done.
        apply lookup_app_l_Some. by apply H3.
      * rewrite list_lookup_total_insert_eq by lia.
        by rewrite list_lookup_middle.
  - intros q. case_decide as Hq.
    + subst. rewrite list_lookup_total_insert_eq by lia. done.
    + by rewrite list_lookup_total_insert_ne.
Qed.

(** What one placement does to a table with a free slot. *)
Lemma RobinHoodGetKeyIndex_spec key value s :
  0 < size_ s → sound s → has_free s →
  ∃ a s', RobinHoodGetKeyIndex key value s = Ret (a, s') ∧
    sound s' ∧ size_ s' = size_ s ∧
    element_count_ s' = S (element_count_ s) ∧
    (∀ e, stored s' e ↔ stored s e ∨ (key, value) = e) ∧
    (uniq s → ¬ has_key s key → uniq s').
Proof.
  intros Hs (Hlens & Hidx & Hchain) Hfree.
  set (p0 := {| to_insert := (key, value); current_psl := 1; answer_i := None;
                probe_i := hash_ key mod size_ s |}).
  assert (Hi0: probe_i p0 < size_ s) by (apply Nat.mod_upper_bound; lia).
  assert (Hinv0: RH_inv s (key, value) s p0).
  { destruct Hlens as (? & ? & _).
    repeat split; try done.
    exists 0. split; [|lia]. simpl. unfold slot. by rewrite Nat.add_0_r. }
  destruct (first_free s (probe_i p0) Hs Hfree) as (d & Hd & Hfd & Hrun).
  destruct (RobinHood_loop_run s (key, value) d (size_ s) s p0)
    as (s1 & p1 & Hres & Hinv1 & Hp1); [done..|].
  unfold RobinHoodGetKeyIndex. fold p0. rewrite Hres. simpl.
  destruct Hinv1 as (Hsz & Hcnt & Hfr & Hix & Hpos & Hld & Hlp & Hch & Hcar & Hsto & Huq).
  set (i := probe_i p1) in *.
  assert (Hi: i < size_ s1) by (rewrite Hp1, Hsz; by apply slot_lt).
  assert (Hfi: free_places_ s1 !!! i = true) by (by rewrite Hfr, Hp1).
  assert (Hlens1: lens_ok s1).
  { destruct Hlens as (_ & _ & ? & ?). unfold lens_ok.
    rewrite Hld, Hlp, Hfr, Hix, Hsz. done. }
  assert (Hidx1: idx_ok s1).
  { destruct Hidx as (Hc & H2 & H3). unfold idx_ok, occupied.
    rewrite Hcnt, Hpos, Hsz, Hfr, Hix. done. }
  destruct (InsertByIndex_free s1 i (to_insert p1).1 (to_insert p1).2
              (current_psl p1) Hlens1 Hidx1 Hi Hfi)
    as (Hlens2 & Hidx2 & Hsz2 & Hcnt2 & Hpos2 & Hocc2 & Hdat2).
  set (s2 := InsertByIndex i (to_insert p1).1 (to_insert p1).2 (current_psl p1) s1) in *.
  assert (Hpair: ((to_insert p1).1, (to_insert p1).2) = to_insert p1)
    by (by destruct (to_insert p1)).
  rewrite Hpair in Hdat2.
  assert (Hk2: ∀ q, keyAt s2 q = if decide (q = i) then (to_insert p1).1 else keyAt s1 q).
  { intros q. unfold keyAt. rewrite Hdat2. by case_decide. }
  assert (Hmono: ∀ x, occupied s1 x → occupied s2 x).
  { intros x Hx. apply Hocc2. destruct (decide (x = i)); tauto. }
  eexists _, s2. split; [done|].
  split; [split; [done|split; [done|]]|split; [congruence|split; [congruence|split]]].
  - (* chains *)
    intros q Hq [[Hqocc Hne]| ->]%Hocc2.
    + apply (chain_at_mono s1); [done| |done|apply Hch; [congruence|done]].
      rewrite Hk2. by rewrite decide_False.
    + destruct Hcar as (dc & Hdc & Hcc). exists dc.
      rewrite Hk2, decide_True by done. rewrite (slot_size s1 s2) by done.
      split; [done|]. intros m Hm. rewrite (slot_size s1 s2) by done.
      apply Hmono. by apply Hcc.
  - (* elements *)
    intros e. rewrite <- Hsto. split.
    + intros (q & Hq & Hqocc & Hqe). rewrite Hdat2 in Hqe.
      apply Hocc2 in Hqocc as [[Hqocc Hne]| ->].
      * rewrite decide_False in Hqe by done. left. exists q.
        split; [congruence|done].
      * rewrite decide_True in Hqe by done. by right.
    + intros [(q & Hq & Hqocc & Hqe)|Hcarry].
      * assert (q ≠ i) by (intros ->; unfold occupied in Hqocc; congruence).
        exists q. split; [congruence|]. split; [apply Hocc2; tauto|].
        rewrite Hdat2. by rewrite decide_False.
      * exists i. split; [congruence|]. split; [apply Hocc2; tauto|].
        rewrite Hdat2. by rewrite decide_True.
  - (* keys stay apart *)
    intros Hu Hnk. destruct (Huq Hu Hnk) as [Hu1 Hnk1].
    intros a b Ha Hb Haocc Hbocc. rewrite !Hk2.
    apply Hocc2 in Haocc as [[Haocc Hane]| ->];
      apply Hocc2 in Hbocc as [[Hbocc Hbne]| ->];
      repeat case_decide; try done.
    + apply Hu1; congruence.
    + intros Heq. exfalso. apply Hnk1. exists a. split; [congruence|done].
    + intros Heq. exfalso. apply Hnk1. exists b. split; [congruence|done].
Qed.

(** ** Load test and resize *)

(** Without wrap-around the load test compares the two products. *)
Lemma IsCoolLoad_exact n lf s :
  element_count_ s * 100 < size_range → lf * n < size_range →
  IsCoolLoad n lf s = (element_count_ s * 100 <? lf * n).
Proof.
  intros H1 H2. unfold IsCoolLoad. by rewrite !Nat.mod_small.
Qed.

Lemma has_key_stored s k : has_key s k ↔ ∃ v, stored s (k, v).
Proof.
  unfold has_key, stored, keyAt. split.
  - intros (p & Hp & Hocc & Hk). exists (data_ s !!! p).2, p.
    split; [done|]. split; [done|]. rewrite <- Hk. by destruct (data_ s !!! p).
  - intros (v & p & Hp & Hocc & Hd). exists p. by rewrite Hd.
Qed.

Lemma Init_sound n : sound (Init n).
Proof.
  split; [|split].
  - unfold lens_ok. simpl. by rewrite !length_replicate.
  - split; [done|]. split.
    + intros j p Hj. simpl in Hj. by rewrite lookup_nil in Hj.
    + intros p Hp Hocc. unfold occupied in Hocc. simpl in *.
      by rewrite lookup_total_replicate_2 in Hocc.
  - intros p Hp Hocc. unfold occupied in Hocc. simpl in *.
    by rewrite lookup_total_replicate_2 in Hocc.
Qed.

Lemma Init_stored n e : ¬ stored (Init n) e.
Proof.
  intros (p & Hp & Hocc & _). unfold occupied in Hocc. simpl in *.
  by rewrite lookup_total_replicate_2 in Hocc.
Qed.

Lemma Init_uniq n : uniq (Init n).
Proof.
  intros p q Hp _ Hocc. unfold occupied in Hocc. simpl in *.
  by rewrite lookup_total_replicate_2 in Hocc.
Qed.

Lemma InsertElement_S d key value s :
  InsertElement (S d) key value s =
  let* s1 := (if IsCoolLoad (size_ s) MAX_LOAD_FACTOR s then Ret s
              else Rebuild d s) in
  RobinHoodGetKeyIndex key value s1.
Proof. done. Qed.

Lemma InsertElement_cool d key value s :
  IsCoolLoad (size_ s) MAX_LOAD_FACTOR s = true →
  InsertElement (S d) key value s = RobinHoodGetKeyIndex key value s.
Proof. intros Hc. simpl. by rewrite Hc. Qed.

(** Re-inserting a queue of elements into a table with enough room. *)
Lemma drain_spec d :
  ∀ l s,
    0 < size_ s → sound s →
    MAX_LOAD_FACTOR * size_ s < size_range →
    (element_count_ s + length l) * 100 < MAX_LOAD_FACTOR * size_ s + 100 →
    ∃ s', drain (InsertElement (S d)) l s = Ret s' ∧
      sound s' ∧ size_ s' = size_ s ∧
      element_count_ s' = element_count_ s + length l ∧
      (∀ e, stored s' e ↔ stored s e ∨ e ∈ l) ∧
      (uniq s → NoDup l.*1 → (∀ e, e ∈ l → ¬ has_key s e.1) → uniq s').
Proof.
  induction l as [|e l IH]; intros s Hs Hsound Hfit Hroom.
  - exists s. simpl. split; [done|]. split; [done|]. split; [done|].
    split; [lia|]. split; [|done].
    intros e. split; [by left|]. intros [|Hin]; [done|]. by apply elem_of_nil in Hin.
  - cbn [drain length] in *.
    assert (Hlt: element_count_ s * 100 < MAX_LOAD_FACTOR * size_ s) by lia.
    rewrite InsertElement_cool.
    2:{ rewrite IsCoolLoad_exact by lia. by apply Nat.ltb_lt. }
    destruct (RobinHoodGetKeyIndex_spec e.1 e.2 s Hs Hsound)
      as (a & s1 & Hres & Hsound1 & Hsz1 & Hcnt1 & Hsto1 & Huq1).
    { apply has_free_count; [apply Hsound|]. unfold MAX_LOAD_FACTOR in Hlt. lia. }
    rewrite Hres. cbn [bind].
    replace (e.1, e.2) with e in Hsto1 by (by destruct e).
    destruct (IH s1) as (s' & Hres' & Hsound' & Hsz' & Hcnt' & Hsto' & Huq');
      [lia|done|by rewrite Hsz1|rewrite Hsz1, Hcnt1; lia|].
    exists s'. split; [done|]. split; [done|]. split; [congruence|].
    split; [lia|]. split.
    + intros x. rewrite Hsto', Hsto1, elem_of_cons. intuition congruence.
    + intros Hu Hnd Habs. rewrite fmap_cons in Hnd.
      apply NoDup_cons in Hnd as [Hnin Hnd].
      apply Huq'; [|done|].
      * apply Huq1; [done|]. apply Habs. by left.
      * intros x Hx [v Hv]%has_key_stored.
        apply Hsto1 in Hv as [Hv|Hv].
        -- apply (Habs x); [by right|]. apply has_key_stored. eauto.
        -- apply Hnin. rewrite Hv. simpl.
           apply list_elem_of_fmap. by exists x.
Qed.

Lemma entries_stored s e : idx_ok s → e ∈ entries s ↔ stored s e.
Proof.
  intros Hidx. unfold entries. rewrite list_elem_of_fmap. split.
  - intros (p & -> & Hp). apply idx_elem in Hp as [? ?]; [|done]. by exists p.
  - intros (p & Hp & Hocc & <-). exists p. split; [done|]. by apply idx_elem.
Qed.

Lemma entries_keys_NoDup s : idx_ok s → uniq s → NoDup (entries s).*1.
Proof.
  intros Hidx Hu. unfold entries. rewrite <- list_fmap_compose.
  apply NoDup_fmap_2_strong; [|by apply idx_NoDup].
  intros p q Hp Hq Heq. simpl in Heq.
  apply idx_elem in Hp as [? ?]; [|done]. apply idx_elem in Hq as [? ?]; [|done].
  by apply Hu.
Qed.

Lemma Rebuild_size_once s :
  wf0 s → fits s →
  Rebuild_size size_range (size_ s) s = Ret (SIZE_INCREASING_ON_REBUILD * size_ s).
Proof.
  intros (_ & Hmin & Hload) Hfit.
  unfold fits, fits_capacity, load_ok, DEFAULT_SIZE, MAX_LOAD_FACTOR in *.
  destruct size_range as [|r] eqn:Hr; [lia|]. rewrite <- Hr in Hfit.
  cbn [Rebuild_size]. unfold SIZE_INCREASING_ON_REBUILD in *.
  rewrite (Nat.mod_small (size_ s * 4)) by lia.
  rewrite IsCoolLoad_exact; unfold MAX_LOAD_FACTOR_ON_REBUILD; [|lia..].
  replace (element_count_ s * 100 <? 50 * (size_ s * 4)) with true.
  - f_equal. lia.
  - symmetry. apply Nat.ltb_lt. lia.
Qed.

(** [Rebuild] moves every element to a table four times as large. *)
Lemma Rebuild_spec d s :
  wf0 s → fits s →
  ∃ s', Rebuild (S d) s = Ret s' ∧ sound s' ∧
    size_ s' = SIZE_INCREASING_ON_REBUILD * size_ s ∧
    element_count_ s' = element_count_ s ∧
    (∀ e, stored s' e ↔ stored s e) ∧
    (uniq s → uniq s').
Proof.
  intros Hwf Hfit. pose proof Hwf as ((Hlens & Hidx & Hchain) & Hmin & Hload).
  unfold Rebuild, Rebuild_with. rewrite Rebuild_size_once by done. simpl.
  fold (entries s).
  assert (Hlen: length (entries s) = element_count_ s).
  { unfold entries. rewrite length_fmap. by destruct Hidx as (-> & _). }
  unfold fits, fits_capacity, DEFAULT_SIZE, MAX_LOAD_FACTOR, SIZE_INCREASING_ON_REBUILD in *.
  destruct (drain_spec d (entries s) (Init (4 * size_ s)))
    as (s' & Hres & Hsound' & Hsz' & Hcnt' & Hsto' & Huq').
  { simpl. lia. }
  { apply Init_sound. }
  { simpl. unfold MAX_LOAD_FACTOR. lia. }
  { simpl. unfold MAX_LOAD_FACTOR. lia. }
  exists s'. split; [done|]. split; [done|]. split; [done|].
  split; [simpl in Hcnt'; lia|]. split.
  - intros e. rewrite Hsto', entries_stored by done.
    split; [|by right]. intros [Hs|]; [|done]. by apply Init_stored in Hs.
  - intros Hu. apply Huq'; [apply Init_uniq|by apply entries_keys_NoDup|].
    intros e _ [v Hv]%has_key_stored. by apply Init_stored in Hv.
Qed.

(** [InsertElement] places one more element, after a resize if the load
    test fails. *)
Lemma InsertElement_spec key value s :
  wf0 s → fits s →
  ∃ a s', InsertElement call_depth key value s = Ret (a, s') ∧ wf0 s' ∧
    size_ s' = (if IsCoolLoad (size_ s) MAX_LOAD_FACTOR s then size_ s
                else SIZE_INCREASING_ON_REBUILD * size_ s) ∧
    element_count_ s' = S (element_count_ s) ∧
    (∀ e, stored s' e ↔ stored s e ∨ (key, value) = e) ∧
    (uniq s → ¬ has_key s key → uniq s').
Proof.
  intros Hwf Hfit. pose proof Hwf as (Hsound & Hmin & Hload).
  pose proof (load_ok_room s (conj Hmin Hload)) as Hroom.
  unfold call_depth. rewrite InsertElement_S.
  assert (Hexact: IsCoolLoad (size_ s) MAX_LOAD_FACTOR s =
                  (element_count_ s * 100 <? MAX_LOAD_FACTOR * size_ s)).
  { apply IsCoolLoad_exact;
      unfold fits, fits_capacity, MAX_LOAD_FACTOR, SIZE_INCREASING_ON_REBUILD in *; lia. }
  destruct (IsCoolLoad (size_ s) MAX_LOAD_FACTOR s) eqn:Hcool.
  - symmetry in Hexact. apply Nat.ltb_lt in Hexact. cbn [bind].
    destruct (RobinHoodGetKeyIndex_spec key value s)
      as (a & s' & Hres & Hsound' & Hsz' & Hcnt' & Hsto' & Huq');
      [by apply wf0_pos|done|by apply wf0_has_free|].
    exists a, s'. split; [done|]. split; [|done].
    split; [done|]. unfold load_ok in *. rewrite Hsz', Hcnt'. lia.
  - symmetry in Hexact. apply Nat.ltb_ge in Hexact.
    destruct (Rebuild_spec 0 s Hwf Hfit)
      as (s1 & Hres1 & Hsound1 & Hsz1 & Hcnt1 & Hsto1 & Huq1).
    rewrite Hres1. cbn [bind].
    unfold load_ok, DEFAULT_SIZE, MAX_LOAD_FACTOR, SIZE_INCREASING_ON_REBUILD in *.
    destruct (RobinHoodGetKeyIndex_spec key value s1)
      as (a & s' & Hres & Hsound' & Hsz' & Hcnt' & Hsto' & Huq');
      [lia|done|apply has_free_count; [apply Hsound1|lia]|].
    exists a, s'. split; [done|].
    split; [split; [done|]; unfold load_ok, DEFAULT_SIZE, MAX_LOAD_FACTOR; lia|].
    split; [lia|]. split; [lia|]. split.
    + intros e. by rewrite Hsto', Hsto1.
    + intros Hu Hnk. apply Huq'; [by apply Huq1|].
      intros [v Hv]%has_key_stored. apply Hnk, has_key_stored.
      exists v. by apply Hsto1.
Qed.

(** The nesting granted by [call_depth] is enough: while the load test
    passes, [InsertElement] is [RobinHoodGetKeyIndex] at every depth, and the
    elements re-inserted by [Rebuild] all pass it. *)
Lemma drain_cool d :
  ∀ l s,
    0 < size_ s → sound s →
    MAX_LOAD_FACTOR * size_ s < size_range →
    (element_count_ s + length l) * 100 < MAX_LOAD_FACTOR * size_ s + 100 →
    drain (InsertElement (S d)) l s = drain RobinHoodGetKeyIndex l s.
Proof.
  induction l as [|e l IH]; intros s Hs Hsound Hfit Hroom; [done|].
  cbn [drain length] in *.
  assert (Hlt: element_count_ s * 100 < MAX_LOAD_FACTOR * size_ s) by lia.
  rewrite InsertElement_cool.
  2:{ rewrite IsCoolLoad_exact by lia. by apply Nat.ltb_lt. }
  destruct (RobinHoodGetKeyIndex_spec e.1 e.2 s Hs Hsound)
    as (a & s1 & Hres & Hsound1 & Hsz1 & Hcnt1 & _).
  { apply has_free_count; [apply Hsound|]. unfold MAX_LOAD_FACTOR in Hlt. lia. }
  rewrite Hres. cbn [bind].
  apply IH; [lia|done|by rewrite Hsz1|rewrite Hsz1, Hcnt1; lia].
Qed.

Lemma Rebuild_depth d s :
  wf0 s → fits s → Rebuild (S d) s = Rebuild 1 s.
Proof.
  intros Hwf Hfit. pose proof Hwf as ((_ & Hidx & _) & Hmin & Hload).
  unfold Rebuild, Rebuild_with. rewrite Rebuild_size_once by done. cbn [bind].
  assert (Hlen: length ((λ i, data_ s !!! i) <$> element_positions_ s) =
                element_count_ s).
  { rewrite length_fmap. by destruct Hidx as (-> & _). }
  unfold fits, fits_capacity, DEFAULT_SIZE, MAX_LOAD_FACTOR,
    SIZE_INCREASING_ON_REBUILD in *.
  rewrite !drain_cool; [done|..]; try apply Init_sound;
    simpl; rewrite ?Hlen; unfold MAX_LOAD_FACTOR; lia.
Qed.

Lemma InsertElement_depth d key value s :
  wf0 s → fits s →
  InsertElement (S (S d)) key value s = InsertElement call_depth key value s.
Proof.
  intros Hwf Hfit. unfold call_depth. rewrite !InsertElement_S.
  destruct (IsCoolLoad _ _ s); [done|]. by rewrite Rebuild_depth.
Qed.

(** ** Removal: [unlink], [FixPosition], [DeleteElementByPosition] *)

(** [unlink] frees the slot and keeps the two index vectors consistent. *)
Lemma unlink_spec s p :
  lens_ok s → idx_ok s → p < size_ s → occupied s p →
  lens_ok (unlink p s) ∧ idx_ok (unlink p s) ∧
  size_ (unlink p s) = size_ s ∧ data_ (unlink p s) = data_ s ∧
  S (element_count_ (unlink p s)) = element_count_ s ∧
  free_places_ (unlink p s) = <[p := true]> (free_places_ s).
Proof.
  intros (Hld & Hlp & Hlf & Hli) Hidx Hp Hocc.
  pose proof Hidx as (Hc & H2 & H3).
  set (pos := element_positions_ s) in *.
  set (idx := index_in_element_positions_ s) in *.
  pose proof (H3 p Hp Hocc) as Hi.
  set (i := idx !!! p) in *.
  pose proof (lookup_lt_Some _ _ _ Hi) as Hilen.
  set (back := length pos - 1).
  destruct (lookup_lt_is_Some_2 pos back ltac:(lia)) as [last Hlast].
  destruct (H2 _ _ Hlast) as (Hlastlt & Hlastocc & Hlastidx).
  fold idx in Hlastidx.
  assert (Epi: pos !!! i = p) by (by apply list_lookup_total_correct).
  assert (Epb: pos !!! back = last) by (by apply list_lookup_total_correct).
  assert (Epos: element_positions_ (unlink p s) = take back (<[i := last]> pos)).
  { unfold unlink, SwapInElementPositions, swap_at. simpl.
    fold pos idx i back. rewrite Epb. by rewrite take_insert_ge. }
  assert (Eidx: index_in_element_positions_ (unlink p s) =
                <[last := i]> (<[p := back]> idx)).
  { unfold unlink, SwapInElementPositions, swap_at. simpl.
    fold pos idx i back. rewrite Epi, Epb. fold i. by rewrite Hlastidx. }
  assert (Efree: free_places_ (unlink p s) = <[p := true]> (free_places_ s)) by done.
  assert (Hocc': ∀ q, occupied (unlink p s) q ↔ occupied s q ∧ q ≠ p).
  { intros q. unfold occupied. rewrite Efree.
    destruct (decide (q = p)) as [->|Hne].
    - rewrite list_lookup_total_insert_eq by lia. split; [done|tauto].
    - rewrite list_lookup_total_insert_ne by done. tauto. }
  assert (Hlastp: last = p → i = back)
    by (intros ->; by apply (idx_inj s i back p)).
  split; [|split; [|split; [done|split; [done|split; [|done]]]]].
  - unfold lens_ok. rewrite Eidx, Efree. simpl. rewrite !length_insert. done.
  - split; [|split].
    + rewrite Epos. simpl. rewrite length_take_le by (rewrite length_insert; lia).
      fold pos in Hc. lia.
    + change (size_ (unlink p s)) with (size_ s).
      intros j q Hj. rewrite Epos in Hj.
      apply lookup_take_Some in Hj as [Hj Hjb].
      apply list_lookup_insert_Some in Hj as [(-> & <- & _)|(Hne & Hj)].
      * split; [done|]. split; [apply Hocc'; split; [done|]; intros E; apply Hlastp in E; lia|].
        rewrite Eidx. apply list_lookup_total_insert_eq.
        rewrite length_insert. fold idx in Hli. lia.
      * destruct (H2 _ _ Hj) as (Hq & Hqocc & Hqidx). fold idx in Hqidx.
        assert (q ≠ p).
        { intros ->. apply Hne. by apply (idx_inj s i j p). }
        assert (q ≠ last).
        { intros ->. assert (j = back) by (by apply (idx_inj s j back last)). lia. }
        split; [done|]. split; [by apply Hocc'|].
        rewrite Eidx. by rewrite !list_lookup_total_insert_ne.
    + change (size_ (unlink p s)) with (size_ s).
      intros q Hq [Hqocc Hqp]%Hocc'. rewrite Eidx, Epos.
      pose proof (H3 q Hq Hqocc) as Hqpos. fold idx in Hqpos.
      destruct (decide (q = last)) as [->|Hql].
      * rewrite list_lookup_total_insert_eq
          by (rewrite length_insert; fold idx in Hli; lia).
        assert (i ≠ back).
        { intros E. rewrite E in Hi. rewrite Hlast in Hi. congruence. }
        rewrite lookup_take_lt by lia. by apply list_lookup_insert_eq.
      * rewrite !list_lookup_total_insert_ne by done.
        pose proof (lookup_lt_Some _ _ _ Hqpos) as Hjlen.
        assert (idx !!! q ≠ back).
        { intros E. rewrite E in Hqpos. rewrite Hlast in Hqpos. congruence. }
        assert (idx !!! q ≠ i).
        { intros E. rewrite E in Hqpos. rewrite Hi in Hqpos. congruence. }
        rewrite lookup_take_lt by lia. by rewrite list_lookup_insert_ne.
  - unfold unlink. simpl. fold pos in Hc. lia.
Qed.

Lemma unlink_occupied s p q :
  lens_ok s → p < size_ s →
  occupied (unlink p s) q ↔ occupied s q ∧ q ≠ p.
Proof.
  intros (_ & _ & Hlf & _) Hp. unfold occupied.
  change (free_places_ (unlink p s)) with (<[p := true]> (free_places_ s)).
  destruct (decide (q = p)) as [->|Hne].
  - rewrite list_lookup_total_insert_eq by lia. split; [done|tauto].
  - rewrite list_lookup_total_insert_ne by done. tauto.
Qed.

Lemma FixPosition_evict_run :
  ∀ n fuel i elements s,
    0 < size_ s → lens_ok s → idx_ok s → i < size_ s → n < size_ s →
    (∀ m, m < n → occupied s (slot s i m)) →
    free_places_ s !!! slot s i n = true →
    n < fuel →
    ∃ s', FixPosition_evict fuel i elements s =
            Ret (elements ++ ((λ m, data_ s !!! slot s i m) <$> seq 0 n), s') ∧
      lens_ok s' ∧ idx_ok s' ∧ size_ s' = size_ s ∧ data_ s' = data_ s ∧
      element_count_ s' + n = element_count_ s ∧
      (∀ q, occupied s' q ↔ occupied s q ∧ ∀ m, m < n → q ≠ slot s i m).
Proof.
  induction n as [|n IH]; intros fuel i elements s Hs Hlens Hidx Hi Hn Hrun Hfree Hfuel;
    (destruct fuel as [|fuel]; [lia|]); cbn [FixPosition_evict].
  - rewrite slot_0 in Hfree by done. rewrite Hfree.
    exists s. simpl. rewrite app_nil_r. split; [done|].
    split; [done|]. split; [done|]. split; [done|]. split; [done|].
    split; [lia|]. intros q. split; [|tauto]. intros ?. split; [done|lia].
  - pose proof (Hrun 0 ltac:(lia)) as Hocc. rewrite slot_0 in Hocc by done.
    unfold occupied in Hocc. rewrite Hocc.
    destruct (unlink_spec s i Hlens Hidx Hi Hocc)
      as (Hlens1 & Hidx1 & Hsz1 & Hdat1 & Hcnt1 & Hfr1).
    assert (Hnx: next s i = slot s i 1).
    { rewrite <- (slot_0 s i) at 1 by done. by rewrite slot_next. }
    assert (Hsl: ∀ m, slot (unlink i s) (next s i) m = slot s i (S m)).
    { intros m. rewrite (slot_size s (unlink i s)), Hnx, slot_shift by done. done. }
    destruct (IH fuel (next s i) (elements ++ [data_ s !!! i]) (unlink i s))
      as (s' & Hres & Hlens' & Hidx' & Hsz' & Hdat' & Hcnt' & Hocc');
      [lia|done|done| |lia| | |lia|].
    + rewrite Hsz1, Hnx. by apply slot_lt.
    + intros m Hm. rewrite Hsl. apply unlink_occupied; [done..|].
      split; [apply Hrun; lia|].
      rewrite <- (slot_0 s i) at 2 by done. intros E.
      apply slot_inj in E; lia.
    + rewrite Hsl, Hfr1. destruct (decide (slot s i (S n) = i)) as [->|Hne].
      * apply list_lookup_total_insert_eq. destruct Hlens as (_ & _ & ? & _). lia.
      * by rewrite list_lookup_total_insert_ne.
    + exists s'. split.
      { rewrite Hres. f_equal. f_equal. rewrite <- app_assoc. f_equal.
        cbn [seq fmap list_fmap]. rewrite slot_0 by done. simpl. f_equal.
        rewrite <- fmap_S_seq, <- list_fmap_compose.
        apply list_fmap_ext. intros j m _. simpl. by rewrite Hsl. }
      split; [done|]. split; [done|]. split; [congruence|].
      split; [congruence|]. split; [lia|].
      intros q. rewrite Hocc', unlink_occupied by done. split.
      * intros [[Hq Hne] Hrest]. split; [done|].
        intros [|m] Hm; [by rewrite slot_0|]. rewrite <- Hsl. apply Hrest. lia.
      * intros [Hq Hrest]. split; [split; [done|]|].
        -- specialize (Hrest 0 ltac:(lia)). by rewrite slot_0 in Hrest.
        -- intros m Hm. rewrite Hsl. apply Hrest. lia.
Qed.

Lemma slot_add_eq s h g a b t :
  slot s h a = slot s g b → slot s h (a + t) = slot s g (b + t).
Proof. intros E. by rewrite <- !slot_shift, E. Qed.

(** Once the whole run behind a freed slot is evicted, the elements that
    stay have unbroken chains. *)
Lemma chain_after_evict s s' p0 n :
  chain_ok s → size_ s' = size_ s → data_ s' = data_ s →
  (∀ q, occupied s' q ↔ occupied s q ∧ ∀ m, m ≤ n → q ≠ slot s p0 m) →
  free_places_ s !!! slot s p0 (S n) = true →
  chain_ok s'.
Proof.
  intros Hch Hsz Hdat Hocc Hfree q Hq Hqocc.
  pose proof Hqocc as [Hqs Hqrun]%Hocc.
  destruct (Hch q ltac:(lia) Hqs) as (d & Hd & Hc).
  assert (Hk: keyAt s' q = keyAt s q) by (unfold keyAt; by rewrite Hdat).
  exists d. rewrite Hk. rewrite !(slot_size s s') by done. split; [done|].
  intros m0 Hm0. rewrite (slot_size s s') by done. apply Hocc.
  split; [by apply Hc|]. intros j Hj E. set (h := hash_ (keyAt s q)) in *.
  pose proof (slot_add_eq s h p0 m0 j) as Hshift.
  destruct (decide (m0 + (S n - j) < d)) as [Hlt|Hge].
  - specialize (Hc _ Hlt). rewrite (Hshift _ E) in Hc.
    replace (j + (S n - j)) with (S n) in Hc by lia.
    unfold occupied in Hc. congruence.
  - destruct (decide (m0 + (S n - j) = d)) as [Heq|Hne].
    + rewrite <- Heq, (Hshift _ E) in Hd.
      replace (j + (S n - j)) with (S n) in Hd by lia.
      unfold occupied in Hqs. rewrite Hd in Hqs. congruence.
    + apply (Hqrun (j + (d - m0))); [lia|].
      rewrite <- (Hshift _ E). rewrite Hd. f_equal. lia.
Qed.

Lemma slot_in_run_dec s p0 n q :
  (∃ m, m ≤ n ∧ q = slot s p0 m) ∨ (∀ m, m ≤ n → q ≠ slot s p0 m).
Proof.
  destruct (least_true_below (λ m, bool_decide (q = slot s p0 m)) (S n))
    as [Hno|(m & Hm & Ht & _)].
  - right. intros m Hm. specialize (Hno m ltac:(lia)).
    by apply bool_decide_eq_false in Hno.
  - left. exists m. split; [lia|]. by apply bool_decide_eq_true in Ht.
Qed.

Lemma fits_load s : fits s → MAX_LOAD_FACTOR * size_ s < size_range.
Proof. unfold fits, fits_capacity, MAX_LOAD_FACTOR, SIZE_INCREASING_ON_REBUILD. lia. Qed.

(** Removing the element of an occupied slot: the other elements stay, the
    chains are repaired. *)
Lemma DeleteElementByPosition_spec s p0 :
  wf0 s → fits s → p0 < size_ s → occupied s p0 →
  ∃ s', DeleteElementByPosition call_depth p0 true s = Ret s' ∧ wf0 s' ∧
    size_ s' = size_ s ∧ S (element_count_ s') = element_count_ s ∧
    (∀ e, stored s' e ↔
          ∃ q, q < size_ s ∧ q ≠ p0 ∧ occupied s q ∧ data_ s !!! q = e) ∧
    (uniq s → uniq s').
Proof.
  intros Hwf Hfit Hp0 Hocc0.
  pose proof Hwf as ((Hlens & Hidx & Hchain) & Hmin & Hload).
  pose proof (wf0_pos s Hwf) as Hs.
  apply fits_load in Hfit.
  destruct (unlink_spec s p0 Hlens Hidx Hp0 Hocc0)
    as (Hlens1 & Hidx1 & Hsz1 & Hdat1 & Hcnt1 & Hfr1).
  destruct (first_free s p0 Hs (wf0_has_free s Hwf)) as (d0 & Hd0 & Hfd0 & Hrun0).
  destruct d0 as [|n].
  { rewrite slot_0 in Hfd0 by done. unfold occupied in Hocc0. congruence. }
  assert (Hnx: next (unlink p0 s) p0 = slot s p0 1).
  { change (next (unlink p0 s) p0) with (next s p0).
    rewrite <- (slot_0 s p0) at 1 by done. by rewrite slot_next. }
  assert (Hsl: ∀ m, slot (unlink p0 s) (slot s p0 1) m = slot s p0 (S m)).
  { intros m. rewrite (slot_size s (unlink p0 s)), slot_shift by done. done. }
  assert (Hne0: ∀ m, S m < size_ s → slot s p0 (S m) ≠ p0).
  { intros m Hm E. rewrite <- (slot_0 s p0) in E at 2 by done.
    apply slot_inj in E; lia. }
  destruct (FixPosition_evict_run n (size_ (unlink p0 s)) (slot s p0 1) []
              (unlink p0 s))
    as (s2 & Hres2 & Hlens2 & Hidx2 & Hsz2 & Hdat2 & Hcnt2 & Hocc2);
    [lia|done|done|rewrite Hsz1; by apply slot_lt|lia| | |lia|].
  { intros m Hm. rewrite Hsl. apply unlink_occupied; [done..|].
    split; [apply Hrun0; lia|apply Hne0; lia]. }
  { rewrite Hsl, Hfr1. rewrite list_lookup_total_insert_ne; [done|].
    intros E. symmetry in E. apply Hne0 in E; [done|lia]. }
  set (elements := (λ m, data_ (unlink p0 s) !!! slot (unlink p0 s) (slot s p0 1) m)
                     <$> seq 0 n) in *.
  assert (Hel: ∀ e, e ∈ elements ↔ ∃ m, m < n ∧ e = data_ s !!! slot s p0 (S m)).
  { intros e. unfold elements. rewrite list_elem_of_fmap. split.
    - intros (m & -> & [_ Hm]%elem_of_seq). exists m. split; [lia|].
      by rewrite Hsl, Hdat1.
    - intros (m & Hm & ->). exists m. split; [by rewrite Hsl, Hdat1|].
      apply elem_of_seq. lia. }
  assert (Hocc2': ∀ q, occupied s2 q ↔
                       occupied s q ∧ ∀ m, m ≤ n → q ≠ slot s p0 m).
  { intros q. rewrite Hocc2, unlink_occupied by done. split.
    - intros [[Hq Hne] Hrest]. split; [done|].
      intros [|m] Hm; [by rewrite slot_0|]. rewrite <- Hsl. apply Hrest. lia.
    - intros [Hq Hrest]. split; [split; [done|]|].
      + specialize (Hrest 0 ltac:(lia)). by rewrite slot_0 in Hrest.
      + intros m Hm. rewrite Hsl. apply Hrest. lia. }
  assert (Hchain2: chain_ok s2).
  { apply (chain_after_evict s s2 p0 n); [done|congruence|congruence|done|done]. }
  assert (Hlen: length elements = n).
  { unfold elements. by rewrite length_fmap, length_seq. }
  destruct (drain_spec 1 elements s2)
    as (s3 & Hres3 & Hsound3 & Hsz3 & Hcnt3 & Hsto3 & Huq3).
  { lia. }
  { done. }
  { by rewrite Hsz2, Hsz1. }
  { rewrite Hlen, Hsz2, Hsz1. lia. }
  exists s3. split.
  { unfold DeleteElementByPosition, FixPosition. rewrite Hnx, Hres2.
    simpl. done. }
  split; [split; [done|]; unfold load_ok; rewrite Hsz3, Hsz2, Hsz1; split; [done|lia]|].
  split; [congruence|]. split; [lia|]. split.
  - intros e. rewrite Hsto3, Hel. split.
    + intros [(q & Hq & [Hqocc Hqrun]%Hocc2' & Hqe)|(m & Hm & ->)].
      * exists q. split; [lia|]. split.
        { specialize (Hqrun 0 ltac:(lia)). by rewrite slot_0 in Hqrun. }
        split; [done|congruence].
      * exists (slot s p0 (S m)). split; [by apply slot_lt|].
        split; [apply Hne0; lia|]. split; [apply Hrun0; lia|done].
    + intros (q & Hq & Hne & Hqocc & Hqe).
      destruct (slot_in_run_dec s p0 n q) as [(m & Hm & ->)|Hout].
      * right. destruct m as [|m]; [by rewrite slot_0 in Hne|].
        exists m. split; [lia|done].
      * left. exists q. split; [lia|]. split; [by apply Hocc2'|congruence].
  - intros Hu. apply Huq3.
    + intros a b Ha Hb [Haocc _]%Hocc2' [Hbocc _]%Hocc2'.
      unfold keyAt. rewrite Hdat2, Hdat1. apply Hu; [lia|lia|done|done].
    + unfold elements. rewrite <- list_fmap_compose.
      apply NoDup_fmap_2_strong; [|apply NoDup_seq].
      intros a b [_ Ha]%elem_of_seq [_ Hb]%elem_of_seq. simpl.
      rewrite !Hsl. intros E.
      assert (slot s p0 (S a) = slot s p0 (S b)) as E2.
      { apply Hu; [by apply slot_lt|by apply slot_lt|apply Hrun0; lia|apply Hrun0; lia|done]. }
      apply slot_inj in E2; lia.
    + intros e (m & Hm & ->)%Hel (q & Hq & [Hqocc Hqrun]%Hocc2' & Hqk).
      apply (Hqrun (S m)); [lia|].
      apply Hu; [lia|by apply slot_lt|done|apply Hrun0; lia|].
      unfold keyAt in *. by rewrite Hdat2, Hdat1 in Hqk.
Qed.

(** ** Public member functions on well-formed tables *)

Lemma GetKeyIndex_wf0 key s :
  wf0 s →
  ∃ p, GetKeyIndex key s = Ret p ∧ p < size_ s ∧
       ((free_places_ s !!! p = true ∧ ¬ has_key s key) ∨
        (occupied s p ∧ keyAt s p = key)).
Proof.
  intros Hwf. pose proof (wf0_pos s Hwf) as Hs.
  pose proof (wf0_has_free s Hwf) as Hfree.
  destruct (GetKeyIndex_spec key s Hs Hfree) as (d & Hd & Hres & Hstop & _).
  exists (slot s (hash_ key) d). split; [done|]. split; [by apply slot_lt|].
  destruct Hstop as [Hf|Hocc]; [left|by right]. split; [done|].
  intros (q & Hq & Hqocc & Hqk).
  destruct (GetKeyIndex_present key s q Hs Hfree Hq Hqocc Hqk)
    as (p & Hres' & _ & Hpocc & _).
  { by apply Hwf. }
  rewrite Hres in Hres'. injection Hres' as <-.
  unfold occupied in Hpocc. congruence.
Qed.

Lemma GetKeyIndex_stored key value s :
  wf s → stored s (key, value) →
  ∃ p, GetKeyIndex key s = Ret p ∧ p < size_ s ∧ occupied s p ∧
       data_ s !!! p = (key, value).
Proof.
  intros [Hwf Hu] (p & Hp & Hocc & Hd). exists p.
  split; [|done].
  apply GetKeyIndex_found;
    [by apply wf0_pos|by apply wf0_has_free|apply Hwf|done..|].
  unfold keyAt. by rewrite Hd.
Qed.

Lemma find_absent key s : wf0 s → ¬ has_key s key → find key s = Ret (end_ s).
Proof.
  intros Hwf Habs.
  destruct (GetKeyIndex_wf0 key s Hwf) as (p & Hres & Hp & [[Hf _]|[Hocc Hk]]).
  - unfold find. rewrite Hres. simpl. by rewrite Hf.
  - exfalso. apply Habs. by exists p.
Qed.

Lemma find_present key s :
  wf0 s → has_key s key →
  ∃ it, find key s = Ret it ∧ it < end_ s ∧ (deref s it).1 = key ∧
        stored s (deref s it).
Proof.
  intros Hwf Hkey.
  destruct (GetKeyIndex_wf0 key s Hwf) as (p & Hres & Hp & [[_ Habs]|[Hocc Hk]]);
    [done|].
  destruct Hwf as ((_ & (_ & _ & H3) & _) & _).
  pose proof (H3 p Hp Hocc) as Hpos.
  exists (index_in_element_positions_ s !!! p).
  unfold find, deref, end_. rewrite Hres. simpl.
  unfold occupied in Hocc. rewrite Hocc.
  split; [done|]. split; [by eapply lookup_lt_Some|].
  rewrite (list_lookup_total_correct _ _ _ Hpos). split; [done|]. by exists p.
Qed.

Lemma find_stored key value s :
  wf s → stored s (key, value) →
  ∃ it, find key s = Ret it ∧ it < end_ s ∧ deref s it = (key, value).
Proof.
  intros Hwf Hsto.
  destruct (GetKeyIndex_stored key value s Hwf Hsto) as (p & Hres & Hp & Hocc & Hd).
  destruct Hwf as [((_ & (_ & _ & H3) & _) & _) _].
  pose proof (H3 p Hp Hocc) as Hpos.
  exists (index_in_element_positions_ s !!! p).
  unfold find, deref, end_. rewrite Hres. simpl.
  unfold occupied in Hocc. rewrite Hocc.
  split; [done|]. split; [by eapply lookup_lt_Some|].
  by rewrite (list_lookup_total_correct _ _ _ Hpos).
Qed.

Lemma at_absent key s :
  wf0 s → ¬ has_key s key → at_ key s = Throw out_of_range.
Proof.
  intros Hwf Habs.
  destruct (GetKeyIndex_wf0 key s Hwf) as (p & Hres & Hp & [[Hf _]|[Hocc Hk]]).
  - unfold at_. rewrite Hres. simpl. by rewrite Hf.
  - exfalso. apply Habs. by exists p.
Qed.

Lemma at_present key s :
  wf0 s → has_key s key → ∃ v, at_ key s = Ret v ∧ stored s (key, v).
Proof.
  intros Hwf Hkey.
  destruct (GetKeyIndex_wf0 key s Hwf) as (p & Hres & Hp & [[_ Habs]|[Hocc Hk]]);
    [done|].
  exists (data_ s !!! p).2. unfold at_. rewrite Hres. simpl.
  pose proof Hocc as Hocc'. unfold occupied in Hocc'. rewrite Hocc'.
  split; [done|]. exists p. split; [done|]. split; [done|].
  unfold keyAt in Hk. rewrite <- Hk. by destruct (data_ s !!! p).
Qed.

Lemma at_stored key value s :
  wf s → stored s (key, value) → at_ key s = Ret value.
Proof.
  intros Hwf Hsto.
  destruct (GetKeyIndex_stored key value s Hwf Hsto) as (p & Hres & Hp & Hocc & Hd).
  unfold at_. rewrite Hres. simpl. unfold occupied in Hocc. by rewrite Hocc, Hd.
Qed.

Lemma grown_IsCoolLoad s :
  wf0 s → fits s →
  (if IsCoolLoad (size_ s) MAX_LOAD_FACTOR s then size_ s
   else SIZE_INCREASING_ON_REBUILD * size_ s) =
  grown (size_ s) (element_count_ s).
Proof.
  intros Hwf Hfit. unfold grown. rewrite IsCoolLoad_exact; [done| |].
  - destruct Hwf as (_ & Hmin & Hload).
    unfold fits, fits_capacity, MAX_LOAD_FACTOR, SIZE_INCREASING_ON_REBUILD in *. lia.
  - by apply fits_load.
Qed.

Lemma grown_cases size count : grown size count = size ∨ grown size count = 4 * size.
Proof. unfold grown. destruct (_ <? _); [by left|by right]. Qed.

(** [insert] of a key that is already stored changes nothing. *)
Lemma insert_present e s : wf0 s → has_key s e.1 → insert e s = Ret s.
Proof.
  intros Hwf Hkey.
  destruct (GetKeyIndex_wf0 e.1 s Hwf) as (p & Hres & Hp & [[_ Habs]|[Hocc Hk]]);
    [done|].
  unfold insert. rewrite Hres. simpl. unfold occupied in Hocc. by rewrite Hocc.
Qed.

Lemma insert_absent e s :
  wf0 s → fits s → ¬ has_key s e.1 →
  ∃ s', insert e s = Ret s' ∧ wf0 s' ∧
    size_ s' = grown (size_ s) (element_count_ s) ∧
    element_count_ s' = S (element_count_ s) ∧
    (∀ x, stored s' x ↔ stored s x ∨ e = x) ∧
    (uniq s → uniq s').
Proof.
  intros Hwf Hfit Habs.
  destruct (GetKeyIndex_wf0 e.1 s Hwf) as (p & Hres & Hp & [[Hf _]|[Hocc Hk]]).
  - destruct (InsertElement_spec e.1 e.2 s Hwf Hfit)
      as (a & s' & Hins & Hwf' & Hsz & Hcnt & Hsto & Huq).
    exists s'. unfold insert. rewrite Hres. cbn [bind]. rewrite Hf, Hins. cbn [bind].
    split; [done|]. split; [done|].
    split; [by rewrite Hsz, grown_IsCoolLoad|]. split; [done|].
    replace (e.1, e.2) with e in Hsto by (by destruct e).
    split; [done|]. intros Hu. by apply Huq.
  - exfalso. apply Habs. by exists p.
Qed.

Lemma has_key_dec s key : wf0 s → has_key s key ∨ ¬ has_key s key.
Proof.
  intros Hwf.
  destruct (GetKeyIndex_wf0 key s Hwf) as (p & _ & Hp & [[_ Habs]|[Hocc Hk]]).
  - by right.
  - left. by exists p.
Qed.

Lemma insert_spec e s :
  wf0 s → fits s →
  ∃ s', insert e s = Ret s' ∧ wf0 s' ∧ (uniq s → uniq s') ∧
    (size_ s' = size_ s ∨ size_ s' = SIZE_INCREASING_ON_REBUILD * size_ s).
Proof.
  intros Hwf Hfit. destruct (has_key_dec s e.1 Hwf) as [Hkey|Habs].
  - exists s. split; [by apply insert_present|]. split; [done|]. split; [done|by left].
  - destruct (insert_absent e s Hwf Hfit Habs)
      as (s' & Hres & Hwf' & Hsz & _ & _ & Huq).
    exists s'. split; [done|]. split; [done|]. split; [done|].
    rewrite Hsz. apply grown_cases.
Qed.

(** [erase] of an absent key changes nothing. *)
Lemma erase_absent key s : wf0 s → ¬ has_key s key → erase key s = Ret s.
Proof.
  intros Hwf Habs.
  destruct (GetKeyIndex_wf0 key s Hwf) as (p & Hres & Hp & [[Hf _]|[Hocc Hk]]).
  - unfold erase. rewrite Hres. simpl. by rewrite Hf.
  - exfalso. apply Habs. by exists p.
Qed.

Lemma erase_present key s :
  wf0 s → fits s → has_key s key →
  ∃ p s', GetKeyIndex key s = Ret p ∧ p < size_ s ∧ occupied s p ∧
    keyAt s p = key ∧
    erase key s = Ret s' ∧ wf0 s' ∧ size_ s' = size_ s ∧
    S (element_count_ s') = element_count_ s ∧
    (∀ e, stored s' e ↔
          ∃ q, q < size_ s ∧ q ≠ p ∧ occupied s q ∧ data_ s !!! q = e) ∧
    (uniq s → uniq s').
Proof.
  intros Hwf Hfit Hkey.
  destruct (GetKeyIndex_wf0 key s Hwf) as (p & Hres & Hp & [[_ Habs]|[Hocc Hk]]);
    [done|].
  destruct (DeleteElementByPosition_spec s p Hwf Hfit Hp Hocc)
    as (s' & Hdel & Hwf' & Hsz & Hcnt & Hsto & Huq).
  exists p, s'. unfold erase. rewrite Hres. cbn [bind].
  pose proof Hocc as Hocc'. unfold occupied in Hocc'. rewrite Hocc'. done.
Qed.

Lemma erase_spec key s :
  wf0 s → fits s →
  ∃ s', erase key s = Ret s' ∧ wf0 s' ∧ (uniq s → uniq s') ∧ size_ s' = size_ s.
Proof.
  intros Hwf Hfit. destruct (has_key_dec s key Hwf) as [Hkey|Habs].
  - destruct (erase_present key s Hwf Hfit Hkey)
      as (p & s' & _ & _ & _ & _ & Hres & Hwf' & Hsz & _ & _ & Huq).
    by exists s'.
  - exists s. split; [by apply erase_absent|done].
Qed.

Lemma index_spec key s :
  wf0 s → fits s →
  ∃ i s', index key s = Ret (i, s') ∧ wf0 s' ∧ (uniq s → uniq s') ∧
    (size_ s' = size_ s ∨ size_ s' = SIZE_INCREASING_ON_REBUILD * size_ s).
Proof.
  intros Hwf Hfit.
  destruct (GetKeyIndex_wf0 key s Hwf) as (p & Hres & Hp & [[Hf Habs]|[Hocc Hk]]).
  - destruct (InsertElement_spec key ValueType0 s Hwf Hfit)
      as (a & s' & Hins & Hwf' & Hsz & _ & _ & Huq).
    exists a, s'. unfold index. rewrite Hres. cbn [bind]. rewrite Hf.
    split; [done|]. split; [done|]. split; [by intros Hu; apply Huq|].
    rewrite Hsz, grown_IsCoolLoad by done. apply grown_cases.
  - exists p, s. unfold index. rewrite Hres. cbn [bind].
    unfold occupied in Hocc. rewrite Hocc. split; [done|]. split; [done|].
    split; [done|by left].
Qed.

Lemma assign_keyAt i value s q :
  i < length (data_ s) → keyAt (assign i value s) q = keyAt s q.
Proof.
  intros Hi. unfold keyAt. simpl. destruct (decide (q = i)) as [->|Hne].
  - by rewrite list_lookup_total_insert_eq.
  - by rewrite list_lookup_total_insert_ne.
Qed.

(** Writing a value through a reference touches no key. *)
Lemma assign_spec i value s :
  wf0 s → i < size_ s →
  wf0 (assign i value s) ∧ (uniq s → uniq (assign i value s)).
Proof.
  intros (((Hld & Hlp & Hlf & Hli) & Hidx & Hchain) & Hload) Hi.
  assert (Hk: ∀ q, keyAt (assign i value s) q = keyAt s q)
    by (intros q; apply assign_keyAt; lia).
  split; [split; [split; [|split]|]|].
  - unfold lens_ok. simpl. by rewrite length_insert.
  - done.
  - intros q Hq Hocc. apply (chain_at_ext s); [done|done|apply Hk|].
    by apply Hchain.
  - done.
  - intros Hu a b Ha Hb Haocc Hbocc. rewrite !Hk. by apply Hu.
Qed.

Lemma idx_empty s e : idx_ok s → element_count_ s = 0 → ¬ stored s e.
Proof.
  intros (Hc & _ & H3) H0 (p & Hp & Hocc & _).
  specialize (H3 p Hp Hocc). apply lookup_lt_Some in H3. lia.
Qed.

Lemma clear_loop_spec :
  ∀ n fuel s,
    wf0 s → fits s → element_count_ s = n → n < fuel →
    ∃ s', clear_loop fuel s = Ret s' ∧ wf0 s' ∧ size_ s' = size_ s ∧
      element_count_ s' = 0 ∧ (uniq s → uniq s').
Proof.
  induction n as [|n IH]; intros fuel s Hwf Hfit Hn Hfuel;
    (destruct fuel as [|fuel]; [lia|]); cbn [clear_loop];
    pose proof Hwf as ((_ & (Hc & H2 & _) & _) & _).
  - destruct (element_positions_ s) as [|p pos] eqn:Hpos; [|simpl in Hc; lia].
    by exists s.
  - destruct (element_positions_ s) as [|p pos] eqn:Hpos; [simpl in Hc; lia|].
    unfold DeleteElementByIndex. rewrite Hpos. simpl lookup_total.
    destruct (H2 0 p) as (Hp & Hocc & _); [done|].
    destruct (DeleteElementByPosition_spec s p Hwf Hfit Hp Hocc)
      as (s1 & Hdel & Hwf1 & Hsz1 & Hcnt1 & _ & Huq1).
    rewrite Hdel. cbn [bind].
    destruct (IH fuel s1) as (s' & Hres & Hwf' & Hsz' & Hcnt' & Huq');
      [done|unfold fits in *; by rewrite Hsz1|lia|lia|].
    exists s'. split; [done|]. split; [done|]. split; [congruence|].
    split; [done|]. intros Hu. by apply Huq', Huq1.
Qed.

(** [clear] empties the table and keeps its capacity. *)
Lemma clear_spec s :
  wf0 s → fits s →
  ∃ s', clear s = Ret s' ∧ wf0 s' ∧ size_ s' = size_ s ∧
    element_count_ s' = 0 ∧ (uniq s → uniq s').
Proof.
  intros Hwf Hfit. unfold clear.
  apply (clear_loop_spec (element_count_ s)); [done|done|done|].
  destruct Hwf as ((_ & (-> & _) & _) & _). lia.
Qed.

(** ** Invariants of the tables a client can obtain *)

Lemma HashMap_new_wf : wf HashMap_new.
Proof.
  split; [split|].
  - apply Init_sound.
  - unfold load_ok, HashMap_new, DEFAULT_SIZE, MAX_LOAD_FACTOR. simpl. lia.
  - apply Init_uniq.
Qed.

Lemma constructing_wf0 s : constructing s → wf0 s.
Proof.
  induction 1 as [|s e i s' _ IH Hfit Hins].
  - apply HashMap_new_wf.
  - destruct (InsertElement_spec e.1 e.2 s IH Hfit) as (a & s1 & Hres & Hwf & _).
    rewrite Hres in Hins. by injection Hins as _ <-.
Qed.

Lemma reachable_wf0 s : reachable s → wf0 s.
Proof.
  induction 1 as [s Hc|s e s' _ IH Hfit Hop|s k s' _ IH Hfit Hop
                  |s k i s' _ IH Hfit Hop|s i v _ IH Hi Hocc|s s' _ IH Hfit Hop].
  - by apply constructing_wf0.
  - destruct (insert_spec e s IH Hfit) as (s1 & Hres & Hwf & _).
    rewrite Hres in Hop. by injection Hop as <-.
  - destruct (erase_spec k s IH Hfit) as (s1 & Hres & Hwf & _).
    rewrite Hres in Hop. by injection Hop as <-.
  - destruct (index_spec k s IH Hfit) as (i1 & s1 & Hres & Hwf & _).
    rewrite Hres in Hop. by injection Hop as _ <-.
  - by apply assign_spec.
  - destruct (clear_spec s IH Hfit) as (s1 & Hres & Hwf & _).
    rewrite Hres in Hop. by injection Hop as <-.
Qed.

Lemma built_wf s : built s → wf s.
Proof.
  induction 1 as [|s e s' _ [IH IHu] Hfit Hop|s k s' _ [IH IHu] Hfit Hop
                  |s k i s' _ [IH IHu] Hfit Hop|s i v _ [IH IHu] Hi Hocc
                  |s s' _ [IH IHu] Hfit Hop].
  - apply HashMap_new_wf.
  - destruct (insert_spec e s IH Hfit) as (s1 & Hres & Hwf & Huq & _).
    rewrite Hres in Hop. injection Hop as <-. split; [done|by apply Huq].
  - destruct (erase_spec k s IH Hfit) as (s1 & Hres & Hwf & Huq & _).
    rewrite Hres in Hop. injection Hop as <-. split; [done|by apply Huq].
  - destruct (index_spec k s IH Hfit) as (i1 & s1 & Hres & Hwf & Huq & _).
    rewrite Hres in Hop. injection Hop as _ <-. split; [done|by apply Huq].
  - destruct (assign_spec i v s IH Hi) as [Hwf Huq]. split; [done|by apply Huq].
  - destruct (clear_spec s IH Hfit) as (s1 & Hres & Hwf & _ & _ & Huq).
    rewrite Hres in Hop. injection Hop as <-. split; [done|by apply Huq].
Qed.

Lemma built_reachable s : built s → reachable s.
Proof.
  induction 1.
  - apply reachable_ctor, constructing_Init.
  - by eapply reachable_insert.
  - by eapply reachable_erase.
  - by eapply reachable_index.
  - by apply reachable_assign.
  - by eapply reachable_clear.
Qed.

(** ** Iteration *)

Lemma iterate_from_seq s :
  ∀ n fuel it, it + n = end_ s → n < fuel →
    iterate_from fuel it s = deref s <$> seq it n.
Proof.
  induction n as [|n IH]; intros fuel it Hend Hfuel;
    (destruct fuel as [|fuel]; [lia|]); cbn [iterate_from].
  - rewrite decide_True by lia. done.
  - rewrite decide_False by lia. cbn [seq fmap list_fmap]. f_equal.
    apply IH; lia.
Qed.

(** Iterating from [begin()] to [end()] yields the elements in the order of
    [element_positions_]. *)
Lemma iterate_entries s : iterate s = entries s.
Proof.
  unfold iterate, begin_. rewrite (iterate_from_seq s (end_ s)) by lia.
  unfold entries, end_, deref. apply list_eq. intros j.
  rewrite !list_lookup_fmap.
  destruct (decide (j < length (element_positions_ s))) as [Hj|Hj].
  - rewrite lookup_seq_lt by done. simpl.
    by rewrite (list_lookup_lookup_total_lt (element_positions_ s) j Hj).
  - rewrite lookup_seq_ge by lia. by rewrite lookup_ge_None_2 by lia.
Qed.

Lemma found_has_key s key : wf0 s → found s key ↔ has_key s key.
Proof.
  intros Hwf. split.
  - intros (it & Hfind & Hne). destruct (has_key_dec s key Hwf) as [|Habs]; [done|].
    rewrite find_absent in Hfind by done. congruence.
  - intros Hkey. destruct (find_present key s Hwf Hkey) as (it & Hfind & Hlt & _).
    exists it. split; [done|lia].
Qed.

(** On every well-formed table iteration visits the keys that [find] finds,
    in [size()] steps. *)
Lemma iterate_found s :
  wf0 s →
  (∀ key, key ∈ (iterate s).*1 ↔ found s key) ∧
  length (iterate s) = size s.
Proof.
  intros Hwf. pose proof Hwf as ((_ & Hidx & _) & _).
  rewrite iterate_entries. split.
  - intros key. rewrite found_has_key, has_key_stored by done.
    rewrite list_elem_of_fmap. split.
    + intros ([k v] & -> & Hin). exists v. by apply entries_stored.
    + intros (v & Hv). exists (key, v). split; [done|]. by apply entries_stored.
  - unfold entries, size. rewrite length_fmap. by destruct Hidx as (-> & _).
Qed.

(** On a table without duplicate keys it visits each of them once. *)
Lemma iterate_keys s :
  wf s →
  NoDup (iterate s).*1 ∧
  (∀ key, key ∈ (iterate s).*1 ↔ found s key) ∧
  length (iterate s) = size s.
Proof.
  intros [Hwf Hu]. split; [|by apply iterate_found].
  rewrite iterate_entries. apply entries_keys_NoDup; [apply Hwf|done].
Qed.

(** ** No member function but [at] throws *)

Lemma bind_no_throw {A B} (m : result A) (f : A → result B) :
  no_throw m → (∀ a, no_throw (f a)) → no_throw (bind m f).
Proof.
  intros Hm Hf. destruct m as [a|e|]; simpl; [apply Hf| |by intros x].
  by destruct (Hm e).
Qed.

Lemma Ret_no_throw {A} (a : A) : no_throw (Ret a).
Proof. done. Qed.

Lemma GetKeyIndex_no_throw key s : no_throw (GetKeyIndex key s).
Proof.
  unfold GetKeyIndex. generalize (hash_ key mod size_ s).
  induction (size_ s) as [|fuel IH] at 1; intros i; simpl; [done|].
  destruct (free_places_ s !!! i); [done|]. by case_decide.
Qed.

Lemma RobinHood_loop_no_throw fuel s p : no_throw (RobinHood_loop fuel s p).
Proof.
  revert s p. induction fuel as [|fuel IH]; intros s p; simpl; [done|].
  destruct (free_places_ s !!! probe_i p); [done|].
  destruct (RobinHood_body s p). apply IH.
Qed.

Lemma RobinHoodGetKeyIndex_no_throw key value s :
  no_throw (RobinHoodGetKeyIndex key value s).
Proof.
  unfold RobinHoodGetKeyIndex.
  apply bind_no_throw; [apply RobinHood_loop_no_throw|by intros [? ?]].
Qed.

Lemma FixPosition_evict_no_throw fuel i elements s :
  no_throw (FixPosition_evict fuel i elements s).
Proof.
  revert i elements s. induction fuel as [|fuel IH]; intros i l s; simpl; [done|].
  destruct (free_places_ s !!! i); [done|apply IH].
Qed.

Lemma drain_no_throw ins l s :
  (∀ key value s1, no_throw (ins key value s1)) → no_throw (drain ins l s).
Proof.
  intros Hins. revert s. induction l as [|e l IH]; intros s; simpl; [done|].
  apply bind_no_throw; [apply Hins|]. intros [? ?]. apply IH.
Qed.

Lemma Rebuild_size_no_throw fuel n s : no_throw (Rebuild_size fuel n s).
Proof.
  revert n. induction fuel as [|fuel IH]; intros n; simpl; [done|].
  destruct (IsCoolLoad _ _ s); [done|apply IH].
Qed.

Lemma InsertElement_no_throw depth key value s :
  no_throw (InsertElement depth key value s).
Proof.
  revert key value s. induction depth as [|depth IH]; intros key value s; [done|].
  rewrite InsertElement_S. apply bind_no_throw.
  - destruct (IsCoolLoad _ _ s); [done|].
    unfold Rebuild, Rebuild_with. apply bind_no_throw.
    + apply Rebuild_size_no_throw.
    + intros n. by apply drain_no_throw.
  - intros s1. apply RobinHoodGetKeyIndex_no_throw.
Qed.

Lemma DeleteElementByPosition_no_throw depth position need_fix s :
  no_throw (DeleteElementByPosition depth position need_fix s).
Proof.
  unfold DeleteElementByPosition. destruct need_fix; [|done].
  unfold FixPosition. apply bind_no_throw; [apply FixPosition_evict_no_throw|].
  intros [l s1]. apply drain_no_throw. intros. apply InsertElement_no_throw.
Qed.

Lemma insert_no_throw e s : no_throw (insert e s).
Proof.
  unfold insert. apply bind_no_throw; [apply GetKeyIndex_no_throw|].
  intros i. destruct (free_places_ s !!! i); [|done].
  apply bind_no_throw; [apply InsertElement_no_throw|by intros [? ?]].
Qed.

Lemma erase_no_throw key s : no_throw (erase key s).
Proof.
  unfold erase. apply bind_no_throw; [apply GetKeyIndex_no_throw|].
  intros i. destruct (free_places_ s !!! i); [done|].
  apply DeleteElementByPosition_no_throw.
Qed.

Lemma find_no_throw key s : no_throw (find key s).
Proof.
  unfold find. apply bind_no_throw; [apply GetKeyIndex_no_throw|].
  intros i. by destruct (free_places_ s !!! i).
Qed.

Lemma index_no_throw key s : no_throw (index key s).
Proof.
  unfold index. apply bind_no_throw; [apply GetKeyIndex_no_throw|].
  intros i. destruct (free_places_ s !!! i); [|done].
  apply InsertElement_no_throw.
Qed.

Lemma clear_no_throw s : no_throw (clear s).
Proof.
  unfold clear. generalize (S (length (element_positions_ s))). intros fuel.
  revert s. induction fuel as [|fuel IH]; intros s; simpl; [done|].
  destruct (element_positions_ s); [done|].
  apply bind_no_throw; [apply DeleteElementByPosition_no_throw|apply IH].
Qed.

(** ** Sequences of insertions *)

Lemma grown_le size count : size ≤ grown size count.
Proof. destruct (grown_cases size count) as [-> | ->]; lia. Qed.

Lemma capacity_after_le n : ∀ size count, size ≤ capacity_after n size count.
Proof.
  induction n as [|n IH]; intros size count; simpl; [done|].
  etrans; [apply (grown_le size count)|apply IH].
Qed.

Lemma fits_capacity_le a b : a ≤ b → fits_capacity b → fits_capacity a.
Proof.
  unfold fits_capacity, MAX_LOAD_FACTOR, SIZE_INCREASING_ON_REBUILD. lia.
Qed.

Lemma insert_all_spec :
  ∀ l s,
    wf s → NoDup l.*1 → (∀ e, e ∈ l → ¬ has_key s e.1) →
    fits_capacity (capacity_after (length l) (size_ s) (element_count_ s)) →
    ∃ s', insert_all l s = Ret s' ∧ wf s' ∧
      size_ s' = capacity_after (length l) (size_ s) (element_count_ s) ∧
      element_count_ s' = element_count_ s + length l ∧
      (∀ x, stored s' x ↔ stored s x ∨ x ∈ l) ∧
      (built s → built s').
Proof.
  induction l as [|e l IH]; intros s Hwf Hnd Habs Hfit.
  - exists s. simpl. split; [done|]. split; [done|]. split; [done|].
    split; [lia|]. split; [|done]. intros x. split; [by left|].
    intros [|Hin]; [done|]. by apply elem_of_nil in Hin.
  - cbn [insert_all length capacity_after] in *.
    rewrite fmap_cons in Hnd. apply NoDup_cons in Hnd as [Hnin Hnd].
    destruct Hwf as [Hwf Hu].
    assert (Hfits: fits s).
    { eapply fits_capacity_le; [|done].
      etrans; [apply (grown_le (size_ s) (element_count_ s))|].
      apply capacity_after_le. }
    destruct (insert_absent e s Hwf Hfits)
      as (s1 & Hres & Hwf1 & Hsz1 & Hcnt1 & Hsto1 & Huq1).
    { apply Habs. by left. }
    rewrite Hres. cbn [bind].
    destruct (IH s1) as (s' & Hres' & Hwf' & Hsz' & Hcnt' & Hsto' & Hb').
    + split; [done|by apply Huq1].
    + done.
    + intros x Hx [v Hv]%has_key_stored. apply Hsto1 in Hv as [Hv|Hv].
      * apply (Habs x); [by right|]. apply has_key_stored. eauto.
      * apply Hnin. rewrite Hv. simpl. apply list_elem_of_fmap. by exists x.
    + by rewrite Hsz1, Hcnt1.
    + exists s'. split; [done|]. split; [done|].
      split; [by rewrite Hsz', Hsz1, Hcnt1|]. split; [lia|]. split.
      * intros x. rewrite Hsto', Hsto1, elem_of_cons. intuition congruence.
      * intros Hb. apply Hb'. by eapply built_insert.
Qed.

(** The table built by [insert] of elements with distinct keys. *)
Lemma table_of_built elements :
  NoDup elements.*1 →
  fits_capacity (capacity_after (length elements) DEFAULT_SIZE 0) →
  insert_all elements HashMap_new = Ret (table_of elements) ∧
  built (table_of elements).
Proof.
  intros Hnd Hfit.
  destruct (insert_all_spec elements HashMap_new HashMap_new_wf Hnd)
    as (s & Hres & _ & _ & _ & _ & Hb); [|done|].
  { intros e _ [v Hv]%has_key_stored. by apply Init_stored in Hv. }
  unfold table_of. rewrite Hres. split; [done|]. apply Hb, built_new.
Qed.

(** The range constructors reach whatever their elements are. *)
Lemma HashMap_fill_constructing :
  ∀ l s,
    constructing s →
    fits_capacity (capacity_after (length l) (size_ s) (element_count_ s)) →
    ∃ s', HashMap_fill l s = Ret s' ∧ constructing s'.
Proof.
  induction l as [|e l IH]; intros s Hc Hfit; [by exists s|].
  cbn [HashMap_fill length capacity_after] in *.
  assert (Hfits: fits s).
  { eapply fits_capacity_le; [|done].
    etrans; [apply (grown_le (size_ s) (element_count_ s))|].
    apply capacity_after_le. }
  pose proof (constructing_wf0 s Hc) as Hwf.
  destruct (InsertElement_spec e.1 e.2 s Hwf Hfits)
    as (a & s1 & Hres & _ & Hsz1 & Hcnt1 & _).
  rewrite Hres. cbn [bind]. apply IH.
  - by eapply constructing_InsertElement.
  - by rewrite Hsz1, grown_IsCoolLoad, Hcnt1.
Qed.

Lemma at_Ret_stored key value s :
  wf0 s → at_ key s = Ret value → stored s (key, value).
Proof.
  intros Hwf Hat. destruct (has_key_dec s key Hwf) as [Hkey|Habs].
  - destruct (at_present key s Hwf Hkey) as (v & Hv & Hsto).
    rewrite Hv in Hat. by injection Hat as <-.
  - rewrite at_absent in Hat by done. done.
Qed.

Lemma wf_lookup key value s :
  wf s → stored s (key, value) →
  at_ key s = Ret value ∧
  ∃ it, find key s = Ret it ∧ it ≠ end_ s ∧ deref s it = (key, value).
Proof.
  intros Hwf Hsto. split; [by apply at_stored|].
  destruct (find_stored key value s Hwf Hsto) as (it & Hfind & Hlt & Hd).
  exists it. split; [done|]. split; [lia|done].
Qed.

(** ** The properties of the specification *)

(** C1. Whatever the hash function, after a sequence of [insert] calls with
    pairwise distinct keys on a fresh table, [at] returns for every inserted
    key the value it was inserted with and [find] returns an iterator, other
    than [end()], to that key and value.  The hypothesis on the capacity
    reached says that the load tests do not wrap around. *)
Theorem insert_then_lookup (elements : list (K * V)) :
  NoDup elements.*1 →
  fits_capacity (capacity_after (length elements) DEFAULT_SIZE 0) →
  ∃ s, insert_all elements HashMap_new = Ret s ∧
    ∀ key value, (key, value) ∈ elements →
      at_ key s = Ret value ∧
      ∃ it, find key s = Ret it ∧ it ≠ end_ s ∧ deref s it = (key, value).
Proof.
  intros Hnd Hfit.
  destruct (insert_all_spec elements HashMap_new HashMap_new_wf Hnd)
    as (s & Hres & Hwf & _ & _ & Hsto & _); [|done|].
  { intros e _ [v Hv]%has_key_stored. by apply Init_stored in Hv. }
  exists s. split; [done|]. intros key value Hin.
  apply wf_lookup; [done|]. apply Hsto. by right.
Qed.

(** C3. [insert] of a key that the table holds (an occupied slot stores it;
    equivalently, iteration yields it) returns the table as it was: the
    stored value, [size()] and everything else are unchanged.  So after
    [insert] of a key that no slot holds, [at] returns the inserted value,
    and a second [insert] of the key, whatever its value, changes
    nothing. *)
Theorem insert_existing_key s key value :
  wf0 s →
  (has_key s key → insert (key, value) s = Ret s) ∧
  (key ∈ (iterate s).*1 → insert (key, value) s = Ret s) ∧
  (fits s → ¬ has_key s key →
   ∃ s1, insert (key, value) s = Ret s1 ∧ has_key s1 key ∧
         at_ key s1 = Ret value ∧
         ∀ value', insert (key, value') s1 = Ret s1).
Proof.
  intros Hwf. split; [by apply (insert_present (key, value))|]. split.
  - intros Hin. apply (insert_present (key, value)); [done|].
    apply found_has_key; [done|]. by apply (iterate_found s Hwf).
  - intros Hfit Habs.
    destruct (insert_absent (key, value) s Hwf Hfit Habs)
      as (s1 & Hres & Hwf1 & _ & _ & Hsto & _).
    assert (Hkey: has_key s1 key).
    { apply has_key_stored. exists value. apply Hsto. by right. }
    exists s1. split; [done|]. split; [done|]. split.
    + destruct (at_present key s1 Hwf1 Hkey) as (v & Hat & Hv).
      apply Hsto in Hv as [Hv|Hv].
      * exfalso. apply Habs, has_key_stored. by exists v.
      * by injection Hv as <-.
    + intros value'. by apply (insert_present (key, value')).
Qed.

(** C5, amended. On every reachable table [insert] returns, and afterwards
    the load bound holds for the element count before the placement:
    [(element_count - 1) * 100 < 80 * capacity]. *)
Theorem load_after_insert s e :
  reachable s → fits s →
  ∃ s', insert e s = Ret s' ∧
    (element_count_ s' - 1) * 100 < MAX_LOAD_FACTOR * size_ s'.
Proof.
  intros Hreach Hfit. apply reachable_wf0 in Hreach.
  destruct (insert_spec e s Hreach Hfit) as (s' & Hres & (_ & Hmin & Hload) & _).
  exists s'. split; [done|].
  unfold load_ok, DEFAULT_SIZE, MAX_LOAD_FACTOR in *. lia.
Qed.

(** C7. [at] throws exactly when no occupied slot holds the key
    (equivalently, when iteration does not yield it), and what it throws is
    [out_of_range]; when a slot holds the key, [at] returns the value of an
    element stored under it, which is the value stored under the key when
    the key is stored once, and the value the iterator of [find] refers to;
    [insert], [erase], [find], [operator[]] and [clear] never throw. *)
Theorem at_throws_iff_absent s key :
  wf0 s →
  (at_ key s = Throw out_of_range ↔ ¬ has_key s key) ∧
  (has_key s key ↔ key ∈ (iterate s).*1) ∧
  (has_key s key → ∃ value, at_ key s = Ret value ∧ stored s (key, value)) ∧
  (uniq s → ∀ value, stored s (key, value) → at_ key s = Ret value) ∧
  (∀ it, find key s = Ret it → it ≠ end_ s →
     at_ key s = Ret (deref s it).2 ∧ (deref s it).1 = key) ∧
  (∀ e, no_throw (insert e s)) ∧ (∀ k, no_throw (erase k s)) ∧
  (∀ k, no_throw (find k s)) ∧ (∀ k, no_throw (index k s)) ∧
  no_throw (clear s).
Proof.
  intros Hwf. split; [|split; [|split; [|split; [|split]]]].
  - split.
    + intros Hat Hkey. destruct (at_present key s Hwf Hkey) as (v & Hv & _).
      congruence.
    + by apply at_absent.
  - rewrite <- found_has_key by done. symmetry. by apply (iterate_found s Hwf).
  - by apply at_present.
  - intros Hu value Hsto. by apply at_stored.
  - intros it Hfind Hne.
    destruct (GetKeyIndex_wf0 key s Hwf) as (p & Hres & Hp & [[Hf _]|[Hocc Hk]]).
    + unfold find in Hfind. rewrite Hres in Hfind. simpl in Hfind.
      rewrite Hf in Hfind. congruence.
    + destruct Hwf as ((_ & (_ & _ & H3) & _) & _).
      pose proof (H3 p Hp Hocc) as Hpos.
      unfold find in Hfind. unfold at_. rewrite Hres in *. simpl in *.
      unfold occupied in Hocc. rewrite Hocc in *. injection Hfind as <-.
      unfold deref. by rewrite (list_lookup_total_correct _ _ _ Hpos).
  - split; [intros; apply insert_no_throw|].
    split; [intros; apply erase_no_throw|].
    split; [intros; apply find_no_throw|].
    split; [intros; apply index_no_throw|apply clear_no_throw].
Qed.


(** C10. On every reachable table, [insert] and [operator[]] leave the
    capacity as it is or multiply it by four, [erase] and an assignment
    leave it as it is, and [clear] returns an empty table of the same
    capacity. *)
Theorem capacity_never_shrinks s :
  reachable s → fits s →
  (∀ e s', insert e s = Ret s' →
     size_ s' = size_ s ∨ size_ s' = SIZE_INCREASING_ON_REBUILD * size_ s) ∧
  (∀ k i s', index k s = Ret (i, s') →
     size_ s' = size_ s ∨ size_ s' = SIZE_INCREASING_ON_REBUILD * size_ s) ∧
  (∀ k s', erase k s = Ret s' → size_ s' = size_ s) ∧
  (∀ i v, size_ (assign i v s) = size_ s) ∧
  (∃ s', clear s = Ret s' ∧ size_ s' = size_ s ∧ size s' = 0 ∧ iterate s' = []).
Proof.
  intros Hreach Hfit. apply reachable_wf0 in Hreach as Hwf.
  split; [|split; [|split; [|split; [done|]]]].
  - intros e s' Hop. destruct (insert_spec e s Hwf Hfit) as (s1 & Hres & _ & _ & Hsz).
    rewrite Hres in Hop. by injection Hop as <-.
  - intros k i s' Hop.
    destruct (index_spec k s Hwf Hfit) as (i1 & s1 & Hres & _ & _ & Hsz).
    rewrite Hres in Hop. by injection Hop as _ <-.
  - intros k s' Hop. destruct (erase_spec k s Hwf Hfit) as (s1 & Hres & _ & _ & Hsz).
    rewrite Hres in Hop. by injection Hop as <-.
  - destruct (clear_spec s Hwf Hfit) as (s' & Hres & Hwf' & Hsz & Hcnt & _).
    exists s'. split; [done|]. split; [done|]. split; [done|].
    rewrite iterate_entries. unfold entries.
    destruct Hwf' as ((_ & (Hc & _) & _) & _). rewrite Hcnt in Hc.
    symmetry in Hc. apply nil_length_inv in Hc. by rewrite Hc.
Qed.

(** ** Further properties of the code *)

(** *** Probe sequence lengths, returned slots and the order of iteration *)

Lemma run_lt_size s h d :
  0 < size_ s → has_free s →
  (∀ m, m < d → occupied s (slot s h m)) → d < size_ s.
Proof.
  intros Hs (f & Hf & Hfree) Hrun.
  destruct (slot_reach s h f Hf) as (m & Hm & E).
  destruct (decide (m < d)) as [Hlt|]; [|lia].
  specialize (Hrun m Hlt). rewrite E in Hrun. unfold occupied in Hrun. congruence.
Qed.

Lemma perm_swap_insert {A} (l : list A) j x y :
  l !! j = Some x → x :: <[j := y]> l ≡ₚ y :: l.
Proof.
  intros Hj. rewrite insert_take_drop by (by eapply lookup_lt_Some).
  trans (y :: take j l ++ x :: drop (S j) l); [|by rewrite take_drop_middle].
  rewrite <- !Permutation_middle. apply Permutation_swap.
Qed.

Lemma entries_swap_slot s i c cp :
  idx_ok s → length (data_ s) = size_ s → i < size_ s → occupied s i →
  entries s !! (index_in_element_positions_ s !!! i) = Some (data_ s !!! i) ∧
  entries (swap_slot i c cp s) =
    <[index_in_element_positions_ s !!! i := c]> (entries s).
Proof.
  intros Hidx Hld Hi Hocc. pose proof Hidx as (_ & H2 & H3).
  pose proof (H3 i Hi Hocc) as Hj.
  set (j := index_in_element_positions_ s !!! i) in *.
  unfold entries. split.
  - by rewrite list_lookup_fmap, Hj.
  - simpl. apply list_eq. intros k. destruct (decide (k = j)) as [->|Hne].
    + rewrite list_lookup_insert_eq
        by (rewrite length_fmap; by eapply lookup_lt_Some).
      rewrite list_lookup_fmap, Hj. simpl. f_equal.
      apply list_lookup_total_insert_eq. lia.
    + rewrite list_lookup_insert_ne by done. rewrite !list_lookup_fmap.
      destruct (element_positions_ s !! k) as [q|] eqn:Hk; [|done]. simpl. f_equal.
      apply list_lookup_total_insert_ne. intros ->. apply Hne.
      by apply (idx_inj s k j q).
Qed.

Lemma entries_InsertByIndex s i k v ps :
  lens_ok s → idx_ok s → i < size_ s → free_places_ s !!! i = true →
  entries (InsertByIndex i k v ps s) = entries s ++ [(k, v)] ∧
  psl_ (InsertByIndex i k v ps s) = <[i := ps]> (psl_ s).
Proof.
  intros Hlens Hidx Hi Hfree.
  destruct (InsertByIndex_free s i k v ps Hlens Hidx Hi Hfree)
    as (_ & _ & _ & _ & Hpos & _ & Hdat).
  split.
  - unfold entries. rewrite Hpos, fmap_app. simpl. f_equal.
    + apply list_fmap_ext. intros j q Hq. rewrite Hdat, decide_False; [done|].
      intros ->. destruct Hidx as (_ & H2 & _).
      destruct (H2 _ _ Hq) as (_ & Hocc & _). unfold occupied in Hocc. congruence.
    + by rewrite Hdat, decide_True.
  - unfold InsertByIndex. by rewrite Hfree.
Qed.

Lemma next_inj s q i :
  q < size_ s → i < size_ s → next s q = next s i → q = i.
Proof.
  intros Hq Hi. rewrite !next_mod by done.
  rewrite (Nat.add_comm q), (Nat.add_comm i). by apply (slot_inj s 1).
Qed.

Lemma next_size s s' q : size_ s' = size_ s → next s' q = next s q.
Proof. unfold next. by intros ->. Qed.

Lemma RobinHood_body_entries s0 e0 n s p :
  0 < size_ s → idx_ok s0 → has_free s0 → n < size_ s0 →
  probe_i p = slot s0 (hash_ e0.1) n → occupied s (probe_i p) →
  RH_inv s0 e0 s p → RX_inv s0 e0 n s p →
  RX_inv s0 e0 (S n) (RobinHood_body s p).1 (RobinHood_body s p).2.
Proof.
  intros Hs Hidx0 Hfree0 Hn Hpi Hocc
    (Hsz & Hcnt & Hfr & Hix & Hpos & Hld & Hlp & Hch & _)
    (Hpc & Hans & Hperm).
  assert (Hi: probe_i p < size_ s).
  { rewrite Hpi, Hsz. apply slot_lt. by rewrite <- Hsz. }
  assert (Hfree: has_free s).
  { destruct Hfree0 as (f & Hf & Hff). exists f. by rewrite Hsz, Hfr. }
  assert (Hidx: idx_ok s).
  { unfold idx_ok, occupied. by rewrite Hcnt, Hpos, Hsz, Hfr, Hix. }
  unfold RobinHood_body.
  destruct (psl_ s !!! probe_i p <? current_psl p) eqn:Hlt; simpl.
  - (* the resident is displaced *)
    apply Nat.ltb_lt in Hlt.
    set (i := probe_i p) in *.
    set (s1 := swap_slot i (to_insert p) (current_psl p) s).
    assert (Hsz1: size_ s1 = size_ s) by done.
    split; [|split].
    + intros Hp0.
      destruct (Hpc Hp0) as ((Hpsl & Hrh) & (dc & Hcp & Hdc & Hcc) & Hprev).
      split; [split|split].
      * intros q Hq Hqocc. destruct (decide (q = i)) as [->|Hne].
        -- exists dc. split; [by apply (run_lt_size s (hash_ (to_insert p).1))|].
           unfold keyAt, slot in *. simpl.
           rewrite !list_lookup_total_insert_eq by lia. done.
        -- destruct (Hpsl q Hq Hqocc) as (d & Hd & Hpd & Hqd). exists d.
           unfold keyAt, slot in *. simpl.
           rewrite !list_lookup_total_insert_ne by done. done.
      * intros q Hq Hqocc Hnocc.
        change (next s1 q) with (next s q) in *.
        change (psl_ s1) with (<[i := current_psl p]> (psl_ s)).
        change (size_ s1) with (size_ s) in Hq.
        change (occupied s q) in Hqocc. change (occupied s (next s q)) in Hnocc.
        specialize (Hrh q Hq Hqocc Hnocc). specialize (Hprev q Hq Hqocc).
        destruct (decide (next s q = i)) as [Hni|Hni];
          destruct (decide (q = i)) as [Hqi|Hqi];
          rewrite ?Hni, ?Hqi in *;
          rewrite ?list_lookup_total_insert_eq by lia;
          rewrite ?list_lookup_total_insert_ne by done;
          rewrite ?list_lookup_total_insert_eq by lia; lia.
      * destruct (Hpsl i Hi Hocc) as (di & Hdi & Hpi' & Hqi).
        destruct (Hch i Hi Hocc) as (d' & Hd' & Hc').
        assert (d' = di) as ->.
        { apply (slot_inj s (hash_ (keyAt s i)));
            [by apply (run_lt_size s (hash_ (keyAt s i)))|done|congruence]. }
        exists (S di). simpl. split; [by rewrite Hpi'|].
        rewrite !(slot_size s s1) by done. fold (keyAt s i). split.
        -- rewrite <- slot_next by done. by rewrite <- Hqi.
        -- intros m Hm. rewrite (slot_size s s1) by done.
           change (occupied s (slot s (hash_ (keyAt s i)) m)).
           destruct (decide (m = di)) as [->|]; [by rewrite <- Hqi|].
           apply Hc'. lia.
      * intros q Hq Hqocc Hnq. simpl in Hnq.
        change (next s1 q) with (next s q) in Hnq.
        apply next_inj in Hnq as ->; [|done..]. unfold s1. simpl.
        rewrite list_lookup_total_insert_eq by lia. lia.
    + destruct (answer_i p) as [a|]; unfold s1; simpl.
      * destruct Hans as ((m & Hm & Ha) & Hao & Had).
        split; [exists m; split; [lia|done]|]. split; [done|].
        rewrite list_lookup_total_insert_ne; [done|].
        rewrite Hpi, Ha. intros E. apply slot_inj in E; lia.
      * split; [exists n; split; [lia|done]|].
        split; [unfold occupied; by rewrite <- Hfr|].
        rewrite list_lookup_total_insert_eq by lia. done.
    + destruct (entries_swap_slot s i (to_insert p) (current_psl p) Hidx Hld Hi Hocc)
        as [Hj Hent].
      fold s1 in Hent. rewrite Hent.
      by rewrite (perm_swap_insert _ _ _ _ Hj).
  - (* the resident stays *)
    apply Nat.ltb_ge in Hlt.
    split; [|split; [|done]].
    + intros Hp0.
      destruct (Hpc Hp0) as (Hok & (dc & Hcp & Hdc & Hcc) & Hprev).
      split; [done|]. split.
      * exists (S dc). simpl. split; [by rewrite Hcp|]. split.
        -- rewrite <- slot_next by done. by rewrite <- Hdc.
        -- intros m Hm. destruct (decide (m = dc)) as [->|]; [by rewrite <- Hdc|].
           apply Hcc. lia.
      * intros q Hq Hqocc Hnq. simpl in *.
        apply next_inj in Hnq as ->; [|done..]. lia.
    + simpl. destruct (answer_i p) as [a|]; [|done].
      destruct Hans as ((m & Hm & Ha) & ?).
      split; [exists m; split; [lia|done]|done].
Qed.

Lemma RobinHood_loop_entries s0 e0 :
  0 < size_ s0 → idx_ok s0 → has_free s0 →
  ∀ fuel n s p s' p',
    RH_inv s0 e0 s p → RX_inv s0 e0 n s p →
    probe_i p = slot s0 (hash_ e0.1) n →
    (∀ m, m < n → occupied s0 (slot s0 (hash_ e0.1) m)) →
    RobinHood_loop fuel s p = Ret (s', p') →
    ∃ n', RH_inv s0 e0 s' p' ∧ RX_inv s0 e0 n' s' p' ∧
          probe_i p' < size_ s0 ∧ free_places_ s' !!! probe_i p' = true.
Proof.
  intros Hs0 Hidx0 Hfree0.
  induction fuel as [|fuel IH]; intros n s p s' p' Hinv Hx Hpi Hrun Hres; [done|].
  simpl in Hres. pose proof Hinv as (Hsz & _ & Hfr & _).
  destruct (free_places_ s !!! probe_i p) eqn:Hf.
  - injection Hres as <- <-. exists n. split; [done|]. split; [done|].
    split; [rewrite Hpi; by apply slot_lt|done].
  - assert (Hocc0: occupied s0 (slot s0 (hash_ e0.1) n)).
    { unfold occupied. by rewrite <- Hfr, <- Hpi. }
    assert (Hrun1: ∀ m, m < S n → occupied s0 (slot s0 (hash_ e0.1) m)).
    { intros m Hm. destruct (decide (m = n)) as [->|]; [done|]. apply Hrun. lia. }
    pose proof (run_lt_size s0 (hash_ e0.1) (S n) Hs0 Hfree0 Hrun1) as Hn.
    assert (Hi: probe_i p < size_ s).
    { rewrite Hpi, Hsz. by apply slot_lt. }
    destruct (RobinHood_body_inv s0 e0 s p) as [Hinv1 Hnext]; [lia|done|done|done|].
    pose proof (RobinHood_body_entries s0 e0 n s p) as Hx1.
    destruct (RobinHood_body s p) as [s1 p1]. simpl in *.
    apply (IH (S n) s1 p1 s' p'); [done| | |done|done].
    + apply Hx1; [lia|done|done|lia|done|done|done|done].
    + rewrite Hnext, Hpi. rewrite <- !(slot_size s0 s) by done.
      apply slot_next. lia.
Qed.

(** The slot returned by [RobinHoodGetKeyIndex] holds the new element. *)
Lemma RobinHoodGetKeyIndex_entries key value s a s' :
  0 < size_ s → sound s → has_free s →
  RobinHoodGetKeyIndex key value s = Ret (a, s') →
  (probe_ok s → probe_ok s') ∧
  a < size_ s' ∧ occupied s' a ∧ data_ s' !!! a = (key, value) ∧
  entries s' ≡ₚ (key, value) :: entries s.
Proof.
  intros Hs (Hlens & Hidx & Hchain) Hfree Hres.
  unfold RobinHoodGetKeyIndex in Hres.
  set (p0 := {| to_insert := (key, value); current_psl := 1; answer_i := None;
                probe_i := hash_ key mod size_ s |}) in *.
  destruct (RobinHood_loop (size_ s) s p0) as [[s1 p1]| |] eqn:Hloop;
    simpl in Hres; try done.
  injection Hres as <- <-.
  assert (Hinv0: RH_inv s (key, value) s p0).
  { destruct Hlens as (? & ? & _).
    repeat split; try done.
    exists 0. split; [|lia]. simpl. unfold slot. by rewrite Nat.add_0_r. }
  assert (Hx0: RX_inv s (key, value) 0 s p0).
  { split; [|done]. intros Hok. split; [done|]. split.
    - exists 0. split; [done|]. split; [|lia]. simpl. unfold slot.
      by rewrite Nat.add_0_r.
    - intros q _ _ _. simpl. lia. }
  destruct (RobinHood_loop_entries s (key, value) Hs Hidx Hfree (size_ s) 0 s p0 s1 p1)
    as (n' & Hinv1 & Hx1 & Hi & Hfi); [done|done| |lia|done|].
  { simpl. unfold slot. by rewrite Nat.add_0_r. }
  destruct Hinv1 as (Hsz & Hcnt & Hfr & Hix & Hpos & Hld & Hlp & Hch & _).
  destruct Hx1 as (Hpc & Hans & Hperm).
  set (i := probe_i p1) in *. rewrite <- Hsz in Hi.
  assert (Hlens1: lens_ok s1).
  { destruct Hlens as (_ & _ & ? & ?). unfold lens_ok.
    rewrite Hld, Hlp, Hfr, Hix, Hsz. done. }
  assert (Hidx1: idx_ok s1).
  { unfold idx_ok, occupied. by rewrite Hcnt, Hpos, Hsz, Hfr, Hix. }
  assert (Hfree1: has_free s1) by (by exists i).
  destruct (InsertByIndex_free s1 i (to_insert p1).1 (to_insert p1).2
              (current_psl p1) Hlens1 Hidx1 Hi Hfi)
    as (_ & _ & Hsz2 & _ & _ & Hocc2 & Hdat2).
  destruct (entries_InsertByIndex s1 i (to_insert p1).1 (to_insert p1).2
              (current_psl p1) Hlens1 Hidx1 Hi Hfi) as [Hent2 Hpsl2].
  set (s2 := InsertByIndex i (to_insert p1).1 (to_insert p1).2 (current_psl p1) s1) in *.
  assert (Hpair: ((to_insert p1).1, (to_insert p1).2) = to_insert p1)
    by (by destruct (to_insert p1)).
  rewrite Hpair in Hdat2, Hent2.
  assert (Hk2: ∀ q, keyAt s2 q = if decide (q = i) then (to_insert p1).1 else keyAt s1 q).
  { intros q. unfold keyAt. rewrite Hdat2. by case_decide. }
  split; [|split; [|split; [|split]]].
  - intros Hok.
    destruct (Hpc Hok) as ((Hpsl1 & Hrh1) & (dc & Hcp & Hdc & Hcc) & Hprev).
    pose proof Hlens1 as (_ & Hl & _).
    split.
    + intros q Hq [[Hqocc Hne]| ->]%Hocc2.
      * destruct (Hpsl1 q ltac:(lia) Hqocc) as (d & Hd & Hpd & Hqd). exists d.
        rewrite Hpsl2, list_lookup_total_insert_ne by done.
        rewrite Hk2, decide_False, (slot_size s1 s2) by done.
        split; [lia|done].
      * exists dc.
        split; [rewrite Hsz2; by apply (run_lt_size s1 (hash_ (to_insert p1).1)); [lia|..]|].
        rewrite Hpsl2, list_lookup_total_insert_eq by lia.
        rewrite Hk2, decide_True, (slot_size s1 s2) by done. done.
    + intros q Hq Hqocc Hnocc. rewrite (next_size s1 s2) in * by done.
      rewrite Hsz2 in Hq. rewrite Hpsl2.
      apply Hocc2 in Hqocc. apply Hocc2 in Hnocc.
      destruct (decide (next s1 q = i)) as [Hni|Hni];
        destruct (decide (q = i)) as [Hqi|Hqi];
        rewrite ?Hni, ?Hqi in *;
        rewrite ?list_lookup_total_insert_eq by lia;
        rewrite ?list_lookup_total_insert_ne by done;
        rewrite ?list_lookup_total_insert_eq by lia.
      * lia.
      * destruct Hqocc as [[Hqocc _]|]; [|done]. by apply Hprev.
      * (* the slot after the new one starts a chain of its own *)
        destruct Hnocc as [[Hnocc _]|]; [|done].
        assert (Hnlt: next s1 i < size_ s1).
        { rewrite next_mod by done. apply Nat.mod_upper_bound. lia. }
        destruct (Hpsl1 _ Hnlt Hnocc) as (d & Hd & Hpd & Hqd).
        destruct (Hch _ Hnlt Hnocc) as (d' & Hd' & Hc').
        assert (d' = d) as ->.
        { apply (slot_inj s1 (hash_ (keyAt s1 (next s1 i))));
            [by apply (run_lt_size s1 (hash_ (keyAt s1 (next s1 i)))); [lia|..]
            |done|congruence]. }
        destruct d as [|d]; [lia|]. exfalso.
        rewrite <- slot_next in Hqd by lia.
        apply next_inj in Hqd; [|done|apply slot_lt; lia].
        specialize (Hc' d ltac:(lia)). rewrite <- Hqd in Hc'.
        unfold occupied in Hc'. congruence.
      * destruct Hqocc as [[Hqocc _]|]; [|done].
        destruct Hnocc as [[Hnocc _]|]; [|done]. by apply Hrh1.
  - destruct (answer_i p1) as [b|].
    + destruct Hans as ((m & Hm & ->) & _). rewrite Hsz2, Hsz. by apply slot_lt.
    + lia.
  - apply Hocc2. destruct (answer_i p1) as [b|]; [|by right].
    destruct Hans as (_ & Hbo & _). left.
    split; [unfold occupied; by rewrite Hfr|].
    intros ->. unfold occupied in Hbo. congruence.
  - rewrite Hdat2. destruct (answer_i p1) as [b|].
    + destruct Hans as (_ & Hbo & Hbd). rewrite decide_False; [done|].
      intros ->. unfold occupied in Hbo. congruence.
    + by rewrite decide_True.
  - rewrite Hent2, <- Permutation_cons_append. done.
Qed.

Lemma Init_probe_ok n : probe_ok (Init n).
Proof.
  split; intros p Hp Hocc; unfold occupied in Hocc; simpl in *;
    by rewrite lookup_total_replicate_2 in Hocc.
Qed.

Lemma drain_entries d :
  ∀ l s s',
    0 < size_ s → sound s →
    MAX_LOAD_FACTOR * size_ s < size_range →
    (element_count_ s + length l) * 100 < MAX_LOAD_FACTOR * size_ s + 100 →
    drain (InsertElement (S d)) l s = Ret s' →
    (probe_ok s → probe_ok s') ∧ entries s' ≡ₚ entries s ++ l.
Proof.
  induction l as [|e l IH]; intros s s' Hs Hsound Hfit Hroom Hres.
  - simpl in Hres. injection Hres as <-. by rewrite app_nil_r.
  - cbn [drain length] in *.
    assert (Hlt: element_count_ s * 100 < MAX_LOAD_FACTOR * size_ s) by lia.
    rewrite InsertElement_cool in Hres.
    2:{ rewrite IsCoolLoad_exact by lia. by apply Nat.ltb_lt. }
    assert (Hfree: has_free s).
    { apply has_free_count; [apply Hsound|]. unfold MAX_LOAD_FACTOR in Hlt. lia. }
    destruct (RobinHoodGetKeyIndex_spec e.1 e.2 s Hs Hsound Hfree)
      as (a & s1 & Hres1 & Hsound1 & Hsz1 & Hcnt1 & _).
    destruct (RobinHoodGetKeyIndex_entries e.1 e.2 s a s1 Hs Hsound Hfree Hres1)
      as (Hpsl1 & _ & _ & _ & Hperm1).
    rewrite Hres1 in Hres. cbn [bind] in Hres.
    destruct (IH s1 s') as [Hpsl' Hperm'];
      [lia|done|by rewrite Hsz1|rewrite Hsz1, Hcnt1; lia|done|].
    split; [by intros ?; apply Hpsl', Hpsl1|]. rewrite Hperm', Hperm1.
    replace (e.1, e.2) with e by (by destruct e).
    simpl. apply Permutation_middle.
Qed.

(** [Rebuild] keeps the sequence of elements up to order. *)
Lemma Rebuild_entries d s s' :
  wf0 s → fits s → Rebuild (S d) s = Ret s' →
  probe_ok s' ∧ entries s' ≡ₚ entries s.
Proof.
  intros Hwf Hfit Hres. pose proof Hwf as ((Hlens & Hidx & Hchain) & Hmin & Hload).
  unfold Rebuild, Rebuild_with in Hres.
  rewrite Rebuild_size_once in Hres by done. cbn [bind] in Hres.
  fold (entries s) in Hres.
  assert (Hlen: length (entries s) = element_count_ s).
  { unfold entries. rewrite length_fmap. by destruct Hidx as (-> & _). }
  unfold fits, fits_capacity, DEFAULT_SIZE, MAX_LOAD_FACTOR, SIZE_INCREASING_ON_REBUILD in *.
  destruct (drain_entries d (entries s) (Init (4 * size_ s)) s') as [H1 H2];
    [simpl; lia|apply Init_sound
    |simpl; unfold MAX_LOAD_FACTOR; lia|simpl; unfold MAX_LOAD_FACTOR; lia|done|].
  split; [apply H1, Init_probe_ok|]. by rewrite H2.
Qed.

(** The slot returned by [InsertElement] holds the new element. *)
Lemma InsertElement_entries key value s a s' :
  wf0 s → fits s →
  InsertElement call_depth key value s = Ret (a, s') →
  (probe_ok s → probe_ok s') ∧
  a < size_ s' ∧ occupied s' a ∧ data_ s' !!! a = (key, value) ∧
  entries s' ≡ₚ (key, value) :: entries s.
Proof.
  intros Hwf Hfit Hres. pose proof Hwf as (Hsound & Hmin & Hload).
  unfold call_depth in Hres. rewrite InsertElement_S in Hres.
  destruct (IsCoolLoad (size_ s) MAX_LOAD_FACTOR s) eqn:Hcool.
  - cbn [bind] in Hres.
    apply (RobinHoodGetKeyIndex_entries key value s);
      [by apply wf0_pos|done|by apply wf0_has_free|done].
  - destruct (Rebuild_spec 0 s Hwf Hfit) as (s1 & Hres1 & Hsound1 & Hsz1 & Hcnt1 & _).
    destruct (Rebuild_entries 0 s s1 Hwf Hfit Hres1) as [Hpsl1 Hperm1].
    rewrite Hres1 in Hres. cbn [bind] in Hres.
    unfold load_ok, DEFAULT_SIZE, MAX_LOAD_FACTOR, SIZE_INCREASING_ON_REBUILD in *.
    destruct (RobinHoodGetKeyIndex_entries key value s1 a s')
      as (Hp & ? & ? & ? & Hperm);
      [lia|done|apply has_free_count; [apply Hsound1|lia]|done|].
    rewrite Hperm1 in Hperm. split; [by intros _; apply Hp|done].
Qed.

Lemma FixPosition_evict_psl :
  ∀ fuel i elements s elements' s',
    FixPosition_evict fuel i elements s = Ret (elements', s') → psl_ s' = psl_ s.
Proof.
  induction fuel as [|fuel IH]; intros i elements s elements' s' Hres; [done|].
  cbn [FixPosition_evict] in Hres.
  destruct (free_places_ s !!! i); [by injection Hres as _ <-|].
  by rewrite (IH _ _ _ _ _ Hres).
Qed.

Lemma positions_perm s l :
  idx_ok s → NoDup l → (∀ q, q ∈ l ↔ q < size_ s ∧ occupied s q) →
  element_positions_ s ≡ₚ l.
Proof.
  intros Hidx Hnd Hl. apply NoDup_Permutation; [by apply idx_NoDup|done|].
  intros q. by rewrite idx_elem, Hl.
Qed.

(** [DeleteElementByPosition] takes the element of the slot out of the
    sequence of elements and leaves the others, up to order. *)
Lemma DeleteElementByPosition_entries s p0 s' :
  wf0 s → fits s → p0 < size_ s → occupied s p0 →
  DeleteElementByPosition call_depth p0 true s = Ret s' →
  (probe_ok s → probe_ok s') ∧ entries s ≡ₚ data_ s !!! p0 :: entries s'.
Proof.
  intros Hwf Hfit Hp0 Hocc0 Hdel.
  pose proof Hwf as ((Hlens & Hidx & Hchain) & Hmin & Hload).
  pose proof (wf0_pos s Hwf) as Hs.
  apply fits_load in Hfit.
  destruct (unlink_spec s p0 Hlens Hidx Hp0 Hocc0)
    as (Hlens1 & Hidx1 & Hsz1 & Hdat1 & Hcnt1 & Hfr1).
  destruct (first_free s p0 Hs (wf0_has_free s Hwf)) as (d0 & Hd0 & Hfd0 & Hrun0).
  destruct d0 as [|n].
  { rewrite slot_0 in Hfd0 by done. unfold occupied in Hocc0. congruence. }
  assert (Hnx: next (unlink p0 s) p0 = slot s p0 1).
  { change (next (unlink p0 s) p0) with (next s p0).
    rewrite <- (slot_0 s p0) at 1 by done. by rewrite slot_next. }
  assert (Hsl: ∀ m, slot (unlink p0 s) (slot s p0 1) m = slot s p0 (S m)).
  { intros m. rewrite (slot_size s (unlink p0 s)), slot_shift by done. done. }
  assert (Hne0: ∀ m, S m < size_ s → slot s p0 (S m) ≠ p0).
  { intros m Hm E. rewrite <- (slot_0 s p0) in E at 2 by done.
    apply slot_inj in E; lia. }
  destruct (FixPosition_evict_run n (size_ (unlink p0 s)) (slot s p0 1) []
              (unlink p0 s))
    as (s2 & Hres2 & Hlens2 & Hidx2 & Hsz2 & Hdat2 & Hcnt2 & Hocc2);
    [lia|done|done|rewrite Hsz1; by apply slot_lt|lia| | |lia|].
  { intros m Hm. rewrite Hsl. apply unlink_occupied; [done..|].
    split; [apply Hrun0; lia|apply Hne0; lia]. }
  { rewrite Hsl, Hfr1. rewrite list_lookup_total_insert_ne; [done|].
    intros E. symmetry in E. apply Hne0 in E; [done|lia]. }
  pose proof (FixPosition_evict_psl _ _ _ _ _ _ Hres2) as Hpsl_eq.
  change (psl_ (unlink p0 s)) with (psl_ s) in Hpsl_eq.
  set (elements := (λ m, data_ (unlink p0 s) !!! slot (unlink p0 s) (slot s p0 1) m)
                     <$> seq 0 n) in *.
  assert (Hocc2': ∀ q, occupied s2 q ↔
                       occupied s q ∧ ∀ m, m ≤ n → q ≠ slot s p0 m).
  { intros q. rewrite Hocc2, unlink_occupied by done. split.
    - intros [[Hq Hne] Hrest]. split; [done|].
      intros [|m] Hm; [by rewrite slot_0|]. rewrite <- Hsl. apply Hrest. lia.
    - intros [Hq Hrest]. split; [split; [done|]|].
      + specialize (Hrest 0 ltac:(lia)). by rewrite slot_0 in Hrest.
      + intros m Hm. rewrite Hsl. apply Hrest. lia. }
  assert (Hchain2: chain_ok s2).
  { apply (chain_after_evict s s2 p0 n); [done|congruence|congruence|done|done]. }
  assert (Hpsl2: probe_ok s → probe_ok s2).
  { intros [Hpsl Hrh]. split.
    - intros q Hq [Hqocc _]%Hocc2'.
      destruct (Hpsl q ltac:(lia) Hqocc) as (d & Hd & Hpd & Hqd). exists d.
      unfold keyAt, slot in *. rewrite Hpsl_eq, Hdat2, Hdat1, Hsz2, Hsz1. done.
    - intros q Hq [Hqocc _]%Hocc2'.
      rewrite (next_size s s2) by congruence. intros [Hnocc _]%Hocc2'.
      rewrite Hpsl_eq. apply Hrh; [lia|done|done]. }
  assert (Hlen: length elements = n).
  { unfold elements. by rewrite length_fmap, length_seq. }
  destruct (drain_spec 1 elements s2)
    as (s3 & Hres3 & _); [lia|done|by rewrite Hsz2, Hsz1|rewrite Hlen, Hsz2, Hsz1; lia|].
  destruct (drain_entries 1 elements s2 s3) as [Hpsl3 Hperm3];
    [lia|done|by rewrite Hsz2, Hsz1|rewrite Hlen, Hsz2, Hsz1; lia|done|].
  unfold DeleteElementByPosition, FixPosition in Hdel.
  rewrite Hnx, Hres2 in Hdel. cbn [bind app] in Hdel.
  change (InsertElement call_depth) with (InsertElement 2) in Hdel.
  rewrite Hres3 in Hdel. injection Hdel as <-.
  split; [by intros ?; apply Hpsl3, Hpsl2|].
  assert (Hpos: element_positions_ s ≡ₚ
                (slot s p0 <$> seq 0 (S n)) ++ element_positions_ s2).
  { apply positions_perm; [done| |].
    - apply NoDup_app. split; [|split; [|by apply idx_NoDup]].
      + apply NoDup_fmap_2_strong; [|apply NoDup_seq].
        intros a b [_ Ha]%elem_of_seq [_ Hb]%elem_of_seq E.
        apply slot_inj in E; lia.
      + intros q (m & -> & [_ Hm]%elem_of_seq)%list_elem_of_fmap
          [_ [_ Hq]%Hocc2']%idx_elem; [|done].
        apply (Hq m); [lia|done].
    - intros q. rewrite elem_of_app, list_elem_of_fmap, idx_elem by done. split.
      + intros [(m & -> & [_ Hm]%elem_of_seq)|[Hq [Hqocc _]%Hocc2']].
        * split; [by apply slot_lt|]. apply Hrun0. lia.
        * split; [lia|done].
      + intros [Hq Hqocc].
        destruct (slot_in_run_dec s p0 n q) as [(m & Hm & ->)|Hout].
        * left. exists m. split; [done|]. apply elem_of_seq. lia.
        * right. split; [lia|]. by apply Hocc2'. }
  assert (E1: (λ i, data_ s !!! i) <$> (slot s p0 <$> seq 1 n) = elements).
  { unfold elements. rewrite <- fmap_S_seq, <- !list_fmap_compose.
    apply list_fmap_ext. intros j m _. unfold compose. by rewrite Hsl, Hdat1. }
  assert (E2: (λ i, data_ s !!! i) <$> element_positions_ s2 = entries s2).
  { unfold entries. by rewrite Hdat2, Hdat1. }
  unfold entries at 1. rewrite Hpos, fmap_app. cbn [seq fmap list_fmap].
  rewrite slot_0 by done. simpl. apply Permutation_skip.
  rewrite E1, E2, Hperm3. apply Permutation_app_comm.
Qed.

Lemma assign_probe_ok i value s :
  i < length (data_ s) → probe_ok s → probe_ok (assign i value s).
Proof.
  intros Hi [Hpsl Hrh]. split; [|exact Hrh].
  intros q Hq Hocc. destruct (Hpsl q Hq Hocc) as (d & Hd & Hpd & Hqd).
  exists d. rewrite assign_keyAt by done. split; [done|]. split; [done|]. exact Hqd.
Qed.

Lemma clear_loop_probe_ok :
  ∀ fuel s s',
    wf0 s → fits s → probe_ok s → clear_loop fuel s = Ret s' → probe_ok s'.
Proof.
  induction fuel as [|fuel IH]; intros s s' Hwf Hfit Hpsl Hres; [done|].
  cbn [clear_loop] in Hres. pose proof Hwf as ((_ & (Hc & H2 & _) & _) & _).
  destruct (element_positions_ s) as [|p pos] eqn:Hpos; [by injection Hres as <-|].
  unfold DeleteElementByIndex in Hres. rewrite Hpos in Hres.
  simpl lookup_total in Hres.
  destruct (H2 0 p) as (Hp & Hocc & _); [done|].
  destruct (DeleteElementByPosition_spec s p Hwf Hfit Hp Hocc)
    as (s1 & Hdel & Hwf1 & Hsz1 & _).
  destruct (DeleteElementByPosition_entries s p s1 Hwf Hfit Hp Hocc Hdel) as [Hpsl1 _].
  rewrite Hdel in Hres. cbn [bind] in Hres.
  apply (IH s1 s'); [done|unfold fits in *; by rewrite Hsz1|by apply Hpsl1|done].
Qed.

Lemma constructing_probe_ok s : constructing s → probe_ok s.
Proof.
  induction 1 as [|s e i s' Hc IH Hfit Hins]; [apply Init_probe_ok|].
  by apply (InsertElement_entries e.1 e.2 s i s');
    [by apply constructing_wf0|done|done|].
Qed.

Lemma reachable_probe_ok s : reachable s → probe_ok s.
Proof.
  induction 1 as [s Hc|s e s' Hr IH Hfit Hop|s k s' Hr IH Hfit Hop
                  |s k i s' Hr IH Hfit Hop|s i v Hr IH Hi Hocc|s s' Hr IH Hfit Hop];
    try (pose proof (reachable_wf0 s Hr) as Hwf).
  - by apply constructing_probe_ok.
  - unfold insert in Hop.
    destruct (GetKeyIndex_wf0 e.1 s Hwf) as (p & Hres & Hp & _).
    rewrite Hres in Hop. cbn [bind] in Hop.
    destruct (free_places_ s !!! p); [|by injection Hop as <-].
    destruct (InsertElement call_depth e.1 e.2 s) as [[a s1]| |] eqn:Hins;
      simpl in Hop; try done.
    injection Hop as <-. by apply (InsertElement_entries e.1 e.2 s a s1).
  - unfold erase in Hop.
    destruct (GetKeyIndex_wf0 k s Hwf) as (p & Hres & Hp & _).
    rewrite Hres in Hop. cbn [bind] in Hop.
    destruct (free_places_ s !!! p) eqn:Hf; [by injection Hop as <-|].
    by apply (DeleteElementByPosition_entries s p s').
  - unfold index in Hop.
    destruct (GetKeyIndex_wf0 k s Hwf) as (p & Hres & Hp & _).
    rewrite Hres in Hop. cbn [bind] in Hop.
    destruct (free_places_ s !!! p); [|by injection Hop as _ <-].
    by apply (InsertElement_entries k ValueType0 s i s').
  - apply assign_probe_ok; [|done]. destruct Hwf as (((Hld & _) & _) & _). lia.
  - by apply (clear_loop_probe_ok (S (length (element_positions_ s))) s s').
Qed.

(** *** Lookups after an operation *)

(** Two tables storing the same elements under a key answer [at] alike. *)
Lemma at_agree s s' k :
  wf s → wf s' → (∀ v, stored s' (k, v) ↔ stored s (k, v)) →
  at_ k s' = at_ k s.
Proof.
  intros [Hwf Hu] Hwf' Hiff. destruct (has_key_dec s k Hwf) as [Hk|Hk].
  - destruct (at_present k s Hwf Hk) as (v & Hat & Hsto). rewrite Hat.
    apply at_stored; [done|]. by apply Hiff.
  - rewrite (at_absent k s) by done. apply at_absent; [apply Hwf'|].
    intros [v Hv]%has_key_stored. apply Hk, has_key_stored. exists v. by apply Hiff.
Qed.

(** The slot returned by [operator[]]. *)
Lemma index_slot key s :
  wf s → fits s →
  ∃ i s', index key s = Ret (i, s') ∧ wf s' ∧
    i < size_ s' ∧ occupied s' i ∧ keyAt s' i = key ∧
    (has_key s key → s' = s) ∧
    (¬ has_key s key →
       data_ s' !!! i = (key, ValueType0) ∧
       element_count_ s' = S (element_count_ s)) ∧
    (∀ e, e.1 ≠ key → stored s' e ↔ stored s e).
Proof.
  intros [Hwf Hu] Hfit.
  destruct (GetKeyIndex_wf0 key s Hwf) as (p & Hres & Hp & [[Hf Habs]|[Hocc Hk]]).
  - destruct (InsertElement_spec key ValueType0 s Hwf Hfit)
      as (a & s' & Hins & Hwf' & Hsz & Hcnt & Hsto & Huq).
    destruct (InsertElement_entries key ValueType0 s a s' Hwf Hfit Hins)
      as (_ & Ha & Hao & Had & _).
    exists a, s'. unfold index. rewrite Hres. cbn [bind]. rewrite Hf.
    split; [done|]. split; [split; [done|by apply Huq]|].
    split; [done|]. split; [done|].
    split; [unfold keyAt; by rewrite Had|]. split; [done|]. split; [done|].
    intros e He. rewrite Hsto. split; [|by left].
    intros [?| <-]; done.
  - exists p, s. unfold index. rewrite Hres. cbn [bind].
    pose proof Hocc as Hocc'. unfold occupied in Hocc'. rewrite Hocc'.
    split; [done|]. split; [done|]. split; [done|]. split; [done|].
    split; [done|]. split; [done|]. split; [|done].
    intros Habs. exfalso. apply Habs. by exists p.
Qed.

(** Writing through a reference replaces the value of the key of the slot
    and nothing else. *)
Lemma assign_stored i value s e :
  wf s → i < size_ s → occupied s i →
  stored (assign i value s) e ↔
  e = (keyAt s i, value) ∨ (stored s e ∧ e.1 ≠ keyAt s i).
Proof.
  intros [Hwf Hu] Hi Hocc. destruct Hwf as (((Hld & _) & _) & _).
  assert (Hd: ∀ q, data_ (assign i value s) !!! q =
                   if decide (q = i) then (keyAt s i, value) else data_ s !!! q).
  { intros q. simpl. case_decide as Hq.
    - subst. by rewrite list_lookup_total_insert_eq by lia.
    - by rewrite list_lookup_total_insert_ne. }
  split.
  - intros (q & Hq & Hqocc & Hqd). rewrite Hd in Hqd. case_decide as Hqi; [by left|].
    right. split; [by exists q|]. rewrite <- Hqd. intros E. apply Hqi.
    by apply Hu.
  - intros [->|[(q & Hq & Hqocc & Hqd) Hne]].
    + exists i. split; [done|]. split; [done|]. by rewrite Hd, decide_True.
    + exists q. split; [done|]. split; [done|]. rewrite Hd, decide_False; [done|].
      intros ->. apply Hne. by rewrite <- Hqd.
Qed.

Lemma assign_lookup i value s :
  wf s → i < size_ s → occupied s i →
  wf (assign i value s) ∧
  at_ (keyAt s i) (assign i value s) = Ret value ∧
  ∀ k, k ≠ keyAt s i → at_ k (assign i value s) = at_ k s.
Proof.
  intros Hwf Hi Hocc.
  assert (Hwf': wf (assign i value s)).
  { destruct Hwf as [Hwf Hu]. destruct (assign_spec i value s Hwf Hi) as [? Hu'].
    split; [done|by apply Hu']. }
  split; [done|]. split.
  - apply at_stored; [done|]. apply assign_stored; [done..|]. by left.
  - intros k Hk. apply at_agree; [done..|]. intros v.
    rewrite assign_stored by done. split.
    + intros [E|[? _]]; [|done]. injection E as -> _. done.
    + intros Hs. right. done.
Qed.

Lemma entries_assign i value s :
  idx_ok s → length (data_ s) = size_ s → i < size_ s → occupied s i →
  entries (assign i value s) =
    <[index_in_element_positions_ s !!! i := (keyAt s i, value)]> (entries s).
Proof.
  intros Hidx Hld Hi Hocc.
  by destruct (entries_swap_slot s i (keyAt s i, value) 0 Hidx Hld Hi Hocc) as [_ ?].
Qed.

(** The range constructors place every element of their range. *)
Lemma HashMap_fill_entries :
  ∀ l s,
    wf0 s →
    fits_capacity (capacity_after (length l) (size_ s) (element_count_ s)) →
    ∃ s', HashMap_fill l s = Ret s' ∧ wf0 s' ∧
      entries s' ≡ₚ entries s ++ l ∧
      element_count_ s' = element_count_ s + length l ∧
      size_ s' = capacity_after (length l) (size_ s) (element_count_ s).
Proof.
  induction l as [|e l IH]; intros s Hwf Hfit.
  - exists s. simpl. rewrite app_nil_r. split; [done|]. split; [done|].
    split; [done|]. split; [lia|done].
  - cbn [HashMap_fill length capacity_after] in *.
    assert (Hfits: fits s).
    { eapply fits_capacity_le; [|done].
      etrans; [apply (grown_le (size_ s) (element_count_ s))|].
      apply capacity_after_le. }
    destruct (InsertElement_spec e.1 e.2 s Hwf Hfits)
      as (a & s1 & Hres & Hwf1 & Hsz1 & Hcnt1 & _).
    destruct (InsertElement_entries e.1 e.2 s a s1 Hwf Hfits Hres)
      as (_ & _ & _ & _ & Hperm1).
    rewrite Hres. cbn [bind].
    rewrite grown_IsCoolLoad in Hsz1 by done.
    destruct (IH s1) as (s' & Hres' & Hwf' & Hperm' & Hcnt' & Hsz');
      [done|by rewrite Hsz1, Hcnt1|].
    exists s'. split; [done|]. split; [done|].
    split; [|split; [lia|by rewrite Hsz', Hsz1, Hcnt1]].
    rewrite Hperm', Hperm1. replace (e.1, e.2) with e by (by destruct e).
    simpl. apply Permutation_middle.
Qed.

(** On distinct keys the range constructors place what [insert] places. *)
Lemma HashMap_fill_insert_all :
  ∀ l s,
    wf s → NoDup l.*1 → (∀ e, e ∈ l → ¬ has_key s e.1) →
    fits_capacity (capacity_after (length l) (size_ s) (element_count_ s)) →
    HashMap_fill l s = insert_all l s.
Proof.
  induction l as [|e l IH]; intros s [Hwf Hu] Hnd Habs Hfit; [done|].
  cbn [HashMap_fill insert_all length capacity_after] in *.
  rewrite fmap_cons in Hnd. apply NoDup_cons in Hnd as [Hnin Hnd].
  assert (Hfits: fits s).
  { eapply fits_capacity_le; [|done].
    etrans; [apply (grown_le (size_ s) (element_count_ s))|].
    apply capacity_after_le. }
  assert (Habs0: ¬ has_key s e.1) by (apply Habs; by left).
  destruct (InsertElement_spec e.1 e.2 s Hwf Hfits)
    as (a & s1 & Hins & Hwf1 & Hsz1 & Hcnt1 & Hsto1 & Huq1).
  assert (Hinsert: insert e s = Ret s1).
  { destruct (GetKeyIndex_wf0 e.1 s Hwf) as (p & Hres & Hp & [[Hf _]|[Hocc Hk]]).
    - unfold insert. rewrite Hres. cbn [bind]. by rewrite Hf, Hins.
    - exfalso. apply Habs0. by exists p. }
  rewrite Hins, Hinsert. cbn [bind].
  rewrite grown_IsCoolLoad in Hsz1 by done.
  apply IH; [split; [done|by apply Huq1]|done| |by rewrite Hsz1, Hcnt1].
  intros x Hx [v Hv]%has_key_stored. apply Hsto1 in Hv as [Hv|Hv].
  - apply (Habs x); [by right|]. apply has_key_stored. eauto.
  - apply Hnin. injection Hv as -> _.
    apply list_elem_of_fmap. by exists x.
Qed.

Lemma capacity_shape_grow size :
  capacity_shape size → capacity_shape (SIZE_INCREASING_ON_REBUILD * size).
Proof.
  intros [k ->]. exists (S k). rewrite Nat.pow_succ_r'. lia.
Qed.

Lemma constructing_capacity s : constructing s → capacity_shape (size_ s).
Proof.
  induction 1 as [|s e i s' Hc IH Hfit Hins].
  - by exists 0.
  - destruct (InsertElement_spec e.1 e.2 s (constructing_wf0 s Hc) Hfit)
      as (a & s1 & Hres & _ & Hsz & _).
    rewrite Hres in Hins. injection Hins as _ <-. rewrite Hsz.
    destruct (IsCoolLoad _ _ _); [done|by apply capacity_shape_grow].
Qed.

Lemma insert_absent_entries e s s' :
  wf0 s → fits s → ¬ has_key s e.1 → insert e s = Ret s' →
  entries s' ≡ₚ e :: entries s.
Proof.
  intros Hwf Hfit Habs Hins.
  destruct (GetKeyIndex_wf0 e.1 s Hwf) as (p & Hres & Hp & [[Hf _]|[Hocc Hk]]).
  - unfold insert in Hins. rewrite Hres in Hins. cbn [bind] in Hins.
    rewrite Hf in Hins.
    destruct (InsertElement call_depth e.1 e.2 s) as [[a s1]| |] eqn:Hie;
      simpl in Hins; try done.
    injection Hins as <-.
    destruct (InsertElement_entries e.1 e.2 s a s1 Hwf Hfit Hie)
      as (_ & _ & _ & _ & Hperm).
    by replace (e.1, e.2) with e in Hperm by (by destruct e).
  - exfalso. apply Habs. by exists p.
Qed.

Lemma erase_present_entries key s p s' :
  wf0 s → fits s → GetKeyIndex key s = Ret p → p < size_ s → occupied s p →
  erase key s = Ret s' →
  entries s ≡ₚ data_ s !!! p :: entries s'.
Proof.
  intros Hwf Hfit Hres Hp Hocc Herase.
  unfold erase in Herase. rewrite Hres in Herase. cbn [bind] in Herase.
  pose proof Hocc as Hocc'. unfold occupied in Hocc'. rewrite Hocc' in Herase.
  by destruct (DeleteElementByPosition_entries s p s' Hwf Hfit Hp Hocc Herase).
Qed.

(** As many slots as a run of occupied slots is long hold an element. *)
Lemma run_le_count s h d :
  0 < size_ s → idx_ok s → d ≤ size_ s →
  (∀ m, m < d → occupied s (slot s h m)) → d ≤ element_count_ s.
Proof.
  intros Hs Hidx Hd Hrun. pose proof Hidx as (-> & _).
  trans (length (slot s h <$> seq 0 d)); [by rewrite length_fmap, length_seq|].
  apply submseteq_length, NoDup_submseteq.
  - apply NoDup_fmap_2_strong; [|apply NoDup_seq].
    intros a b [_ Ha]%elem_of_seq [_ Hb]%elem_of_seq E.
    apply slot_inj in E; lia.
  - intros q (m & -> & [_ Hm]%elem_of_seq)%list_elem_of_fmap.
    apply idx_elem; [done|]. split; [by apply slot_lt|apply Hrun; lia].
Qed.

(** The loop of [GetKeyIndex] is still running after as many iterations as
    it passes occupied slots holding other keys. *)
Lemma GetKeyIndex_loop_short key s :
  0 < size_ s →
  ∀ fuel d h,
    (∀ m, m < d → occupied s (slot s h m) ∧ keyAt s (slot s h m) ≠ key) →
    fuel ≤ d →
    GetKeyIndex_loop fuel key s (slot s h 0) = Timeout.
Proof.
  intros Hs. induction fuel as [|fuel IH]; intros d h Hbefore Hfuel; [done|].
  simpl. destruct (Hbefore 0 ltac:(lia)) as [Hocc Hkey].
  unfold occupied in Hocc. rewrite Hocc.
  unfold keyAt in Hkey. rewrite decide_False by done.
  rewrite slot_next by done. rewrite <- (slot_S s h 0).
  apply (IH (d - 1)); [|lia].
  intros m Hm. rewrite slot_S. apply Hbefore. lia.
Qed.

(** *** Properties beyond the specification

    As before, [fits s] says that the products of the load tests do not
    wrap around at the capacity of [s], also when the next operation
    rebuilds the table; [wf0] is the representation invariant and [wf] adds
    that no key is stored twice. *)

(** X1. In every reachable table the entry of [psl_] for an occupied slot is
    one more than the number of steps from the home slot of the key it
    holds (the hash value modulo the capacity) to the slot, and every slot
    passed on the way is occupied. *)
Theorem psl_counts_probe_steps s p :
  reachable s → p < size_ s → occupied s p →
  ∃ d, psl_ s !!! p = S d ∧ d < size_ s ∧
       p = (hash_ (keyAt s p) + d) mod size_ s ∧
       ∀ m, m < d → occupied s ((hash_ (keyAt s p) + m) mod size_ s).
Proof.
  intros Hr Hp Hocc. pose proof (reachable_wf0 s Hr) as Hwf.
  destruct (proj1 (reachable_probe_ok s Hr) p Hp Hocc) as (d & Hd & Hpd & Hqd).
  pose proof Hwf as ((_ & _ & Hch) & _).
  destruct (Hch p Hp Hocc) as (d' & Hd' & Hc').
  assert (d' = d) as ->.
  { apply (slot_inj s (hash_ (keyAt s p))); [|done|congruence].
    apply (run_lt_size s (hash_ (keyAt s p)));
      [by apply wf0_pos|by apply wf0_has_free|done]. }
  exists d. done.
Qed.

(** X2. On a table that stores every key once, [operator[]] returns a
    reference into an occupied slot that holds the key, and [at] of the key
    reads the value of that slot.  If the key was found the table is
    unchanged; if not, the slot holds the default value and [size()] has
    grown by one.  The other keys keep what [at] answered before, also when
    the table was rebuilt. *)
Theorem index_refers_to_key s key :
  wf s → fits s →
  ∃ i s', index key s = Ret (i, s') ∧
    i < size_ s' ∧ occupied s' i ∧ (data_ s' !!! i).1 = key ∧
    at_ key s' = Ret (data_ s' !!! i).2 ∧
    (found s key → s' = s) ∧
    (¬ found s key → (data_ s' !!! i).2 = ValueType0 ∧ size s' = S (size s)) ∧
    ∀ k, k ≠ key → at_ k s' = at_ k s.
Proof.
  intros Hwf Hfit.
  destruct (index_slot key s Hwf Hfit)
    as (i & s' & Hres & Hwf' & Hi & Hocc & Hk & Hsame & Hnew & Hframe).
  exists i, s'. split; [done|]. split; [done|]. split; [done|]. split; [done|].
  split; [|split; [|split]].
  - apply at_stored; [done|]. exists i. split; [done|]. split; [done|].
    unfold keyAt in Hk. rewrite <- Hk. by destruct (data_ s' !!! i).
  - intros Hf. apply Hsame. by apply found_has_key; [apply Hwf|].
  - intros Hnf. rewrite found_has_key in Hnf by apply Hwf.
    destruct (Hnew Hnf) as [-> Hcnt]. done.
  - intros k Hne. apply at_agree; [done..|]. intros v. by apply Hframe.
Qed.

(** X3. On a table that stores every key once, after [m[key] = value],
    [at(key)] returns [value], the assignment itself leaves [size()] alone,
    and [at] answers for every other key what it answered before the call
    of [operator[]]. *)
Theorem index_assign_then_at s key value :
  wf s → fits s →
  ∃ i s', index key s = Ret (i, s') ∧
    at_ key (assign i value s') = Ret value ∧
    size (assign i value s') = size s' ∧
    ∀ k, k ≠ key → at_ k (assign i value s') = at_ k s.
Proof.
  intros Hwf Hfit.
  destruct (index_slot key s Hwf Hfit)
    as (i & s' & Hres & Hwf' & Hi & Hocc & Hk & _ & _ & Hframe).
  destruct (assign_lookup i value s' Hwf' Hi Hocc) as (_ & Hat & Hother).
  rewrite Hk in Hat, Hother.
  exists i, s'. split; [done|]. split; [done|]. split; [done|].
  intros k Hne. rewrite Hother by done.
  apply at_agree; [done..|]. intros v. by apply Hframe.
Qed.

(** X4. On a table that stores every key once, writing [it->second = value]
    through the iterator that [find] returned for a key makes [at] of the
    key return [value]; iteration then yields the same sequence with the
    element at the position of the iterator replaced, and [at] answers
    alike for every other key. *)
Theorem find_set_second s key value it :
  wf s → find key s = Ret it → it ≠ end_ s →
  at_ key (set_second it value s) = Ret value ∧
  iterate (set_second it value s) = <[it := (key, value)]> (iterate s) ∧
  ∀ k, k ≠ key → at_ k (set_second it value s) = at_ k s.
Proof.
  intros Hwf Hfind Hne. pose proof Hwf as [Hwf0 Hu].
  destruct (GetKeyIndex_wf0 key s Hwf0) as (p & Hres & Hp & [[Hf _]|[Hocc Hk]]);
    unfold find in Hfind; rewrite Hres in Hfind; cbn [bind] in Hfind.
  { rewrite Hf in Hfind. congruence. }
  pose proof Hocc as Hocc'. unfold occupied in Hocc'. rewrite Hocc' in Hfind.
  injection Hfind as <-.
  pose proof Hwf0 as (((Hld & _) & Hidx & _) & _).
  pose proof Hidx as (_ & _ & H3).
  unfold set_second. rewrite (list_lookup_total_correct _ _ _ (H3 p Hp Hocc)).
  destruct (assign_lookup p value s Hwf Hp Hocc) as (_ & Hat & Hother).
  rewrite Hk in Hat, Hother. split; [done|]. split; [|done].
  rewrite !iterate_entries, entries_assign by done. by rewrite Hk.
Qed.

(** X5. On a table that stores every key once, [insert] of a key that is
    not found makes [at] return the inserted value and [size()] grow by one;
    [insert] of a key that is found changes nothing; and in both cases [at]
    answers for every other key what it answered before, also when the
    table was rebuilt. *)
Theorem insert_one_key s key value :
  wf s → fits s →
  ∃ s', insert (key, value) s = Ret s' ∧ wf s' ∧
    (¬ found s key → at_ key s' = Ret value ∧ size s' = S (size s)) ∧
    (found s key → s' = s) ∧
    ∀ k, k ≠ key → at_ k s' = at_ k s.
Proof.
  intros Hwf Hfit. pose proof Hwf as [Hwf0 Hu].
  destruct (has_key_dec s key Hwf0) as [Hkey|Habs].
  - exists s. split; [by apply insert_present|]. split; [done|].
    split; [|done]. intros Hnf. exfalso. by apply Hnf, found_has_key.
  - destruct (insert_absent (key, value) s Hwf0 Hfit Habs)
      as (s' & Hres & Hwf' & Hsz & Hcnt & Hsto & Huq).
    assert (Hwf1: wf s') by (split; [done|by apply Huq]).
    exists s'. split; [done|]. split; [done|]. split; [|split].
    + intros _. split; [|done]. apply at_stored; [done|]. apply Hsto. by right.
    + intros Hf. exfalso. by apply Habs, found_has_key.
    + intros k Hne. apply at_agree; [done..|]. intros v. rewrite Hsto.
      split; [|by left]. intros [?|E]; [done|]. by injection E as -> _.
Qed.

(** X6. [insert] of a key that is not found adds exactly its element to
    what iteration yields: the sequence afterwards is, up to order, the
    sequence before with the new element, also when the table was rebuilt
    and whether or not the table holds a key twice. *)
Theorem insert_adds_one_element s e :
  wf0 s → fits s → ¬ found s e.1 →
  ∃ s', insert e s = Ret s' ∧ iterate s' ≡ₚ e :: iterate s.
Proof.
  intros Hwf Hfit Hnf. rewrite found_has_key in Hnf by done.
  destruct (insert_absent e s Hwf Hfit Hnf) as (s' & Hres & _).
  exists s'. split; [done|]. rewrite !iterate_entries.
  by apply insert_absent_entries.
Qed.

(** X7. [erase] of a key that [find] finds removes exactly the element the
    iterator of [find] refers to: the sequence that iteration yielded before
    is, up to order, that element followed by the sequence it yields
    afterwards.  This holds on tables holding a key twice as well. *)
Theorem erase_removes_found_element s key it :
  wf0 s → fits s → find key s = Ret it → it ≠ end_ s →
  ∃ s', erase key s = Ret s' ∧ (deref s it).1 = key ∧
    iterate s ≡ₚ deref s it :: iterate s'.
Proof.
  intros Hwf Hfit Hfind Hne.
  destruct (GetKeyIndex_wf0 key s Hwf) as (p & Hres & Hp & [[Hf _]|[Hocc Hk]]);
    unfold find in Hfind; rewrite Hres in Hfind; cbn [bind] in Hfind.
  { rewrite Hf in Hfind. congruence. }
  pose proof Hocc as Hocc'. unfold occupied in Hocc'. rewrite Hocc' in Hfind.
  injection Hfind as <-.
  pose proof Hwf as ((_ & (_ & _ & H3) & _) & _).
  destruct (erase_spec key s Hwf Hfit) as (s' & Herase & _).
  exists s'. unfold deref.
  rewrite (list_lookup_total_correct _ _ _ (H3 p Hp Hocc)).
  split; [done|]. split; [done|]. rewrite !iterate_entries.
  by apply (erase_present_entries key).
Qed.

(** X8. The iterator-range and initializer-list constructors place every
    element they are given, repeated keys included: iteration over the new
    table yields the given elements up to order, [size()] is their number,
    and the capacity is the one reached by that many placements. *)
Theorem constructor_places_every_element elements :
  fits_capacity (capacity_after (length elements) DEFAULT_SIZE 0) →
  ∃ s, HashMap_of_list elements = Ret s ∧
    iterate s ≡ₚ elements ∧ size s = length elements ∧
    size_ s = capacity_after (length elements) DEFAULT_SIZE 0.
Proof.
  intros Hfit.
  destruct (HashMap_fill_entries elements (Init DEFAULT_SIZE))
    as (s & Hres & _ & Hperm & Hcnt & Hsz); [apply HashMap_new_wf|done|].
  exists s. split; [done|]. rewrite iterate_entries. by split.
Qed.

(** X9. Given elements with pairwise distinct keys, the range constructors
    return the very table that [insert] of each element in turn builds from
    the empty table, and that table stores every key once. *)
Theorem constructor_of_distinct_keys elements :
  NoDup elements.*1 →
  fits_capacity (capacity_after (length elements) DEFAULT_SIZE 0) →
  ∃ s, HashMap_of_list elements = Ret s ∧
    insert_all elements HashMap_new = Ret s ∧ wf s.
Proof.
  intros Hnd Hfit.
  assert (Habs: ∀ e, e ∈ elements → ¬ has_key (Init DEFAULT_SIZE) e.1).
  { intros e _ [v Hv]%has_key_stored. by apply Init_stored in Hv. }
  destruct (insert_all_spec elements HashMap_new HashMap_new_wf Hnd Habs Hfit)
    as (s & Hres & Hwf & _).
  exists s. split; [|done]. unfold HashMap_of_list.
  by rewrite (HashMap_fill_insert_all elements (Init DEFAULT_SIZE) HashMap_new_wf).
Qed.

(** X10. The capacity of every reachable table is [DEFAULT_SIZE] times a
    power of [SIZE_INCREASING_ON_REBUILD], that is 64 * 4 ^ k. *)
Theorem reachable_capacity s :
  reachable s → ∃ k, size_ s = DEFAULT_SIZE * SIZE_INCREASING_ON_REBUILD ^ k.
Proof.
  intros Hr. change (capacity_shape (size_ s)).
  induction Hr as [s Hc|s e s' Hr IH Hfit Hop|s k s' Hr IH Hfit Hop
                  |s k i s' Hr IH Hfit Hop|s i v Hr IH Hi Hocc|s s' Hr IH Hfit Hop];
    try (pose proof (reachable_wf0 s Hr) as Hwf).
  - by apply constructing_capacity.
  - destruct (insert_spec e s Hwf Hfit) as (s1 & Hres & _ & _ & Hsz).
    rewrite Hres in Hop. injection Hop as <-.
    destruct Hsz as [-> | ->]; [done|by apply capacity_shape_grow].
  - destruct (erase_spec k s Hwf Hfit) as (s1 & Hres & _ & _ & Hsz).
    rewrite Hres in Hop. injection Hop as <-. by rewrite Hsz.
  - destruct (index_spec k s Hwf Hfit) as (i1 & s1 & Hres & _ & _ & Hsz).
    rewrite Hres in Hop. injection Hop as _ <-.
    destruct Hsz as [-> | ->]; [done|by apply capacity_shape_grow].
  - done.
  - destruct (clear_spec s Hwf Hfit) as (s1 & Hres & _ & Hsz & _).
    rewrite Hres in Hop. injection Hop as <-. by rewrite Hsz.
Qed.

(** X11. [insert] of a key that is not found keeps the capacity when the
    element count times 100 is below [MAX_LOAD_FACTOR] times the capacity
    and multiplies it by four otherwise; after such a resize the table,
    the new element counted, is at most half full. *)
Theorem insert_grows_at_load_factor s e :
  wf0 s → fits s → ¬ found s e.1 →
  ∃ s', insert e s = Ret s' ∧ size s' = S (size s) ∧
    (size s * 100 < MAX_LOAD_FACTOR * size_ s → size_ s' = size_ s) ∧
    (MAX_LOAD_FACTOR * size_ s ≤ size s * 100 →
       size_ s' = SIZE_INCREASING_ON_REBUILD * size_ s ∧
       size s' * 100 ≤ MAX_LOAD_FACTOR_ON_REBUILD * size_ s').
Proof.
  intros Hwf Hfit Hnf. rewrite found_has_key in Hnf by done.
  destruct (insert_absent e s Hwf Hfit Hnf) as (s' & Hres & _ & Hsz & Hcnt & _).
  destruct Hwf as (_ & Hmin & Hload).
  exists s'. split; [done|]. split; [done|].
  unfold grown in Hsz. unfold size, load_ok, DEFAULT_SIZE, MAX_LOAD_FACTOR,
    MAX_LOAD_FACTOR_ON_REBUILD, SIZE_INCREASING_ON_REBUILD in *.
  destruct (element_count_ s * 100 <? 80 * size_ s) eqn:Hlt.
  - apply Nat.ltb_lt in Hlt. split; [done|lia].
  - apply Nat.ltb_ge in Hlt. split; [lia|]. intros _. split; [done|lia].
Qed.

(** X12. After [clear] on a reachable table, [empty()] holds, [begin()]
    equals [end()], and for every key [find] returns [end()], [at] throws
    and [erase] changes nothing. *)
Theorem clear_then_lookup s key :
  reachable s → fits s →
  ∃ s', clear s = Ret s' ∧ empty s' = true ∧ begin_ s' = end_ s' ∧
    find key s' = Ret (end_ s') ∧ at_ key s' = Throw out_of_range ∧
    erase key s' = Ret s'.
Proof.
  intros Hr Hfit. pose proof (reachable_wf0 s Hr) as Hwf.
  destruct (clear_spec s Hwf Hfit) as (s' & Hres & Hwf' & _ & Hcnt & _).
  assert (Habs: ¬ has_key s' key).
  { intros [v Hv]%has_key_stored. by apply (idx_empty s' (key, v)); [apply Hwf'|..]. }
  exists s'. split; [done|]. split; [unfold empty; by rewrite Hcnt|].
  split.
  { destruct Hwf' as ((_ & (Hc & _) & _) & _). unfold begin_, end_. lia. }
  split; [by apply find_absent|]. split; [by apply at_absent|by apply erase_absent].
Qed.

(** X13. On every reachable table, also one built by a range constructor
    from repeated keys, iteration from [begin()] to [end()] takes [size()]
    steps, yields at step [it] the element the iterator [it] refers to,
    yields exactly the keys that [find] finds, and yields nothing exactly
    when [empty()] holds; if no key is stored twice it yields no key
    twice. *)
Theorem iteration_on_reachable s :
  reachable s →
  length (iterate s) = size s ∧
  (∀ it, it < end_ s → iterate s !! it = Some (deref s it)) ∧
  (∀ key, key ∈ (iterate s).*1 ↔ found s key) ∧
  (empty s = true ↔ iterate s = []) ∧
  (uniq s → NoDup (iterate s).*1).
Proof.
  intros Hr. pose proof (reachable_wf0 s Hr) as Hwf.
  destruct (iterate_found s Hwf) as [Hkeys Hlen].
  split; [done|]. split; [|split; [done|split]].
  - intros it Hit. rewrite iterate_entries. unfold entries, deref, end_ in *.
    rewrite list_lookup_fmap.
    by rewrite (list_lookup_lookup_total_lt (element_positions_ s) it Hit).
  - unfold empty. unfold size in Hlen. rewrite Nat.eqb_eq, <- Hlen. split.
    + apply nil_length_inv.
    + by intros ->.
  - intros Hu. by apply iterate_keys.
Qed.

(** X14. [Rebuild] multiplies the capacity by four in one step of its
    loop, keeps what iteration yields up to order (also on a table holding
    a key twice), leaves the table less than half full and [psl_] right,
    and does not nest: a larger bound on the nesting of [InsertElement] and
    [Rebuild] gives the same table. *)
Theorem Rebuild_keeps_every_element depth s :
  wf0 s → fits s →
  ∃ s', Rebuild (S depth) s = Ret s' ∧ Rebuild 1 s = Ret s' ∧
    iterate s' ≡ₚ iterate s ∧
    size_ s' = SIZE_INCREASING_ON_REBUILD * size_ s ∧
    size s' * 100 < MAX_LOAD_FACTOR_ON_REBUILD * size_ s' ∧
    psl_ok s'.
Proof.
  intros Hwf Hfit.
  destruct (Rebuild_spec depth s Hwf Hfit) as (s' & Hres & _ & Hsz & Hcnt & _).
  destruct (Rebuild_entries depth s s' Hwf Hfit Hres) as [[Hpsl _] Hperm].
  exists s'. split; [done|]. split; [by rewrite <- (Rebuild_depth depth)|].
  split; [by rewrite !iterate_entries|]. split; [done|]. split; [|done].
  destruct Hwf as (_ & Hmin & Hload).
  unfold size, load_ok, DEFAULT_SIZE, MAX_LOAD_FACTOR, MAX_LOAD_FACTOR_ON_REBUILD,
    SIZE_INCREASING_ON_REBUILD in *. lia.
Qed.

(** X15. [insert] of a key that is not found followed by [erase] of that
    key gives back the contents: iteration yields the sequence of before up
    to order, [size()] is as before, and [at] answers for every key what it
    answered before, also when the insertion rebuilt the table. *)
Theorem insert_then_erase s key value :
  wf s → fits_capacity (SIZE_INCREASING_ON_REBUILD * size_ s) → ¬ found s key →
  ∃ s1 s2, insert (key, value) s = Ret s1 ∧ erase key s1 = Ret s2 ∧
    iterate s2 ≡ₚ iterate s ∧ size s2 = size s ∧
    ∀ k, at_ k s2 = at_ k s.
Proof.
  intros Hwf Hfit4 Hnf. pose proof Hwf as [Hwf0 Hu].
  rewrite found_has_key in Hnf by done.
  assert (Hfit: fits s).
  { eapply fits_capacity_le; [|done]. unfold SIZE_INCREASING_ON_REBUILD. lia. }
  destruct (insert_absent (key, value) s Hwf0 Hfit Hnf)
    as (s1 & Hins & Hwf1 & Hsz1 & Hcnt1 & Hsto1 & Huq1).
  pose proof (insert_absent_entries (key, value) s s1 Hwf0 Hfit Hnf Hins) as Hperm1.
  assert (Hfit1: fits s1).
  { apply (fits_capacity_le _ (SIZE_INCREASING_ON_REBUILD * size_ s)); [|done].
    rewrite Hsz1.
    destruct (grown_cases (size_ s) (element_count_ s)) as [-> | ->];
      unfold SIZE_INCREASING_ON_REBUILD; lia. }
  assert (Hkey1: has_key s1 key).
  { apply has_key_stored. exists value. apply Hsto1. by right. }
  destruct (erase_present key s1 Hwf1 Hfit1 Hkey1)
    as (p & s2 & Hres & Hp & Hocc & Hk & Herase & Hwf2 & Hsz2 & Hcnt2 & Hsto2 & Huq2).
  pose proof (erase_present_entries key s1 p s2 Hwf1 Hfit1 Hres Hp Hocc Herase)
    as Hperm2.
  assert (Hdp: data_ s1 !!! p = (key, value)).
  { assert (Hsp: stored s1 (data_ s1 !!! p)) by (by exists p).
    apply Hsto1 in Hsp as [Hsp|Hsp]; [|done].
    exfalso. apply Hnf, has_key_stored. exists (data_ s1 !!! p).2.
    unfold keyAt in Hk. rewrite <- Hk. by destruct (data_ s1 !!! p). }
  exists s1, s2. split; [done|]. split; [done|]. split; [|split].
  - rewrite !iterate_entries. rewrite Hperm1, Hdp in Hperm2.
    symmetry. by apply Permutation_cons_inv in Hperm2.
  - unfold size. lia.
  - intros k. apply at_agree; [done|split; [done|by apply Huq2, Huq1]|].
    intros v. rewrite Hsto2. split.
    + intros (q & Hq & Hqp & Hqocc & Hqd).
      assert (Hsq: stored s1 (k, v)) by (by exists q).
      apply Hsto1 in Hsq as [Hsq|Hsq]; [done|].
      exfalso. apply Hqp. apply (Huq1 Hu); [done..|].
      unfold keyAt. rewrite Hqd, Hdp. by injection Hsq as -> _.
    + intros Hs.
      assert (Hsq: stored s1 (k, v)) by (apply Hsto1; by left).
      destruct Hsq as (q & Hq & Hqocc & Hqd). exists q.
      split; [done|]. split; [|done]. intros ->. apply Hnf, has_key_stored.
      exists v. rewrite Hdp in Hqd. by injection Hqd as -> ->.
Qed.

(** X16. On a table that stores every key once, [find] of the key an
    iterator refers to returns that iterator, and [at] of the key returns
    the value the iterator refers to. *)
Theorem find_inverts_deref s it :
  wf s → it < end_ s →
  find (deref s it).1 s = Ret it ∧ at_ (deref s it).1 s = Ret (deref s it).2.
Proof.
  intros Hwf Hit. pose proof Hwf as [Hwf0 Hu].
  pose proof Hwf0 as ((_ & (_ & H2 & _) & _) & _).
  destruct (lookup_lt_is_Some_2 (element_positions_ s) it Hit) as [p Hp].
  destruct (H2 _ _ Hp) as (Hplt & Hocc & Hidx).
  unfold deref. rewrite (list_lookup_total_correct _ _ _ Hp).
  destruct (GetKeyIndex_stored (data_ s !!! p).1 (data_ s !!! p).2 s Hwf)
    as (q & Hres & Hq & Hqocc & Hqd).
  { exists p. split; [done|]. split; [done|]. by destruct (data_ s !!! p). }
  assert (q = p) as ->.
  { apply Hu; try done. unfold keyAt. by rewrite Hqd. }
  unfold find, at_. rewrite Hres. cbn [bind]. unfold occupied in Hocc.
  rewrite Hocc. by rewrite Hidx.
Qed.

(** X17. On every well-formed table the loop of [GetKeyIndex] has left
    after at most [size() + 1] iterations, whatever the key: run for any
    number of iterations above [size()] it returns a slot, the one
    [GetKeyIndex] returns, which is below the capacity and is free if no
    slot holds the key and otherwise occupied and holding the key. *)
Theorem lookup_within_size_probes s key fuel :
  wf0 s → size s < fuel →
  ∃ p, GetKeyIndex_loop fuel key s (hash_ key mod size_ s) = Ret p ∧
       GetKeyIndex key s = Ret p ∧ p < size_ s ∧
       ((free_places_ s !!! p = true ∧ ¬ has_key s key) ∨
        (occupied s p ∧ keyAt s p = key)).
Proof.
  intros Hwf Hfuel. pose proof (wf0_pos s Hwf) as Hs.
  destruct (GetKeyIndex_spec key s Hs (wf0_has_free s Hwf))
    as (d & Hd & Hres & Hstop & Hbefore).
  destruct (GetKeyIndex_wf0 key s Hwf) as (p & Hres' & Hp & Hcase).
  assert (p = slot s (hash_ key) d) as Ep by congruence.
  exists p. split; [|done]. rewrite Ep.
  replace (hash_ key mod size_ s) with (slot s (hash_ key) 0)
    by (unfold slot; by rewrite Nat.add_0_r).
  apply GetKeyIndex_loop_run; [done|done| |].
  - destruct Hstop as [?|[_ ?]]; [by left|by right].
  - assert (d ≤ element_count_ s).
    { apply (run_le_count s (hash_ key)); [done|apply Hwf|lia|].
      intros m Hm. by apply Hbefore. }
    unfold size in Hfuel. lia.
Qed.

(** X18. In a reachable table that stores every key once, the entry of
    [psl_] for an occupied slot is the number of slots the loop of
    [GetKeyIndex] inspects to find the key of that slot: that many
    iterations return the slot and one fewer do not finish. *)
Theorem psl_is_lookup_cost s p :
  reachable s → uniq s → p < size_ s → occupied s p →
  GetKeyIndex_loop (psl_ s !!! p) (keyAt s p) s
    (hash_ (keyAt s p) mod size_ s) = Ret p ∧
  GetKeyIndex_loop (psl_ s !!! p - 1) (keyAt s p) s
    (hash_ (keyAt s p) mod size_ s) = Timeout.
Proof.
  intros Hr Hu Hp Hocc. pose proof (reachable_wf0 s Hr) as Hwf.
  pose proof (wf0_pos s Hwf) as Hs.
  destruct (proj1 (reachable_probe_ok s Hr) p Hp Hocc) as (d & Hd & Hpd & Hqd).
  pose proof Hwf as ((_ & _ & Hch) & _).
  destruct (Hch p Hp Hocc) as (d' & Hd' & Hc').
  assert (d' = d) as ->.
  { apply (slot_inj s (hash_ (keyAt s p))); [|done|congruence].
    apply (run_lt_size s (hash_ (keyAt s p))); [done|by apply wf0_has_free|done]. }
  assert (Hbefore: ∀ m, m < d →
            occupied s (slot s (hash_ (keyAt s p)) m) ∧
            keyAt s (slot s (hash_ (keyAt s p)) m) ≠ keyAt s p).
  { intros m Hm. split; [by apply Hc'|]. intros E.
    apply Hu in E; [|by apply slot_lt|done|by apply Hc'|done].
    rewrite Hqd in E at 2. apply slot_inj in E; lia. }
  replace (hash_ (keyAt s p) mod size_ s) with (slot s (hash_ (keyAt s p)) 0)
    by (unfold slot; by rewrite Nat.add_0_r).
  rewrite Hpd. split.
  - rewrite Hqd at 3. apply GetKeyIndex_loop_run; [done|done| |lia].
    right. by rewrite <- Hqd.
  - apply (GetKeyIndex_loop_short _ s Hs _ d); [done|lia].
Qed.

(** X19. [erase] of a key followed by [insert] of that key with the value
    [at] returned for it gives back the contents: iteration yields the
    sequence of before up to order, [size()] and the capacity are as before
    (the insertion never rebuilds), and [at] answers for every key what it
    answered before. *)
Theorem erase_then_insert s key value :
  wf s → fits s → at_ key s = Ret value →
  ∃ s1 s2, erase key s = Ret s1 ∧ insert (key, value) s1 = Ret s2 ∧
    iterate s2 ≡ₚ iterate s ∧ size s2 = size s ∧ size_ s2 = size_ s ∧
    ∀ k, at_ k s2 = at_ k s.
Proof.
  intros Hwf Hfit Hat. pose proof Hwf as [Hwf0 Hu].
  pose proof (at_Ret_stored key value s Hwf0 Hat) as Hsto.
  assert (Hkey: has_key s key) by (apply has_key_stored; eauto).
  destruct (erase_present key s Hwf0 Hfit Hkey)
    as (p & s1 & Hres & Hp & Hocc & Hk & Herase & Hwf1 & Hsz1 & Hcnt1 & Hsto1 & Huq1).
  pose proof (erase_present_entries key s p s1 Hwf0 Hfit Hres Hp Hocc Herase)
    as Hperm1.
  assert (Hdp: data_ s !!! p = (key, value)).
  { destruct Hsto as (q & Hq & Hqocc & Hqd). assert (q = p) as ->; [|done].
    apply Hu; [done..|]. rewrite Hk. unfold keyAt. by rewrite Hqd. }
  assert (Habs1: ¬ has_key s1 key).
  { intros [v (q & Hq & Hne & Hqocc & Hqd)%Hsto1]%has_key_stored.
    apply Hne. apply Hu; [done..|]. rewrite Hk. unfold keyAt. by rewrite Hqd. }
  assert (Hfit1: fits s1) by (unfold fits in *; by rewrite Hsz1).
  destruct (insert_absent (key, value) s1 Hwf1 Hfit1 Habs1)
    as (s2 & Hins & Hwf2 & Hsz2 & Hcnt2 & Hsto2 & Huq2).
  pose proof (insert_absent_entries (key, value) s1 s2 Hwf1 Hfit1 Habs1 Hins)
    as Hperm2.
  exists s1, s2. split; [done|]. split; [done|]. split; [|split; [|split]].
  - rewrite !iterate_entries. by rewrite Hperm2, Hperm1, Hdp.
  - unfold size. lia.
  - rewrite Hsz2, Hsz1. unfold grown. destruct Hwf0 as (_ & Hmin & Hload).
    unfold load_ok, MAX_LOAD_FACTOR in *.
    replace (_ <? _) with true; [done|]. symmetry. apply Nat.ltb_lt. lia.
  - intros k. apply at_agree; [done|split; [done|by apply Huq2, Huq1]|].
    intros v. rewrite Hsto2, Hsto1. split.
    + intros [(q & Hq & Hne & Hqocc & Hqd)|E]; [by exists q|].
      by injection E as <- <-.
    + intros (q & Hq & Hqocc & Hqd). destruct (decide (q = p)) as [->|Hne].
      * right. by rewrite Hdp in Hqd.
      * left. by exists q.
Qed.

(** X20. In every reachable table the four vectors indexed by slots have as
    many entries as the capacity, [element_positions_] lists every occupied
    slot once and no other slot, [size()] is its length, and
    [index_in_element_positions_] maps every listed slot back to its
    position in the list. *)
Theorem reachable_index_vectors s :
  reachable s →
  length (data_ s) = size_ s ∧ length (psl_ s) = size_ s ∧
  length (free_places_ s) = size_ s ∧
  length (index_in_element_positions_ s) = size_ s ∧
  size s = length (element_positions_ s) ∧
  NoDup (element_positions_ s) ∧
  (∀ p, p ∈ element_positions_ s ↔ p < size_ s ∧ occupied s p) ∧
  (∀ it p, element_positions_ s !! it = Some p →
     index_in_element_positions_ s !!! p = it).
Proof.
  intros Hr.
  destruct (reachable_wf0 s Hr) as (((Hld & Hlp & Hlf & Hli) & Hidx & _) & _).
  pose proof Hidx as (Hc & Hpos & _).
  split; [done|]. split; [done|]. split; [done|]. split; [done|].
  split; [done|]. split; [by apply idx_NoDup|]. split.
  - intros p. by apply idx_elem.
  - intros it p Hp. by destruct (Hpos _ _ Hp) as (_ & _ & ?).
Qed.

(** X21. In every reachable table the Robin Hood order holds: if a slot and
    the slot after it (after the last slot, the first one) are both
    occupied, the entry of [psl_] for the second is at most one more than
    the entry for the first. *)
Theorem robin_hood_order s p :
  reachable s → p < size_ s → occupied s p →
  occupied s ((p + 1) mod size_ s) →
  psl_ s !!! ((p + 1) mod size_ s) ≤ S (psl_ s !!! p).
Proof.
  intros Hr Hp Hocc Hn. rewrite <- next_mod in * by done.
  by apply (proj2 (reachable_probe_ok s Hr)).
Qed.

(** X22. The table of the default constructor, whatever the hash function,
    has capacity [DEFAULT_SIZE] and is empty: [size()] is 0, [empty()]
    holds, iteration yields nothing, and for every key [find] returns
    [end()], [at] throws and [erase] changes nothing. *)
Theorem default_constructor_empty key :
  size_ HashMap_new = DEFAULT_SIZE ∧ size HashMap_new = 0 ∧
  empty HashMap_new = true ∧ iterate HashMap_new = [] ∧
  find key HashMap_new = Ret (end_ HashMap_new) ∧
  at_ key HashMap_new = Throw out_of_range ∧
  erase key HashMap_new = Ret HashMap_new.
Proof.
  assert (Habs: ¬ has_key HashMap_new key).
  { intros [v Hv]%has_key_stored. by apply Init_stored in Hv. }
  pose proof HashMap_new_wf as [Hwf _].
  split; [done|]. split; [done|]. split; [done|]. split; [done|].
  split; [by apply find_absent|].
  split; [by apply at_absent|by apply erase_absent].
Qed.

(** X23. On a table that stores every key once, [erase(key)] returns a
    table that again stores every key once and holds the key in no slot:
    [find] of it yields [end()] and [at] throws.  [size()] drops by one if
    a slot held the key, and the table is unchanged otherwise.  Under every
    other key the same elements are stored as before, and [at] and [find]
    return them. *)
Theorem erase_then_find s key :
  wf s → fits s →
  ∃ s', erase key s = Ret s' ∧ wf s' ∧
    ¬ has_key s' key ∧ find key s' = Ret (end_ s') ∧
    at_ key s' = Throw out_of_range ∧
    (has_key s key → S (size s') = size s) ∧
    (¬ has_key s key → s' = s) ∧
    ∀ k v, k ≠ key →
      (stored s' (k, v) ↔ stored s (k, v)) ∧
      (stored s (k, v) →
         at_ k s' = Ret v ∧
         ∃ it, find k s' = Ret it ∧ it ≠ end_ s' ∧ deref s' it = (k, v)).
Proof.
  intros [Hwf Hu] Hfit. destruct (has_key_dec s key Hwf) as [Hkey|Habs].
  - destruct (erase_present key s Hwf Hfit Hkey)
      as (p & s' & _ & Hp & Hocc & Hk & Hres & Hwf' & Hsz & Hcnt & Hsto & Huq).
    assert (Hwf1: wf s') by (split; [done|by apply Huq]).
    assert (Hgone: ¬ has_key s' key).
    { intros [v (q & Hq & Hne & Hqocc & Hqd)%Hsto]%has_key_stored.
      apply Hne. apply Hu; [done..|]. unfold keyAt. by rewrite Hqd. }
    assert (Hiff: ∀ k v, k ≠ key → stored s' (k, v) ↔ stored s (k, v)).
    { intros k v Hne. rewrite Hsto. split.
      - intros (q & Hq & _ & Hqocc & Hqd). by exists q.
      - intros (q & Hq & Hqocc & Hqd). exists q. split; [done|].
        split; [|done]. intros ->. apply Hne.
        unfold keyAt in Hk. by rewrite Hqd in Hk. }
    exists s'. split; [done|]. split; [done|]. split; [done|].
    split; [by apply find_absent|]. split; [by apply at_absent|].
    split; [intros _; unfold size; lia|]. split; [done|].
    intros k v Hne. split; [by apply Hiff|].
    intros Hs. apply wf_lookup; [done|]. by apply Hiff.
  - exists s. split; [by apply erase_absent|]. split; [done|].
    split; [done|]. split; [by apply find_absent|].
    split; [by apply at_absent|]. split; [done|]. split; [done|].
    intros k v Hne. split; [done|]. intros Hs. by apply wf_lookup.
Qed.

(** X24. [Rebuild] of a table that stores every key once returns a table
    four times as large that again stores every key once, with the same
    number of elements and the same elements stored; [at] answers for
    every key what it answered before, and [find] finds every stored
    element. *)
Theorem Rebuild_keeps_elements depth s :
  wf s → fits s →
  ∃ s', Rebuild (S depth) s = Ret s' ∧ wf s' ∧
    size_ s' = SIZE_INCREASING_ON_REBUILD * size_ s ∧
    element_count_ s' = element_count_ s ∧
    (∀ e, stored s' e ↔ stored s e) ∧
    (∀ k, at_ k s' = at_ k s) ∧
    ∀ k v, stored s (k, v) →
      at_ k s' = Ret v ∧
      ∃ it, find k s' = Ret it ∧ it ≠ end_ s' ∧ deref s' it = (k, v).
Proof.
  intros [Hwf Hu] Hfit.
  destruct (Rebuild_spec depth s Hwf Hfit)
    as (s' & Hres & Hsound & Hsz & Hcnt & Hsto & Huq).
  assert (Hwf1: wf s').
  { split; [split; [done|]|by apply Huq].
    destruct Hwf as (_ & Hmin & Hload).
    unfold load_ok, DEFAULT_SIZE, MAX_LOAD_FACTOR, SIZE_INCREASING_ON_REBUILD in *.
    lia. }
  exists s'. split; [done|]. split; [done|]. split; [done|]. split; [done|].
  split; [done|]. split.
  - intros k. apply at_agree; [done..|]. intros v. apply Hsto.
  - intros k v Hs. apply wf_lookup; [done|]. by apply Hsto.
Qed.

End HashMapModel.

(** ** Tables of integers *)

(** The three colliding keys in a fresh table. *)
Abbreviation chain3 := (table_of hash_collide 0 0 range16 three).

Lemma doubled_keys n : (doubled n).*1 = seq 1 n.
Proof.
  unfold doubled. rewrite <- list_fmap_compose.
  rewrite <- (list_fmap_id (seq 1 n)) at 2. by apply list_fmap_ext.
Qed.

Lemma chain3_built :
  insert_all hash_collide 0 0 range16 three (HashMap_new 0 0) = Ret chain3 ∧
  built hash_collide 0 0 range16 chain3.
Proof.
  apply table_of_built.
  - apply (NoDup_seq 1 3).
  - apply Nat.ltb_lt. vm_compute. reflexivity.
Qed.

Lemma chain3_fits : fits range16 chain3.
Proof. apply Nat.ltb_lt. vm_compute. reflexivity. Qed.

(** C9. Whatever the hash function, [insert] of the keys 1..100, each with
    twice the key as its value, into a fresh table of capacity 64 returns a
    table of capacity 256 = 4 * 64 with [size() = 100] and [at(57) = 114].
    The hypothesis says that the load tests of a table of capacity 256 do
    not wrap around. *)
Theorem hundred_keys (hash_ : nat → nat) (size_range : nat) :
  fits_capacity size_range 256 →
  ∃ s, insert_all hash_ 0 0 size_range (doubled 100) (HashMap_new 0 0) = Ret s ∧
    size_ (HashMap_new (V:=nat) 0 0) = 64 ∧ size_ s = 256 ∧
    size s = 100 ∧ at_ hash_ 0 0 57 s = Ret 114.
Proof.
  intros Hfit.
  destruct (insert_all_spec hash_ 0 0 size_range (doubled 100) (HashMap_new 0 0))
    as (s & Hres & Hwf & Hsz & Hcnt & Hsto & _).
  - apply HashMap_new_wf.
  - rewrite doubled_keys. apply NoDup_seq.
  - intros e _ [v Hv]%has_key_stored. by apply Init_stored in Hv.
  - replace (capacity_after _ _ _) with 256; [done|]. vm_compute. reflexivity.
  - exists s. split; [done|]. split; [done|]. split.
    { rewrite Hsz. vm_compute. reflexivity. }
    split; [unfold size; by rewrite Hcnt|].
    apply at_stored; [done|]. apply Hsto. right.
    apply list_elem_of_fmap. exists 57. split; [done|].
    apply elem_of_seq. lia.
Qed.

(** C5, counterexample. After [insert] of the keys 1..52 into a fresh table
    (identity hash) the table holds 52 elements in 64 slots, and
    52 * 100 < 80 * 64 fails. *)
Lemma load_bound_counterexample :
  ∃ s, insert_all hash_id 0 0 range16 (doubled 52) (HashMap_new 0 0) = Ret s ∧
    element_count_ s = 52 ∧ size_ s = 64 ∧
    ¬ (element_count_ s * 100 < MAX_LOAD_FACTOR * size_ s).
Proof.
  eexists. split; [vm_compute; reflexivity|].
  split; [done|]. split; [done|]. simpl. unfold MAX_LOAD_FACTOR. lia.
Qed.

(** C6, failing input. The constructor given the elements (1,10), (1,20)
    returns a reachable table of two elements whose iteration yields the
    key 1 twice. *)
Lemma constructor_keeps_duplicates :
  ∃ s, HashMap_of_list hash_id 0 0 range16 [(1, 10); (1, 20)] = Ret s ∧
    reachable hash_id 0 0 range16 s ∧ size s = 2 ∧
    (iterate 0 0 s).*1 = [1; 1] ∧ ¬ NoDup (iterate 0 0 s).*1.
Proof.
  destruct (HashMap_fill_constructing hash_id 0 0 range16 [(1, 10); (1, 20)]
              (Init 0 0 DEFAULT_SIZE)) as (s & Hres & Hc).
  - apply constructing_Init.
  - apply Nat.ltb_lt. vm_compute. reflexivity.
  - exists s. split; [done|]. split; [by apply reachable_ctor|].
    vm_compute in Hres. injection Hres as <-.
    split; [done|]. split; [done|].
    intros Hnd. vm_compute in Hnd. apply NoDup_cons in Hnd as [Hin _].
    apply Hin. by left.
Qed.

(** C2, failing input. The constructor given the elements (1,10), (1,20)
    returns a reachable table of two elements; [erase(1)] on it returns a
    table of one element, and [find(1)] then returns the iterator 0, which
    is not [end()]: iteration still yields the element (1,20). *)
Lemma duplicate_outlives_erase :
  ∃ s s', HashMap_of_list hash_id 0 0 range16 [(1, 10); (1, 20)] = Ret s ∧
    reachable hash_id 0 0 range16 s ∧ fits range16 s ∧ size s = 2 ∧
    erase hash_id 0 0 range16 1 s = Ret s' ∧ size s' = 1 ∧
    find hash_id 0 0 1 s' = Ret 0 ∧ end_ s' = 1 ∧
    find hash_id 0 0 1 s' ≠ Ret (end_ s') ∧ iterate 0 0 s' = [(1, 20)].
Proof.
  destruct (HashMap_fill_constructing hash_id 0 0 range16 [(1, 10); (1, 20)]
              (Init 0 0 DEFAULT_SIZE)) as (s & Hres & Hc).
  - apply constructing_Init.
  - apply Nat.ltb_lt. vm_compute. reflexivity.
  - exists s. eexists. split; [done|]. split; [by apply reachable_ctor|].
    vm_compute in Hres. injection Hres as <-.
    split; [apply Nat.ltb_lt; vm_compute; reflexivity|]. split; [done|].
    split; [vm_compute; reflexivity|]. split; [done|]. split; [done|].
    split; [done|]. split; [|done]. intros E. vm_compute in E. congruence.
Qed.

(** C4, failing input. The constructor given the elements (5,0), (1,10),
    (1,20) followed by [erase(5)] gives a reachable table on which [at(1)]
    returns 10; [Rebuild] re-inserts the elements in the order of
    [element_positions_], here (1,20) before (1,10), and [at(1)] returns 20
    afterwards.  The same happens through the public member functions:
    after [insert] of fifty further keys the table holds 52 elements in 64
    slots and [at(1)] returns 10; the next [insert] rebuilds it to 256
    slots and [at(1)] returns 20. *)
Lemma Rebuild_changes_duplicate_value :
  ∃ s s1 s' s2 s3,
    HashMap_of_list hash_id 0 0 range16 [(5, 0); (1, 10); (1, 20)] = Ret s ∧
    erase hash_id 0 0 range16 5 s = Ret s1 ∧
    reachable hash_id 0 0 range16 s1 ∧ fits range16 s1 ∧
    at_ hash_id 0 0 1 s1 = Ret 10 ∧
    Rebuild hash_id 0 0 range16 1 s1 = Ret s' ∧
    size_ s' = SIZE_INCREASING_ON_REBUILD * size_ s1 ∧
    at_ hash_id 0 0 1 s' = Ret 20 ∧
    insert_all hash_id 0 0 range16 ((λ k, (k, k)) <$> seq 100 50) s1 = Ret s2 ∧
    size_ s2 = 64 ∧ size s2 = 52 ∧ at_ hash_id 0 0 1 s2 = Ret 10 ∧
    insert hash_id 0 0 range16 (200, 0) s2 = Ret s3 ∧
    size_ s3 = 256 ∧ size s3 = 53 ∧ at_ hash_id 0 0 1 s3 = Ret 20.
Proof.
  destruct (HashMap_fill_constructing hash_id 0 0 range16
              [(5, 0); (1, 10); (1, 20)] (Init 0 0 DEFAULT_SIZE))
    as (s & Hres & Hc).
  - apply constructing_Init.
  - apply Nat.ltb_lt. vm_compute. reflexivity.
  - assert (Hfit: fits range16 s).
    { vm_compute in Hres. injection Hres as <-.
      apply Nat.ltb_lt. vm_compute. reflexivity. }
    destruct (erase_spec hash_id 0 0 range16 5 s
                (constructing_wf0 hash_id 0 0 range16 s Hc) Hfit)
      as (s1 & Herase & _).
    assert (Hr1: reachable hash_id 0 0 range16 s1).
    { eapply reachable_erase; [by apply reachable_ctor|done|done]. }
    exists s, s1. do 3 eexists. split; [done|]. split; [done|].
    split; [done|].
    vm_compute in Hres. injection Hres as <-.
    vm_compute in Herase. injection Herase as <-.
    split; [apply Nat.ltb_lt; vm_compute; reflexivity|].
    split; [vm_compute; reflexivity|]. split; [vm_compute; reflexivity|].
    split; [vm_compute; reflexivity|]. split; [vm_compute; reflexivity|].
    split; [vm_compute; reflexivity|]. split; [vm_compute; reflexivity|].
    split; [vm_compute; reflexivity|]. split; [vm_compute; reflexivity|].
    split; [vm_compute; reflexivity|]. split; [vm_compute; reflexivity|].
    split; vm_compute; reflexivity.
Qed.

Lemma chain3_wf : wf hash_collide 0 0 chain3.
Proof. apply (built_wf hash_collide 0 0 range16), chain3_built. Qed.

Lemma chain3_reachable : reachable hash_collide 0 0 range16 chain3.
Proof. apply built_reachable, chain3_built. Qed.

(** ** Instances on the colliding chain *)

(** The middle key of the chain is erased and a fourth colliding key is
    inserted: the fourth key and the two keys that stayed are found. *)
Example chain_repaired :
  (let* s1 := erase hash_collide 0 0 range16 2 chain3 in
   let* s2 := insert hash_collide 0 0 range16 (4, 40) s1 in
   Ret (at_ hash_collide 0 0 1 s2, at_ hash_collide 0 0 2 s2,
        at_ hash_collide 0 0 3 s2, at_ hash_collide 0 0 4 s2, size s2)) =
  Ret (Ret 10, Throw out_of_range, Ret 30, Ret 40, 3).
Proof. vm_compute. reflexivity. Qed.

Lemma insert_then_lookup_witness :
  NoDup three.*1 ∧
  fits_capacity range16 (capacity_after (length three) DEFAULT_SIZE 0) ∧
  ∃ s, insert_all hash_collide 0 0 range16 three (HashMap_new 0 0) = Ret s ∧
    ∀ key value, (key, value) ∈ three →
      at_ hash_collide 0 0 key s = Ret value ∧
      ∃ it, find hash_collide 0 0 key s = Ret it ∧ it ≠ end_ s ∧
            deref 0 0 s it = (key, value).
Proof.
  assert (H1: NoDup three.*1) by apply (NoDup_seq 1 3).
  assert (H2: fits_capacity range16 (capacity_after (length three) DEFAULT_SIZE 0))
    by (apply Nat.ltb_lt; vm_compute; reflexivity).
  split; [exact H1|]. split; [exact H2|].
  exact (insert_then_lookup hash_collide 0 0 range16 _ H1 H2).
Defined.

Lemma chain3_has_key : has_key 0 0 chain3 2.
Proof.
  exists 8. split; [apply Nat.ltb_lt; vm_compute; reflexivity|].
  split; vm_compute; reflexivity.
Qed.

Lemma insert_existing_key_witness :
  wf0 hash_collide 0 0 chain3 ∧ has_key 0 0 chain3 2 ∧
  insert hash_collide 0 0 range16 (2, 99) chain3 = Ret chain3.
Proof.
  split; [exact (proj1 chain3_wf)|]. split; [exact chain3_has_key|].
  exact (proj1 (insert_existing_key hash_collide 0 0 range16 chain3 2 99
                  (proj1 chain3_wf)) chain3_has_key).
Defined.

Lemma load_after_insert_witness :
  reachable hash_collide 0 0 range16 chain3 ∧ fits range16 chain3 ∧
  ∃ s', insert hash_collide 0 0 range16 (4, 40) chain3 = Ret s' ∧
    (element_count_ s' - 1) * 100 < MAX_LOAD_FACTOR * size_ s'.
Proof.
  split; [exact chain3_reachable|]. split; [exact chain3_fits|].
  exact (load_after_insert hash_collide 0 0 range16 chain3 (4, 40)
           chain3_reachable chain3_fits).
Defined.

Lemma at_throws_iff_absent_witness :
  wf0 hash_collide 0 0 chain3 ∧ has_key 0 0 chain3 2 ∧
  (∃ value, at_ hash_collide 0 0 2 chain3 = Ret value ∧
            stored 0 0 chain3 (2, value)) ∧
  (at_ hash_collide 0 0 4 chain3 = Throw out_of_range ↔ ¬ has_key 0 0 chain3 4).
Proof.
  split; [exact (proj1 chain3_wf)|]. split; [exact chain3_has_key|]. split.
  - exact (proj1 (proj2 (proj2
             (at_throws_iff_absent hash_collide 0 0 range16 chain3 2
                (proj1 chain3_wf)))) chain3_has_key).
  - exact (proj1 (at_throws_iff_absent hash_collide 0 0 range16 chain3 4
                    (proj1 chain3_wf))).
Defined.


Lemma hundred_keys_witness :
  fits_capacity (2 ^ 32) 256 ∧
  ∃ s, insert_all hash_collide 0 0 (2 ^ 32) (doubled 100) (HashMap_new 0 0) = Ret s ∧
    size_ (HashMap_new (V:=nat) 0 0) = 64 ∧ size_ s = 256 ∧
    size s = 100 ∧ at_ hash_collide 0 0 57 s = Ret 114.
Proof.
  assert (H: fits_capacity (2 ^ 32) 256).
  { unfold fits_capacity. apply (Nat.lt_le_trans _ (2 ^ 17)).
    - apply Nat.ltb_lt. vm_compute. reflexivity.
    - apply Nat.pow_le_mono_r; lia. }
  split; [exact H|]. exact (hundred_keys hash_collide (2 ^ 32) H).
Defined.

Lemma capacity_never_shrinks_witness :
  reachable hash_collide 0 0 range16 chain3 ∧ fits range16 chain3 ∧
  ∃ s', clear hash_collide 0 0 range16 chain3 = Ret s' ∧
    size_ s' = size_ chain3 ∧ size s' = 0 ∧ iterate 0 0 s' = [].
Proof.
  split; [exact chain3_reachable|]. split; [exact chain3_fits|].
  exact (proj2 (proj2 (proj2 (proj2
           (capacity_never_shrinks hash_collide 0 0 range16 chain3
              chain3_reachable chain3_fits))))).
Defined.

(** ** Instances of the further properties *)

Lemma chain3_absent : ¬ found hash_collide 0 0 chain3 4.
Proof.
  intros (it & Hf & Hne). vm_compute in Hf. injection Hf as <-.
  apply Hne. vm_compute. reflexivity.
Qed.

Lemma chain3_slot : 9 < size_ chain3 ∧ occupied chain3 9.
Proof. split; [apply Nat.ltb_lt|]; vm_compute; reflexivity. Qed.

Lemma chain3_find : find hash_collide 0 0 2 chain3 = Ret 1 ∧ 1 ≠ end_ chain3.
Proof.
  split; [vm_compute; reflexivity|]. intros E. vm_compute in E. lia.
Qed.

Lemma psl_counts_probe_steps_witness :
  reachable hash_collide 0 0 range16 chain3 ∧ 9 < size_ chain3 ∧
  occupied chain3 9 ∧
  ∃ d, psl_ chain3 !!! 9 = S d ∧ d < size_ chain3 ∧
       9 = (hash_collide (keyAt 0 0 chain3 9) + d) mod size_ chain3 ∧
       ∀ m, m < d →
         occupied chain3 ((hash_collide (keyAt 0 0 chain3 9) + m) mod size_ chain3).
Proof.
  split; [exact chain3_reachable|]. split; [exact (proj1 chain3_slot)|].
  split; [exact (proj2 chain3_slot)|].
  exact (psl_counts_probe_steps hash_collide 0 0 range16 chain3 9
           chain3_reachable (proj1 chain3_slot) (proj2 chain3_slot)).
Defined.

Lemma index_refers_to_key_witness :
  wf hash_collide 0 0 chain3 ∧ fits range16 chain3 ∧
  ∃ i s', index hash_collide 0 0 range16 4 chain3 = Ret (i, s') ∧
    i < size_ s' ∧ occupied s' i ∧ (data_ s' !!! i).1 = 4 ∧
    at_ hash_collide 0 0 4 s' = Ret (data_ s' !!! i).2 ∧
    (found hash_collide 0 0 chain3 4 → s' = chain3) ∧
    (¬ found hash_collide 0 0 chain3 4 →
       (data_ s' !!! i).2 = 0 ∧ size s' = S (size chain3)) ∧
    ∀ k, k ≠ 4 → at_ hash_collide 0 0 k s' = at_ hash_collide 0 0 k chain3.
Proof.
  split; [exact chain3_wf|]. split; [exact chain3_fits|].
  exact (index_refers_to_key hash_collide 0 0 range16 chain3 4
           chain3_wf chain3_fits).
Defined.

Lemma index_assign_then_at_witness :
  wf hash_collide 0 0 chain3 ∧ fits range16 chain3 ∧
  ∃ i s', index hash_collide 0 0 range16 4 chain3 = Ret (i, s') ∧
    at_ hash_collide 0 0 4 (assign 0 0 i 40 s') = Ret 40 ∧
    size (assign 0 0 i 40 s') = size s' ∧
    ∀ k, k ≠ 4 →
      at_ hash_collide 0 0 k (assign 0 0 i 40 s') = at_ hash_collide 0 0 k chain3.
Proof.
  split; [exact chain3_wf|]. split; [exact chain3_fits|].
  exact (index_assign_then_at hash_collide 0 0 range16 chain3 4 40
           chain3_wf chain3_fits).
Defined.

Lemma find_set_second_witness :
  wf hash_collide 0 0 chain3 ∧ find hash_collide 0 0 2 chain3 = Ret 1 ∧
  1 ≠ end_ chain3 ∧
  at_ hash_collide 0 0 2 (set_second 0 0 1 99 chain3) = Ret 99 ∧
  iterate 0 0 (set_second 0 0 1 99 chain3) = <[1 := (2, 99)]> (iterate 0 0 chain3) ∧
  ∀ k, k ≠ 2 →
    at_ hash_collide 0 0 k (set_second 0 0 1 99 chain3) =
    at_ hash_collide 0 0 k chain3.
Proof.
  split; [exact chain3_wf|]. split; [exact (proj1 chain3_find)|].
  split; [exact (proj2 chain3_find)|].
  exact (find_set_second hash_collide 0 0 chain3 2 99 1
           chain3_wf (proj1 chain3_find) (proj2 chain3_find)).
Defined.

Lemma insert_one_key_witness :
  wf hash_collide 0 0 chain3 ∧ fits range16 chain3 ∧
  ∃ s', insert hash_collide 0 0 range16 (4, 40) chain3 = Ret s' ∧
    wf hash_collide 0 0 s' ∧
    (¬ found hash_collide 0 0 chain3 4 →
       at_ hash_collide 0 0 4 s' = Ret 40 ∧ size s' = S (size chain3)) ∧
    (found hash_collide 0 0 chain3 4 → s' = chain3) ∧
    ∀ k, k ≠ 4 → at_ hash_collide 0 0 k s' = at_ hash_collide 0 0 k chain3.
Proof.
  split; [exact chain3_wf|]. split; [exact chain3_fits|].
  exact (insert_one_key hash_collide 0 0 range16 chain3 4 40
           chain3_wf chain3_fits).
Defined.

Lemma insert_adds_one_element_witness :
  wf0 hash_collide 0 0 chain3 ∧ fits range16 chain3 ∧
  ¬ found hash_collide 0 0 chain3 4 ∧
  ∃ s', insert hash_collide 0 0 range16 (4, 40) chain3 = Ret s' ∧
    iterate 0 0 s' ≡ₚ (4, 40) :: iterate 0 0 chain3.
Proof.
  split; [exact (proj1 chain3_wf)|]. split; [exact chain3_fits|].
  split; [exact chain3_absent|].
  exact (insert_adds_one_element hash_collide 0 0 range16 chain3 (4, 40)
           (proj1 chain3_wf) chain3_fits chain3_absent).
Defined.

Lemma erase_removes_found_element_witness :
  wf0 hash_collide 0 0 chain3 ∧ fits range16 chain3 ∧
  find hash_collide 0 0 2 chain3 = Ret 1 ∧ 1 ≠ end_ chain3 ∧
  ∃ s', erase hash_collide 0 0 range16 2 chain3 = Ret s' ∧
    (deref 0 0 chain3 1).1 = 2 ∧
    iterate 0 0 chain3 ≡ₚ deref 0 0 chain3 1 :: iterate 0 0 s'.
Proof.
  split; [exact (proj1 chain3_wf)|]. split; [exact chain3_fits|].
  split; [exact (proj1 chain3_find)|]. split; [exact (proj2 chain3_find)|].
  exact (erase_removes_found_element hash_collide 0 0 range16 chain3 2 1
           (proj1 chain3_wf) chain3_fits (proj1 chain3_find) (proj2 chain3_find)).
Defined.

Lemma constructor_places_every_element_witness :
  fits_capacity range16 (capacity_after (length [(1, 10); (1, 20)]) DEFAULT_SIZE 0) ∧
  ∃ s, HashMap_of_list hash_id 0 0 range16 [(1, 10); (1, 20)] = Ret s ∧
    iterate 0 0 s ≡ₚ [(1, 10); (1, 20)] ∧
    size s = length [(1, 10); (1, 20)] ∧
    size_ s = capacity_after (length [(1, 10); (1, 20)]) DEFAULT_SIZE 0.
Proof.
  assert (H: fits_capacity range16
               (capacity_after (length [(1, 10); (1, 20)]) DEFAULT_SIZE 0))
    by (apply Nat.ltb_lt; vm_compute; reflexivity).
  split; [exact H|].
  exact (constructor_places_every_element hash_id 0 0 range16 [(1, 10); (1, 20)] H).
Defined.

Lemma constructor_of_distinct_keys_witness :
  NoDup three.*1 ∧
  fits_capacity range16 (capacity_after (length three) DEFAULT_SIZE 0) ∧
  ∃ s, HashMap_of_list hash_collide 0 0 range16 three = Ret s ∧
    insert_all hash_collide 0 0 range16 three (HashMap_new 0 0) = Ret s ∧
    wf hash_collide 0 0 s.
Proof.
  assert (H1: NoDup three.*1) by apply (NoDup_seq 1 3).
  assert (H2: fits_capacity range16 (capacity_after (length three) DEFAULT_SIZE 0))
    by (apply Nat.ltb_lt; vm_compute; reflexivity).
  split; [exact H1|]. split; [exact H2|].
  exact (constructor_of_distinct_keys hash_collide 0 0 range16 three H1 H2).
Defined.

Lemma reachable_capacity_witness :
  reachable hash_collide 0 0 range16 chain3 ∧
  ∃ k, size_ chain3 = DEFAULT_SIZE * SIZE_INCREASING_ON_REBUILD ^ k.
Proof.
  split; [exact chain3_reachable|].
  exact (reachable_capacity hash_collide 0 0 range16 chain3 chain3_reachable).
Defined.

Lemma insert_grows_at_load_factor_witness :
  wf0 hash_collide 0 0 chain3 ∧ fits range16 chain3 ∧
  ¬ found hash_collide 0 0 chain3 4 ∧
  ∃ s', insert hash_collide 0 0 range16 (4, 40) chain3 = Ret s' ∧
    size s' = S (size chain3) ∧
    (size chain3 * 100 < MAX_LOAD_FACTOR * size_ chain3 → size_ s' = size_ chain3) ∧
    (MAX_LOAD_FACTOR * size_ chain3 ≤ size chain3 * 100 →
       size_ s' = SIZE_INCREASING_ON_REBUILD * size_ chain3 ∧
       size s' * 100 ≤ MAX_LOAD_FACTOR_ON_REBUILD * size_ s').
Proof.
  split; [exact (proj1 chain3_wf)|]. split; [exact chain3_fits|].
  split; [exact chain3_absent|].
  exact (insert_grows_at_load_factor hash_collide 0 0 range16 chain3 (4, 40)
           (proj1 chain3_wf) chain3_fits chain3_absent).
Defined.

Lemma clear_then_lookup_witness :
  reachable hash_collide 0 0 range16 chain3 ∧ fits range16 chain3 ∧
  ∃ s', clear hash_collide 0 0 range16 chain3 = Ret s' ∧
    empty s' = true ∧ begin_ s' = end_ s' ∧
    find hash_collide 0 0 2 s' = Ret (end_ s') ∧
    at_ hash_collide 0 0 2 s' = Throw out_of_range ∧
    erase hash_collide 0 0 range16 2 s' = Ret s'.
Proof.
  split; [exact chain3_reachable|]. split; [exact chain3_fits|].
  exact (clear_then_lookup hash_collide 0 0 range16 chain3 2
           chain3_reachable chain3_fits).
Defined.

Lemma iteration_on_reachable_witness :
  reachable hash_collide 0 0 range16 chain3 ∧
  length (iterate 0 0 chain3) = size chain3 ∧
  (∀ it, it < end_ chain3 → iterate 0 0 chain3 !! it = Some (deref 0 0 chain3 it)) ∧
  (∀ key, key ∈ (iterate 0 0 chain3).*1 ↔ found hash_collide 0 0 chain3 key) ∧
  (empty chain3 = true ↔ iterate 0 0 chain3 = []) ∧
  (uniq 0 0 chain3 → NoDup (iterate 0 0 chain3).*1).
Proof.
  split; [exact chain3_reachable|].
  exact (iteration_on_reachable hash_collide 0 0 range16 chain3 chain3_reachable).
Defined.

Lemma Rebuild_keeps_every_element_witness :
  wf0 hash_collide 0 0 chain3 ∧ fits range16 chain3 ∧
  ∃ s', Rebuild hash_collide 0 0 range16 3 chain3 = Ret s' ∧
    Rebuild hash_collide 0 0 range16 1 chain3 = Ret s' ∧
    iterate 0 0 s' ≡ₚ iterate 0 0 chain3 ∧
    size_ s' = SIZE_INCREASING_ON_REBUILD * size_ chain3 ∧
    size s' * 100 < MAX_LOAD_FACTOR_ON_REBUILD * size_ s' ∧
    psl_ok hash_collide 0 0 s'.
Proof.
  split; [exact (proj1 chain3_wf)|]. split; [exact chain3_fits|].
  exact (Rebuild_keeps_every_element hash_collide 0 0 range16 2 chain3
           (proj1 chain3_wf) chain3_fits).
Defined.

Lemma insert_then_erase_witness :
  wf hash_collide 0 0 (table_of hash_collide 0 0 range17 three) ∧
  fits_capacity range17
    (SIZE_INCREASING_ON_REBUILD * size_ (table_of hash_collide 0 0 range17 three)) ∧
  ¬ found hash_collide 0 0 (table_of hash_collide 0 0 range17 three) 4 ∧
  ∃ s1 s2,
    insert hash_collide 0 0 range17 (4, 40)
      (table_of hash_collide 0 0 range17 three) = Ret s1 ∧
    erase hash_collide 0 0 range17 4 s1 = Ret s2 ∧
    iterate 0 0 s2 ≡ₚ iterate 0 0 (table_of hash_collide 0 0 range17 three) ∧
    size s2 = size (table_of hash_collide 0 0 range17 three) ∧
    ∀ k, at_ hash_collide 0 0 k s2 =
         at_ hash_collide 0 0 k (table_of hash_collide 0 0 range17 three).
Proof.
  assert (H1: wf hash_collide 0 0 (table_of hash_collide 0 0 range17 three)).
  { apply (built_wf hash_collide 0 0 range17), table_of_built.
    - apply (NoDup_seq 1 3).
    - apply Nat.ltb_lt. vm_compute. reflexivity. }
  assert (H2: fits_capacity range17
                (SIZE_INCREASING_ON_REBUILD *
                 size_ (table_of hash_collide 0 0 range17 three)))
    by (apply Nat.ltb_lt; vm_compute; reflexivity).
  assert (H3: ¬ found hash_collide 0 0 (table_of hash_collide 0 0 range17 three) 4).
  { intros (it & Hf & Hne). vm_compute in Hf. injection Hf as <-.
    apply Hne. vm_compute. reflexivity. }
  split; [exact H1|]. split; [exact H2|]. split; [exact H3|].
  exact (insert_then_erase hash_collide 0 0 range17 _ 4 40 H1 H2 H3).
Defined.

Lemma find_inverts_deref_witness :
  wf hash_collide 0 0 chain3 ∧ 1 < end_ chain3 ∧
  find hash_collide 0 0 (deref 0 0 chain3 1).1 chain3 = Ret 1 ∧
  at_ hash_collide 0 0 (deref 0 0 chain3 1).1 chain3 = Ret (deref 0 0 chain3 1).2.
Proof.
  assert (H: 1 < end_ chain3) by (apply Nat.ltb_lt; vm_compute; reflexivity).
  split; [exact chain3_wf|]. split; [exact H|].
  exact (find_inverts_deref hash_collide 0 0 chain3 1 chain3_wf H).
Defined.

Lemma lookup_within_size_probes_witness :
  wf0 hash_collide 0 0 chain3 ∧ size chain3 < 4 ∧
  ∃ p, GetKeyIndex_loop 0 0 4 3 chain3 (hash_collide 3 mod size_ chain3) = Ret p ∧
       GetKeyIndex hash_collide 0 0 3 chain3 = Ret p ∧ p < size_ chain3 ∧
       ((free_places_ chain3 !!! p = true ∧ ¬ has_key 0 0 chain3 3) ∨
        (occupied chain3 p ∧ keyAt 0 0 chain3 p = 3)).
Proof.
  assert (H: size chain3 < 4) by (apply Nat.ltb_lt; vm_compute; reflexivity).
  split; [exact (proj1 chain3_wf)|]. split; [exact H|].
  exact (lookup_within_size_probes hash_collide 0 0 chain3 3 4 (proj1 chain3_wf) H).
Defined.

Lemma psl_is_lookup_cost_witness :
  reachable hash_collide 0 0 range16 chain3 ∧ uniq 0 0 chain3 ∧
  9 < size_ chain3 ∧ occupied chain3 9 ∧
  GetKeyIndex_loop 0 0 (psl_ chain3 !!! 9) (keyAt 0 0 chain3 9) chain3
    (hash_collide (keyAt 0 0 chain3 9) mod size_ chain3) = Ret 9 ∧
  GetKeyIndex_loop 0 0 (psl_ chain3 !!! 9 - 1) (keyAt 0 0 chain3 9) chain3
    (hash_collide (keyAt 0 0 chain3 9) mod size_ chain3) = Timeout.
Proof.
  split; [exact chain3_reachable|]. split; [exact (proj2 chain3_wf)|].
  split; [exact (proj1 chain3_slot)|]. split; [exact (proj2 chain3_slot)|].
  exact (psl_is_lookup_cost hash_collide 0 0 range16 chain3 9
           chain3_reachable (proj2 chain3_wf) (proj1 chain3_slot) (proj2 chain3_slot)).
Defined.

Lemma erase_then_insert_witness :
  wf hash_collide 0 0 chain3 ∧ fits range16 chain3 ∧
  at_ hash_collide 0 0 2 chain3 = Ret 20 ∧
  ∃ s1 s2, erase hash_collide 0 0 range16 2 chain3 = Ret s1 ∧
    insert hash_collide 0 0 range16 (2, 20) s1 = Ret s2 ∧
    iterate 0 0 s2 ≡ₚ iterate 0 0 chain3 ∧ size s2 = size chain3 ∧
    size_ s2 = size_ chain3 ∧
    ∀ k, at_ hash_collide 0 0 k s2 = at_ hash_collide 0 0 k chain3.
Proof.
  assert (H: at_ hash_collide 0 0 2 chain3 = Ret 20) by (vm_compute; reflexivity).
  split; [exact chain3_wf|]. split; [exact chain3_fits|]. split; [exact H|].
  exact (erase_then_insert hash_collide 0 0 range16 chain3 2 20
           chain3_wf chain3_fits H).
Defined.

Lemma reachable_index_vectors_witness :
  reachable hash_collide 0 0 range16 chain3 ∧
  length (data_ chain3) = size_ chain3 ∧ length (psl_ chain3) = size_ chain3 ∧
  length (free_places_ chain3) = size_ chain3 ∧
  length (index_in_element_positions_ chain3) = size_ chain3 ∧
  size chain3 = length (element_positions_ chain3) ∧
  NoDup (element_positions_ chain3) ∧
  (∀ p, p ∈ element_positions_ chain3 ↔ p < size_ chain3 ∧ occupied chain3 p) ∧
  (∀ it p, element_positions_ chain3 !! it = Some p →
     index_in_element_positions_ chain3 !!! p = it).
Proof.
  split; [exact chain3_reachable|].
  exact (reachable_index_vectors hash_collide 0 0 range16 chain3 chain3_reachable).
Defined.

Lemma robin_hood_order_witness :
  reachable hash_collide 0 0 range16 chain3 ∧ 7 < size_ chain3 ∧
  occupied chain3 7 ∧ occupied chain3 ((7 + 1) mod size_ chain3) ∧
  psl_ chain3 !!! ((7 + 1) mod size_ chain3) ≤ S (psl_ chain3 !!! 7).
Proof.
  assert (H1: 7 < size_ chain3) by (apply Nat.ltb_lt; vm_compute; reflexivity).
  assert (H2: occupied chain3 7) by (vm_compute; reflexivity).
  assert (H3: occupied chain3 ((7 + 1) mod size_ chain3))
    by (vm_compute; reflexivity).
  split; [exact chain3_reachable|]. split; [exact H1|]. split; [exact H2|].
  split; [exact H3|].
  exact (robin_hood_order hash_collide 0 0 range16 chain3 7
           chain3_reachable H1 H2 H3).
Defined.

Lemma erase_then_find_witness :
  wf hash_collide 0 0 chain3 ∧ fits range16 chain3 ∧
  ∃ s', erase hash_collide 0 0 range16 2 chain3 = Ret s' ∧
    wf hash_collide 0 0 s' ∧
    ¬ has_key 0 0 s' 2 ∧ find hash_collide 0 0 2 s' = Ret (end_ s') ∧
    at_ hash_collide 0 0 2 s' = Throw out_of_range ∧
    (has_key 0 0 chain3 2 → S (size s') = size chain3) ∧
    (¬ has_key 0 0 chain3 2 → s' = chain3) ∧
    ∀ k v, k ≠ 2 →
      (stored 0 0 s' (k, v) ↔ stored 0 0 chain3 (k, v)) ∧
      (stored 0 0 chain3 (k, v) →
         at_ hash_collide 0 0 k s' = Ret v ∧
         ∃ it, find hash_collide 0 0 k s' = Ret it ∧ it ≠ end_ s' ∧
               deref 0 0 s' it = (k, v)).
Proof.
  split; [exact chain3_wf|]. split; [exact chain3_fits|].
  exact (erase_then_find hash_collide 0 0 range16 chain3 2 chain3_wf chain3_fits).
Defined.

Lemma Rebuild_keeps_elements_witness :
  wf hash_collide 0 0 chain3 ∧ fits range16 chain3 ∧
  ∃ s', Rebuild hash_collide 0 0 range16 1 chain3 = Ret s' ∧
    wf hash_collide 0 0 s' ∧
    size_ s' = SIZE_INCREASING_ON_REBUILD * size_ chain3 ∧
    element_count_ s' = element_count_ chain3 ∧
    (∀ e, stored 0 0 s' e ↔ stored 0 0 chain3 e) ∧
    (∀ k, at_ hash_collide 0 0 k s' = at_ hash_collide 0 0 k chain3) ∧
    ∀ k v, stored 0 0 chain3 (k, v) →
      at_ hash_collide 0 0 k s' = Ret v ∧
      ∃ it, find hash_collide 0 0 k s' = Ret it ∧ it ≠ end_ s' ∧
            deref 0 0 s' it = (k, v).
Proof.
  split; [exact chain3_wf|]. split; [exact chain3_fits|].
  exact (Rebuild_keeps_elements hash_collide 0 0 range16 0 chain3
           chain3_wf chain3_fits).
Defined.
